(** * DrandShuffle: a shallow embedding of the Go package [drand_shuffle]

    The development follows the two source files of the package:
    - [shuffle.go]: cards, the canonical deck, the Fisher-Yates shuffle driven
      by beacon randomness, the session-bound derivation of the randomness and
      the card text codec;
    - [drand_manager.go]: the beacon manager with its cache of rounds.

    Go values are modelled as follows.  A [[]byte] is a [list byte]; a Go
    [string] is a Rocq [string], that is its sequence of UTF-8 bytes, so that
    [len] is [String.length]; [int] indices are [nat] or [Z] (every index stays
    between [0] and the length of a slice, far from the 64-bit limits); the
    [uint64] read by [binary.BigEndian.Uint64] is a [Z] in [[0, 2^64)]; a
    round number is an [N]; [map[uint64]*client.Result] is a [gmap N Result].
    A run-time panic (index or slice bound out of range) is the value [None]. *)

From Stdlib Require Import ZArith List Permutation Strings.Byte Strings.String Strings.Ascii.
From stdpp Require Import gmap strings list fin_maps sorting.

Local Open Scope Z_scope.

(** ** Bytes *)

Definition byte_to_Z (b : byte) : Z := Z.of_N (Byte.to_N b).

Definition byte_of_Z (z : Z) : byte :=
  match Byte.of_N (Z.to_N (z mod 256)) with
  | Some b => b
  | None => Byte.x00
  end.

(** [[]byte(s)] for a Go string [s]. *)
Definition bytes_of_string (s : string) : list byte := list_byte_of_string s.

(** ** crypto/sha256

    The digest of the Go standard library, after FIPS 180-4 and the generic
    block function of [crypto/sha256]: 32-bit words are integers reduced
    modulo [2^32]. *)
Module SHA256.

Definition w32 (x : Z) : Z := x mod 2 ^ 32.
Definition add32 (x y : Z) : Z := w32 (x + y).
Definition rotr (n x : Z) : Z :=
  Z.lor (Z.shiftr x n) (w32 (Z.shiftl x (32 - n))).
Definition not32 (x : Z) : Z := Z.lxor x 0xffffffff.

Definition Ch (x y z : Z) : Z := Z.lxor (Z.land x y) (Z.land (not32 x) z).
Definition Maj (x y z : Z) : Z :=
  Z.lxor (Z.lxor (Z.land x y) (Z.land x z)) (Z.land y z).
Definition bsig0 (x : Z) : Z := Z.lxor (Z.lxor (rotr 2 x) (rotr 13 x)) (rotr 22 x).
Definition bsig1 (x : Z) : Z := Z.lxor (Z.lxor (rotr 6 x) (rotr 11 x)) (rotr 25 x).
Definition ssig0 (x : Z) : Z := Z.lxor (Z.lxor (rotr 7 x) (rotr 18 x)) (Z.shiftr x 3).
Definition ssig1 (x : Z) : Z := Z.lxor (Z.lxor (rotr 17 x) (rotr 19 x)) (Z.shiftr x 10).

(** The constants of the standard are defined from the first primes: the
    round constants are the first 32 bits of the fractional parts of their
    cube roots, the initial chaining words those of the square roots of the
    first eight. *)
Definition primes : list Z :=
  [2; 3; 5; 7; 11; 13; 17; 19; 23; 29; 31; 37; 41; 43; 47; 53; 59; 61; 67; 71;
   73; 79; 83; 89; 97; 101; 103; 107; 109; 113; 127; 131; 137; 139; 149; 151;
   157; 163; 167; 173; 179; 181; 191; 193; 197; 199; 211; 223; 227; 229; 233;
   239; 241; 251; 257; 263; 269; 271; 277; 281; 283; 293; 307; 311].

(** The integer cube root of [n], bit by bit below [2^bits]. *)
Fixpoint cbrt_bits (bits : nat) (n r : Z) : Z :=
  match bits with
  | O => r
  | S b =>
      let r' := r + 2 ^ Z.of_nat b in
      cbrt_bits b n (if r' * r' * r' <=? n then r' else r)
  end.

Definition frac_cbrt (p : Z) : Z := w32 (cbrt_bits 36 (p * 2 ^ 96) 0).
Definition frac_sqrt (p : Z) : Z := w32 (Z.sqrt (p * 2 ^ 64)).

Definition _K : list Z := Eval vm_compute in map frac_cbrt primes.

(** The eight chaining words [h0 .. h7] of a digest in progress. *)
Record chain := Chain {
  h0 : Z; h1 : Z; h2 : Z; h3 : Z; h4 : Z; h5 : Z; h6 : Z; h7 : Z }.

Definition init : chain :=
  Eval vm_compute in
    Chain (frac_sqrt 2) (frac_sqrt 3) (frac_sqrt 5) (frac_sqrt 7)
          (frac_sqrt 11) (frac_sqrt 13) (frac_sqrt 17) (frac_sqrt 19).

(** Big-endian words of a block. *)
Definition be32 (b0 b1 b2 b3 : Z) : Z :=
  Z.lor (Z.lor (Z.shiftl b0 24) (Z.shiftl b1 16)) (Z.lor (Z.shiftl b2 8) b3).

Fixpoint words (bs : list Z) : list Z :=
  match bs with
  | b0 :: b1 :: b2 :: b3 :: rest => be32 b0 b1 b2 b3 :: words rest
  | _ => []
  end.

(** The message schedule, kept most recent word first while it grows:
    [w[i] = ssig1 w[i-2] + w[i-7] + ssig0 w[i-15] + w[i-16]]. *)
Fixpoint extend (n : nat) (rw : list Z) : list Z :=
  match n with
  | O => rw
  | S n' =>
      let t1 := ssig1 (nth 1 rw 0) in
      let t2 := ssig0 (nth 14 rw 0) in
      let wi := add32 (add32 (add32 t1 (nth 6 rw 0)) t2) (nth 15 rw 0) in
      extend n' (wi :: rw)
  end.

Definition schedule (block : list Z) : list Z :=
  rev (extend 48 (rev (words block))).

Definition round (c : chain) (kw : Z * Z) : chain :=
  let '(k, w) := kw in
  let t1 := add32 (add32 (add32 (add32 (h7 c) (bsig1 (h4 c)))
                                (Ch (h4 c) (h5 c) (h6 c))) k) w in
  let t2 := add32 (bsig0 (h0 c)) (Maj (h0 c) (h1 c) (h2 c)) in
  Chain (add32 t1 t2) (h0 c) (h1 c) (h2 c)
        (add32 (h3 c) t1) (h4 c) (h5 c) (h6 c).

Definition block (c : chain) (blk : list Z) : chain :=
  let r := fold_left round (combine _K (schedule blk)) c in
  Chain (add32 (h0 c) (h0 r)) (add32 (h1 c) (h1 r))
        (add32 (h2 c) (h2 r)) (add32 (h3 c) (h3 r))
        (add32 (h4 c) (h4 r)) (add32 (h5 c) (h5 r))
        (add32 (h6 c) (h6 r)) (add32 (h7 c) (h7 r)).

Fixpoint blocks (n : nat) (c : chain) (bs : list Z) : chain :=
  match n with
  | O => c
  | S n' => blocks n' (block c (firstn 64 bs)) (skipn 64 bs)
  end.

Definition be64 (x : Z) : list Z :=
  map (fun k => Z.shiftr x (8 * k) mod 256) [7; 6; 5; 4; 3; 2; 1; 0].

(** Padding: the byte [0x80], zeros up to 56 modulo 64, the bit length. *)
Definition pad (msg : list Z) : list Z :=
  let len := Z.of_nat (length msg) in
  msg ++ 0x80 :: repeat 0 (Z.to_nat ((55 - len) mod 64)) ++ be64 (8 * len).

Definition word_bytes (x : Z) : list byte :=
  map (fun k => byte_of_Z (Z.shiftr x (8 * k))) [3; 2; 1; 0].

Definition digest (c : chain) : list byte :=
  word_bytes (h0 c) ++ word_bytes (h1 c) ++ word_bytes (h2 c) ++
  word_bytes (h3 c) ++ word_bytes (h4 c) ++ word_bytes (h5 c) ++
  word_bytes (h6 c) ++ word_bytes (h7 c).

(** [sha256.Sum256] as a byte slice. *)
Definition sum256 (data : list byte) : list byte :=
  let padded := pad (map byte_to_Z data) in
  digest (blocks (length padded / 64)%nat init padded).

Definition Size : nat := 32.

(** The [hash.Hash] returned by [sha256.New()]: what [Write] has absorbed. *)
Record Hash := { written : list byte }.

Definition New : Hash := {| written := [] |}.
Definition Write (h : Hash) (p : list byte) : Hash :=
  {| written := written h ++ p |}.
(** [h.Sum(b)] appends the digest of the bytes written so far to [b]. *)
Definition Sum (h : Hash) (b : list byte) : list byte :=
  b ++ sum256 (written h).

End SHA256.


(** ** Errors

    Every [fmt.Errorf] of the package is one constructor, named after its
    message; a wrapped error ([%v] of an [err]) is an argument. *)
Inductive error : Type :=
| ErrNewClient (cause : string)            (* 無法創建 drand 客戶端: %v *)
| ErrInitialBeacon (cause : error)         (* 無法獲取初始隨機信標: %v *)
| ErrFetchLatest (cause : string)          (* 無法獲取最新隨機信標: %v *)
| ErrNoBeacon                              (* 尚未獲取任何隨機信標 *)
| ErrFetchRound (round : N) (cause : string) (* 無法獲取輪次 %d 的隨機信標: %v *)
| ErrInitManager (cause : error)           (* 無法初始化 DrandManager: %v *)
| ErrLatestRandomness (cause : error)      (* 無法獲取最新隨機性: %v *)
| ErrRoundRandomness (round : N) (cause : error) (* 無法獲取輪次 %d 的隨機性: %v *)
| ErrInvalidCardString (s : string)        (* 無效的牌字符串: %s *)
| ErrInvalidSuit (s : string)              (* 無效的花色: %s *)
| ErrInvalidValue (value : string).        (* 無效的點數: %s *)

(** A Go result [(v, err)]: either the value with a [nil] error, or an error. *)
Inductive result (A : Type) : Type :=
| Ok (v : A)
| Err (e : error).
Arguments Ok {A} v.
Arguments Err {A} e.

(** ** drand_manager.go *)

(** [client.Result]: a beacon with its round and its randomness. *)
Record Result := { GetRound : N; GetRandomness : list byte }.

(** What one call [dm.client.Get(ctx, round)] answers: a beacon, or the
    cause of a failure (time-out, network error).  The network is not part of
    the package: each operation that calls it takes its answer as an
    argument. *)
Definition response : Type := Result + string.

(** The drand client, of which the manager only sees whether it is closed. *)
Record Client := { closed : bool }.

Record DrandManager := {
  client : option Client;          (* [nil] until [initialize] creates it *)
  latestBeacon : option Result;    (* [nil] until a first beacon is fetched *)
  beaconCache : gmap N Result;
  isRunning : bool }.

Definition maxCacheSize : nat := 100.

(** The cleaning of [fetchLatestBeacon]: the rounds of the cache are
    collected and sorted, and the [len - maxCacheSize] smallest are deleted. *)
Definition cleanCache (cache : gmap N Result) : gmap N Result :=
  if (maxCacheSize <? size cache)%nat then
    let rounds := merge_sort N.le (map fst (map_to_list cache)) in
    let deleteCount := (size cache - maxCacheSize)%nat in
    fold_left (fun m r => delete r m) (firstn deleteCount rounds) cache
  else cache.

(** [fetchLatestBeacon], on the answer [resp] of [dm.client.Get(ctx, 0)].
    Calling [Get] on a [nil] client panics. *)
Definition fetchLatestBeacon (dm : DrandManager) (resp : response)
  : option (option error * DrandManager) :=
  match client dm with
  | None => None
  | Some _ =>
      match resp with
      | inr cause => Some (Some (ErrFetchLatest cause), dm)
      | inl result =>
          let stale :=
            match latestBeacon dm with
            | Some lb => (GetRound result <=? GetRound lb)%N
            | None => false
            end in
          if stale then Some (None, dm)
          else
            let cache := <[GetRound result := result]> (beaconCache dm) in
            Some (None, {| client := client dm;
                           latestBeacon := Some result;
                           beaconCache := cleanCache cache;
                           isRunning := isRunning dm |})
      end
  end.

Definition GetLatestRandomness (dm : DrandManager) : result (list byte * N) :=
  match latestBeacon dm with
  | None => Err ErrNoBeacon
  | Some lb => Ok (GetRandomness lb, GetRound lb)
  end.

(** [GetRandomnessByRound]; [resp] is the answer of [dm.client.Get(ctx, round)],
    which is only asked when the round is not cached.  The function takes
    [dm.mutex] twice, for the lookup (l.188-196) and for the store
    (l.208-210), and asks the network in between with the mutex released:
    this definition is a call during which no other goroutine stores.  Calls
    that overlap are followed through their two critical sections by the
    events [Lookup] and [Fetched] of [exec] below. *)
Definition GetRandomnessByRound (dm : DrandManager) (round : N) (resp : response)
  : option (result (list byte) * DrandManager) :=
  match beaconCache dm !! round with
  | Some beacon => Some (Ok (GetRandomness beacon), dm)
  | None =>
      match client dm with
      | None => None
      | Some _ =>
          match resp with
          | inr cause => Some (Err (ErrFetchRound round cause), dm)
          | inl result =>
              Some (Ok (GetRandomness result),
                    {| client := client dm;
                       latestBeacon := latestBeacon dm;
                       beaconCache := <[round := result]> (beaconCache dm);
                       isRunning := isRunning dm |})
          end
      end
  end.

(** [StartBackgroundFetching] raises the flag; the goroutine it starts calls
    [fetchLatestBeacon] at every tick (see [Tick] and [TickerC] below). *)
Definition StartBackgroundFetching (dm : DrandManager) : DrandManager :=
  if isRunning dm then dm
  else {| client := client dm; latestBeacon := latestBeacon dm;
          beaconCache := beaconCache dm; isRunning := true |}.

(** How a call that waits for another goroutine ends. *)
Inductive outcome (A : Type) : Type :=
| Returns (a : A)   (* the call returns *)
| Panics            (* a nil pointer dereference ends the program *)
| Blocks.           (* the call never returns and never releases [dm.mutex] *)
Arguments Returns {A} a.
Arguments Panics {A}.
Arguments Blocks {A}.

(** The send [dm.stopChan <- struct{}{}] of [StopBackgroundFetching] (l.120),
    which is made with [dm.mutex] held.  [stopChan] has no buffer: the send
    completes when the goroutine of [StartBackgroundFetching] takes
    [case <-dm.stopChan] at its [select] (l.102).  Until it does, the
    goroutine finishes the call of [fetchLatestBeacon] that it is in, if any,
    and may take [case <-ticker.C] again; [pending] holds the answers of the
    calls of [Get] that it completes on the way, in order.  After an error
    [fetchLatestBeacon] returns at l.132 without the mutex, and the goroutine
    is back at its [select]; after a beacon it calls [dm.mutex.Lock()]
    (l.135), where it waits for the mutex that the sender keeps until the
    send completes: neither of the two goes on.  [Get] on a [nil] client
    panics. *)
Fixpoint send (c : option Client) (pending : list response) : outcome unit :=
  match pending with
  | [] => Returns tt
  | resp :: rest =>
      match c with
      | None => Panics
      | Some _ =>
          match resp with
          | inr _ => send c rest
          | inl _ => Blocks
          end
      end
  end.

(** [StopBackgroundFetching], for a manager whose goroutine exists when
    [isRunning] is set (the flag is raised at l.86, before the goroutine is
    started at l.89, and lowered at l.121, after it has taken the signal;
    [exec] below counts the goroutines). *)
Definition StopBackgroundFetching (dm : DrandManager) (pending : list response)
  : outcome DrandManager :=
  if negb (isRunning dm) then Returns dm
  else
    match send (client dm) pending with
    | Returns _ =>
        Returns {| client := client dm; latestBeacon := latestBeacon dm;
                   beaconCache := beaconCache dm; isRunning := false |}
    | Panics => Panics
    | Blocks => Blocks
    end.

(** [Close]; [dm.isRunning] is read without the mutex. *)
Definition Close (dm : DrandManager) (pending : list response)
  : outcome DrandManager :=
  match (if isRunning dm then StopBackgroundFetching dm pending else Returns dm) with
  | Returns dm =>
      Returns match client dm with
              | Some _ => {| client := Some {| closed := true |};
                             latestBeacon := latestBeacon dm;
                             beaconCache := beaconCache dm;
                             isRunning := isRunning dm |}
              | None => dm
              end
  | Panics => Panics
  | Blocks => Blocks
  end.

(** The singleton: [instance] and [once]. *)
Record Globals := { instance : option DrandManager; once : bool }.

Definition start : Globals := {| instance := None; once := false |}.

(** The network as [initialize] meets it: the outcome of [client.New] and the
    answer to the first [Get(ctx, 0)]. *)
Record InitNet := { net_New : Client + string; net_first : response }.

(** [initialize]; decoding the constant chain hash cannot fail. *)
Definition initialize (dm : DrandManager) (net : InitNet)
  : option (option error * DrandManager) :=
  match net_New net with
  | inr cause =>
      Some (Some (ErrNewClient cause),
            {| client := None; latestBeacon := latestBeacon dm;
               beaconCache := beaconCache dm; isRunning := isRunning dm |})
  | inl c =>
      let dm := {| client := Some c; latestBeacon := latestBeacon dm;
                   beaconCache := beaconCache dm; isRunning := isRunning dm |} in
      match fetchLatestBeacon dm (net_first net) with
      | None => None
      | Some (Some e, dm) => Some (Some (ErrInitialBeacon e), dm)
      | Some (None, dm) => Some (None, dm)
      end
  end.

(** [GetDrandManager]: the first call creates and initializes the instance and
    reports the error of [initialize]; later calls return the instance with a
    [nil] error.  The pointer it returns is [instance] of the new globals. *)
Definition GetDrandManager (g : Globals) (net : InitNet)
  : option (option error * Globals) :=
  if once g then Some (None, g)
  else
    let fresh_dm := {| client := None; latestBeacon := None;
                       beaconCache := ∅; isRunning := false |} in
    match initialize fresh_dm net with
    | None => None
    | Some (initErr, dm) => Some (initErr, {| instance := Some dm; once := true |})
    end.

(** The operations that reach the cache of a running manager, with the
    answers of the network: a tick of the background loop, a request by round,
    and the calls without network.  [Tick] is a call of [fetchLatestBeacon],
    by [initialize] or by the goroutine; [Stop] and [Shutdown] are calls of
    [StopBackgroundFetching] and [Close] that return, the goroutine taking
    the signal from its [select].  [step] does not ask who calls: [run]
    follows the manager through every sequence of these calls, those that the
    program cannot perform included (a [Tick] when no goroutine is left);
    the goroutines are counted by [exec] below. *)
Inductive op : Type :=
| Tick (resp : response)
| ByRound (round : N) (resp : response)
| Latest
| Start
| Stop
| Shutdown.

(** The manager that a call leaves when it returns. *)
Definition returned {A} (o : outcome A) : option A :=
  match o with
  | Returns a => Some a
  | Panics | Blocks => None
  end.

Definition step (dm : DrandManager) (o : op) : option DrandManager :=
  match o with
  | Tick resp => snd <$> fetchLatestBeacon dm resp
  | ByRound round resp => snd <$> GetRandomnessByRound dm round resp
  | Latest => Some dm
  | Start => Some (StartBackgroundFetching dm)
  | Stop => returned (StopBackgroundFetching dm [])
  | Shutdown => returned (Close dm [])
  end.

Fixpoint run (dm : DrandManager) (ops : list op) : option DrandManager :=
  match ops with
  | [] => Some dm
  | o :: rest =>
      match step dm o with
      | Some dm' => run dm' rest
      | None => None
      end
  end.

(** A manager whose client exists and which has fetched nothing yet. *)
Definition connected : DrandManager :=
  {| client := Some {| closed := false |}; latestBeacon := None;
     beaconCache := ∅; isRunning := false |}.

(** ** The manager, its goroutine and the calls that overlap

    The goroutine of [StartBackgroundFetching] and the callers of the manager
    run side by side.  A process is the manager with the goroutines of l.89
    that have not returned and the calls of [GetRandomnessByRound] that have
    left their lookup and not yet stored. *)
Record Process := {
  manager : DrandManager;
  goroutines : nat;     (* goroutines of l.89-106 that have not returned *)
  fetching : list N }.  (* rounds of the calls that stand between l.196 and l.208 *)

(** The store of [GetRandomnessByRound] (l.208-210), which does not look at
    what the cache holds for the round. *)
Definition storeRound (dm : DrandManager) (round : N) (result : Result)
  : DrandManager :=
  {| client := client dm; latestBeacon := latestBeacon dm;
     beaconCache := <[round := result]> (beaconCache dm);
     isRunning := isRunning dm |}.

(** One of the calls for [round] leaves the calls in flight. *)
Fixpoint finish (round : N) (rounds : list N) : list N :=
  match rounds with
  | [] => []
  | r :: rest => if (r =? round)%N then rest else r :: finish round rest
  end.

(** What takes place in a process, each event under [dm.mutex] where the
    code takes it. *)
Inductive event : Type :=
| TickerC (resp : response)            (* the goroutine takes [case <-ticker.C] (l.95-101) *)
| CallLatest                           (* [GetLatestRandomness] *)
| Lookup (round : N)                   (* l.188-196 of [GetRandomnessByRound] *)
| Fetched (round : N) (resp : response) (* l.202-212 of a call whose lookup missed *)
| CallStart                            (* [StartBackgroundFetching] *)
| CallStop (pending : list response)   (* [StopBackgroundFetching] *)
| CallClose (pending : list response). (* [Close] *)

Inductive effect : Type :=
| Next (p : Process)   (* the event takes place and leaves [p] *)
| Never                (* it cannot take place: no goroutine, no such call in flight *)
| Crash                (* a panic ends the program *)
| Hang.                (* the caller waits forever with [dm.mutex]: no later call
                          that takes the mutex returns *)

(** The end of a call that stops the loop.  The signal is taken by one
    goroutine, which returns; with the flag set and no goroutine nobody
    takes it. *)
Definition stopped (p : Process) (o : outcome DrandManager) : effect :=
  if isRunning (manager p) && (goroutines p =? 0)%nat then Hang
  else
    match o with
    | Returns dm =>
        Next {| manager := dm;
                goroutines := if isRunning (manager p) then pred (goroutines p)
                              else goroutines p;
                fetching := fetching p |}
    | Panics => Crash
    | Blocks => Hang
    end.

Definition exec (p : Process) (e : event) : effect :=
  match e with
  | TickerC resp =>
      if (goroutines p =? 0)%nat then Never
      else
        match fetchLatestBeacon (manager p) resp with
        | None => Crash
        | Some (_, dm) =>
            Next {| manager := dm; goroutines := goroutines p; fetching := fetching p |}
        end
  | CallLatest => Next p
  | Lookup round =>
      match beaconCache (manager p) !! round with
      | Some _ => Next p
      | None =>
          match client (manager p) with
          | None => Crash
          | Some _ =>
              Next {| manager := manager p; goroutines := goroutines p;
                      fetching := round :: fetching p |}
          end
      end
  | Fetched round resp =>
      if bool_decide (round ∈ fetching p) then
        Next {| manager := match resp with
                           | inr _ => manager p
                           | inl result => storeRound (manager p) round result
                           end;
                goroutines := goroutines p;
                fetching := finish round (fetching p) |}
      else Never
  | CallStart =>
      Next {| manager := StartBackgroundFetching (manager p);
              goroutines := if isRunning (manager p) then goroutines p
                            else S (goroutines p);
              fetching := fetching p |}
  | CallStop pending => stopped p (StopBackgroundFetching (manager p) pending)
  | CallClose pending => stopped p (Close (manager p) pending)
  end.

Fixpoint execs (p : Process) (trace : list event) : effect :=
  match trace with
  | [] => Next p
  | e :: rest =>
      match exec p e with
      | Next p' => execs p' rest
      | other => other
      end
  end.

(** The process in which a manager is handed out by [GetDrandManager]: no
    goroutine and no call yet. *)
Definition boot (dm : DrandManager) : Process :=
  {| manager := dm; goroutines := 0; fetching := [] |}.

(** The flag [isRunning] counts the goroutines. *)
Definition steady (p : Process) : Prop :=
  goroutines p = if isRunning (manager p) then 1%nat else 0%nat.

(** The event starts a goroutine when none runs. *)
Definition starts (e : event) : bool :=
  match e with
  | CallStart => true
  | _ => false
  end.

(** The event is a turn of the loop that brings a beacon. *)
Definition delivers (e : event) : bool :=
  match e with
  | TickerC (inl _) => true
  | _ => false
  end.

(** The answer of a [Get] is an error. *)
Definition failed (resp : response) : Prop := ∃ cause : string, resp = inr cause.

(** ** shuffle.go *)

Record Card := { Suit : string; Value : string }.

#[global] Instance Card_eq_dec : EqDecision Card.
Proof. solve_decision. Defined.

Definition suits : list string := ["黑桃"; "紅心"; "方塊"; "梅花"]%string.

Definition values : list string :=
  ["A"; "2"; "3"; "4"; "5"; "6"; "7"; "8"; "9"; "10"; "J"; "Q"; "K"]%string.

(** The two nested loops of [initializeDeck], appending card after card. *)
Definition initializeDeck : list Card :=
  fold_left
    (fun deck suit =>
       fold_left (fun deck value => deck ++ [{| Suit := suit; Value := value |}])
                 values deck)
    suits [].

(** The helper [max] of the package, on [int]. *)
Definition max (a b : Z) : Z := if a >? b then a else b.

(** [make([]Card, n)]: [n] zero cards. *)
Definition make (n : nat) : list Card := repeat {| Suit := EmptyString; Value := EmptyString |} n.

(** [copy(dst, src)]: the first [min(len(dst), len(src))] elements of [src]
    overwrite those of [dst]. *)
Definition copy (dst src : list Card) : list Card :=
  let n := Nat.min (length dst) (length src) in
  firstn n src ++ skipn n dst.

(** The slice expression [s[lo:hi]], which panics unless
    [0 <= lo <= hi <= len(s)] (a bound up to the capacity would also pass in
    Go; the length is the stricter limit). *)
Definition slice (s : list byte) (lo hi : Z) : option (list byte) :=
  if (0 <=? lo) && (lo <=? hi) && (hi <=? Z.of_nat (length s))
  then Some (firstn (Z.to_nat (hi - lo)) (skipn (Z.to_nat lo) s))
  else None.

(** [binary.BigEndian.Uint64(b)], which panics when [len(b) < 8]. *)
Definition Uint64 (b : list byte) : option Z :=
  if (length b <? 8)%nat then None
  else Some (fold_left (fun acc x => acc * 256 + byte_to_Z x) (firstn 8 b) 0).

(** The randomness after the test [len(randomness) < 8] of [shuffleDeck]. *)
Definition enoughRandomness (randomness : list byte) : list byte :=
  if (length randomness <? 8)%nat
  then SHA256.Sum (SHA256.Write SHA256.New randomness) []
  else randomness.

(** [pos := i % max(1, len(randomness)-8)]; Go's [%] truncates as [Z.rem]. *)
Definition position (i : Z) (randomness : list byte) : Z :=
  Z.rem i (max 1 (Z.of_nat (length randomness) - 8)).

(** [j := int(binary.BigEndian.Uint64(randomness[pos:pos+8]) % uint64(i+1))]. *)
Definition randomIndex (i : Z) (randomness : list byte) : option Z :=
  let pos := position i randomness in
  match slice randomness pos (pos + 8) with
  | None => None
  | Some b =>
      match Uint64 b with
      | None => None
      | Some u => Some (u mod (i + 1))
      end
  end.

(** [s[i], s[j] = s[j], s[i]]: both elements are read, then [s[i]] and
    [s[j]] are written; an index out of range panics. *)
Definition swap (s : list Card) (i j : Z) : option (list Card) :=
  if (0 <=? i) && (0 <=? j) then
    match s !! Z.to_nat j, s !! Z.to_nat i with
    | Some cj, Some ci => Some (<[Z.to_nat j := ci]> (<[Z.to_nat i := cj]> s))
    | _, _ => None
    end
  else None.

(** The loop [for i := ...; i > 0; i--] with [n] iterations left to run
    before [i] reaches [0]: the current index is [i = n]. *)
Fixpoint shuffleLoop (n : nat) (shuffled : list Card) (randomness : list byte)
  : option (list Card) :=
  match n with
  | O => Some shuffled
  | S n' =>
      let i := Z.of_nat n in
      match randomIndex i randomness with
      | None => None
      | Some j =>
          match swap shuffled i j with
          | None => None
          | Some shuffled' => shuffleLoop n' shuffled' randomness
          end
      end
  end.

(** [shuffleDeck] on the values of the slices.  The loop starts at
    [len(shuffled) - 1] and runs while [i > 0]: [Z.to_nat] of that start is the
    number of iterations, none for an empty deck. *)
Definition shuffleDeck (deck : list Card) (randomness : list byte)
  : option (list Card) :=
  let shuffled := copy (make (length deck)) deck in
  let randomness := enoughRandomness randomness in
  shuffleLoop (Z.to_nat (Z.of_nat (length shuffled) - 1)) shuffled randomness.

(** The randomness of a game: the hasher absorbs the beacon randomness, then
    the session identifier, and [Sum(randomness)] appends the digest to the
    beacon randomness. *)
Definition extendedRandomness (randomness : list byte) (gameSessionID : string)
  : list byte :=
  let hasher := SHA256.New in
  let hasher := SHA256.Write hasher randomness in
  let hasher := SHA256.Write hasher (bytes_of_string gameSessionID) in
  SHA256.Sum hasher randomness.

(** [GetShuffledDeck]: the deck and the round of the latest beacon. *)
Definition GetShuffledDeck (g : Globals) (net : InitNet) (gameSessionID : string)
  : option (result (list Card * N) * Globals) :=
  match GetDrandManager g net with
  | None => None
  | Some (Some e, g) => Some (Err (ErrInitManager e), g)
  | Some (None, g) =>
      match instance g with
      | None => None
      | Some drandManager =>
          match GetLatestRandomness drandManager with
          | Err e => Some (Err (ErrLatestRandomness e), g)
          | Ok (randomness, round) =>
              let deck := initializeDeck in
              match shuffleDeck deck (extendedRandomness randomness gameSessionID) with
              | None => None
              | Some shuffledDeck => Some (Ok (shuffledDeck, round), g)
              end
          end
      end
  end.

(** [GetShuffledDeckByRound]; [resp] answers the fetch of a round that is not
    cached. *)
Definition GetShuffledDeckByRound (g : Globals) (net : InitNet) (resp : response)
    (round : N) (gameSessionID : string)
  : option (result (list Card) * Globals) :=
  match GetDrandManager g net with
  | None => None
  | Some (Some e, g) => Some (Err (ErrInitManager e), g)
  | Some (None, g) =>
      match instance g with
      | None => None
      | Some drandManager =>
          match GetRandomnessByRound drandManager round resp with
          | None => None
          | Some (r, drandManager) =>
              let g := {| instance := Some drandManager; once := once g |} in
              match r with
              | Err e => Some (Err (ErrRoundRandomness round e), g)
              | Ok randomness =>
                  let deck := initializeDeck in
                  match shuffleDeck deck (extendedRandomness randomness gameSessionID) with
                  | None => None
                  | Some shuffledDeck => Some (Ok shuffledDeck, g)
                  end
              end
          end
      end
  end.

Definition CardToString (card : Card) : string := (Suit card ++ Value card)%string.

(** [s[n:]] for [n <= len(s)]. *)
Fixpoint string_from (n : nat) (s : string) : string :=
  match n, s with
  | O, _ => s
  | S n', String _ rest => string_from n' rest
  | S _, EmptyString => EmptyString
  end.

(** The loop over [validSuits] with its [break]: the first suit that is a
    prefix of [s], with the rest of [s]; two empty strings when none is. *)
Fixpoint matchSuit (validSuits : list string) (s : string) : string * string :=
  match validSuits with
  | [] => (EmptyString, EmptyString)
  | validSuit :: rest =>
      if String.prefix validSuit s
      then (validSuit, string_from (String.length validSuit) s)
      else matchSuit rest s
  end.

Definition validValues : gmap string bool :=
  list_to_map (map (fun v => (v, true)) values).

Definition StringToCard (s : string) : result Card :=
  if (String.length s <? 3)%nat then Err (ErrInvalidCardString s)
  else
    let '(suit, value) := matchSuit suits s in
    if String.eqb suit EmptyString then Err (ErrInvalidSuit s)
    else if negb (default false (validValues !! value)) then Err (ErrInvalidValue value)
    else Ok {| Suit := suit; Value := value |}.

(** ** The shuffle in memory

    Go slices are views of arrays that live in a store, and [shuffleDeck]
    writes through one of them.  Here a store maps the address of an array to
    its cards, a slice is an address with an offset and a length, and each
    statement of [shuffleDeck] reads and writes the store as the Go statement
    does. *)
Module Mem.

Definition loc : Type := positive.

Record Slice := { array : loc; offset : nat; len : nat }.

(** The cards a slice shows, when it lies within its array. *)
Definition load (h : gmap loc (list Card)) (s : Slice) : option (list Card) :=
  a ← h !! array s;
  if (offset s + len s <=? length a)%nat
  then Some (firstn (len s) (skipn (offset s) a))
  else None.

(** [make([]Card, n)] allocates a new array at an unused address. *)
Definition make (h : gmap loc (list Card)) (n : nat) : Slice * gmap loc (list Card) :=
  let p := fresh (dom h) in
  ({| array := p; offset := 0; len := n |}, <[p := repeat {| Suit := EmptyString; Value := EmptyString |} n]> h).

(** [copy(dst, src)] writes the first [min(len(dst), len(src))] cards of
    [src] into the array of [dst]. *)
Definition copy (h : gmap loc (list Card)) (dst src : Slice) : option (gmap loc (list Card)) :=
  from ← load h src;
  a ← h !! array dst;
  let n := Nat.min (len dst) (len src) in
  if (offset dst + len dst <=? length a)%nat
  then Some (<[array dst :=
                 firstn (offset dst) a ++ firstn n from ++ skipn (offset dst + n) a]> h)
  else None.

(** [s[i], s[j] = s[j], s[i]] through the slice [s]. *)
Definition swap (h : gmap loc (list Card)) (s : Slice) (i j : Z) : option (gmap loc (list Card)) :=
  if (0 <=? i) && (i <? Z.of_nat (len s)) && (0 <=? j) && (j <? Z.of_nat (len s)) then
    a ← h !! array s;
    cj ← a !! (offset s + Z.to_nat j)%nat;
    ci ← a !! (offset s + Z.to_nat i)%nat;
    Some (<[array s := <[(offset s + Z.to_nat j)%nat := ci]>
                         (<[(offset s + Z.to_nat i)%nat := cj]> a)]> h)
  else None.

Fixpoint shuffleLoop (n : nat) (h : gmap loc (list Card)) (shuffled : Slice)
    (randomness : list byte) : option (gmap loc (list Card)) :=
  match n with
  | O => Some h
  | S n' =>
      let i := Z.of_nat n in
      j ← randomIndex i randomness;
      h' ← swap h shuffled i j;
      shuffleLoop n' h' shuffled randomness
  end.

Definition shuffleDeck (h : gmap loc (list Card)) (deck : Slice) (randomness : list byte)
  : option (Slice * gmap loc (list Card)) :=
  let '(shuffled, h) := make h (len deck) in
  h ← copy h shuffled deck;
  let randomness := enoughRandomness randomness in
  h ← shuffleLoop (Z.to_nat (Z.of_nat (len shuffled) - 1)) h shuffled randomness;
  Some (shuffled, h).

End Mem.

(** ** Observations and sample values *)

(** The randomness the cache of the instance holds for a round. *)
Definition cachedRandomness (g : Globals) (round : N) : option (list byte) :=
  dm ← instance g; GetRandomness <$> beaconCache dm !! round.

(** No name of [suits] is a prefix of [s]. *)
Definition noSuitMatches (s : string) : Prop :=
  ∀ suit, In suit suits → String.prefix suit s = false.

(** [latestBeacon], when there is one, is the record of the cache with the
    greatest round. *)
Definition latestIsGreatest (dm : DrandManager) : Prop :=
  ∀ lb, latestBeacon dm = Some lb →
    beaconCache dm !! GetRound lb = Some lb ∧
    ∀ round beacon, beaconCache dm !! round = Some beacon → (round <= GetRound lb)%N.

(** The beacons that the ticks of a run delivered, in order. *)
Fixpoint delivered (ops : list op) : list Result :=
  match ops with
  | [] => []
  | Tick (inl beacon) :: rest => beacon :: delivered rest
  | _ :: rest => delivered rest
  end.

(** A beacon for the examples: its randomness is the digest of its round. *)
Definition sampleBeacon (round : N) : Result :=
  {| GetRound := round;
     GetRandomness := SHA256.sum256 [byte_of_Z (Z.of_N round)] |}.

Definition sampleManager : DrandManager :=
  {| client := Some {| closed := false |};
     latestBeacon := Some (sampleBeacon 7);
     beaconCache := {[ 7%N := sampleBeacon 7 ]};
     isRunning := true |}.

(** The sample manager with its goroutine at the [select]. *)
Definition sampleProcess : Process :=
  {| manager := sampleManager; goroutines := 1; fetching := [] |}.

Definition sampleGlobals : Globals :=
  {| instance := Some sampleManager; once := true |}.

Definition offline : InitNet :=
  {| net_New := inr "offline"%string; net_first := inr "offline"%string |}.

Definition sampleStore : gmap Mem.loc (list Card) := {[ 1%positive := initializeDeck ]}.

Definition sampleDeck : Mem.Slice :=
  {| Mem.array := 1%positive; Mem.offset := 0; Mem.len := 52 |}.

Definition hex_of_bytes (bs : list byte) : list Z := map byte_to_Z bs.

(** The rounds that [cleanCache] deletes from a cache. *)
Definition evicted (cache : gmap N Result) : list N :=
  firstn (size cache - maxCacheSize) (merge_sort N.le (map fst (map_to_list cache))).

(** The latest beacon after one more delivery, as the test of
    [fetchLatestBeacon] keeps or replaces it. *)
Definition newer (latest : option Result) (beacon : Result) : option Result :=
  match latest with
  | Some lb => if (GetRound beacon <=? GetRound lb)%N then Some lb else Some beacon
  | None => Some beacon
  end.

(** Requests by round for the rounds [1 .. n], each answered by the network. *)
Definition requests (n : nat) : list op :=
  map (fun k => ByRound (N.of_nat k) (inl (sampleBeacon (N.of_nat k)))) (seq 1 n).

(** A tick that delivers round 5, then a request for round 10. *)
Definition outOfOrder : list op :=
  [Tick (inl (sampleBeacon 5)); ByRound 10 (inl (sampleBeacon 10))].

(** What the refresh path maintains when it is the only writer. *)
Definition refreshed (dm : DrandManager) : Prop :=
  client dm ≠ None ∧ latestIsGreatest dm ∧
  (latestBeacon dm = None → beaconCache dm = ∅).

(** ** cmd/examples/texas_holdem.go

    The example program deals a game of Texas hold'em from a shuffled deck.
    Its errors are its own [fmt.Errorf] values, which wrap those of the
    package. *)
Module Holdem.

Inductive game_error : Type :=
| ErrPlayers                               (* 玩家數量必須在2到10之間 *)
| ErrShuffledDeck (cause : error)          (* 無法獲取洗牌後的牌組: %v *)
| ErrShortDeck (requiredCards have : Z).   (* 牌組長度不足，需要 %d 張牌，但只有 %d 張 *)

Record TexasHoldemGame := {
  PlayerHands : gmap Z (list Card);
  CommunityCards : list Card;
  Round : N;
  GameSessionID : string }.

(** The slice expression [s[lo:hi]] on cards; out of the bounds it panics. *)
Definition cards (s : list Card) (lo hi : Z) : option (list Card) :=
  if (0 <=? lo) && (lo <=? hi) && (hi <=? Z.of_nat (length s))
  then Some (firstn (Z.to_nat (hi - lo)) (skipn (Z.to_nat lo) s))
  else None.

(** The loop [for player := 0; player < numPlayers; player++] with [n]
    iterations left: each player receives [shuffledDeck[cardIndex:cardIndex+2]].
    It returns the hands and the index of the next card. *)
Fixpoint dealHands (n : nat) (player cardIndex : Z) (shuffledDeck : list Card)
    (hands : gmap Z (list Card)) : option (gmap Z (list Card) * Z) :=
  match n with
  | O => Some (hands, cardIndex)
  | S n' =>
      match cards shuffledDeck cardIndex (cardIndex + 2) with
      | None => None
      | Some hand =>
          dealHands n' (player + 1) (cardIndex + 2) shuffledDeck (<[player := hand]> hands)
      end
  end.

(** The deck of a new game and the round it comes from: by round when
    [round > 0], from the latest beacon otherwise. *)
Definition shuffledFor (g : Globals) (net : InitNet) (resp : response) (round : N)
    (gameSessionID : string)
  : option ((list Card * N + game_error) * Globals) :=
  if (0 <? round)%N then
    match GetShuffledDeckByRound g net resp round gameSessionID with
    | None => None
    | Some (Err e, g) => Some (inr (ErrShuffledDeck e), g)
    | Some (Ok shuffledDeck, g) => Some (inl (shuffledDeck, round), g)
    end
  else
    match GetShuffledDeck g net gameSessionID with
    | None => None
    | Some (Err e, g) => Some (inr (ErrShuffledDeck e), g)
    | Some (Ok (shuffledDeck, newRound), g) => Some (inl (shuffledDeck, newRound), g)
    end.

Definition NewTexasHoldemGame (g : Globals) (net : InitNet) (resp : response)
    (numPlayers : Z) (round : N) (gameSessionID : string)
  : option ((TexasHoldemGame + game_error) * Globals) :=
  if (numPlayers <? 2) || (numPlayers >? 10) then Some (inr ErrPlayers, g)
  else
    match shuffledFor g net resp round gameSessionID with
    | None => None
    | Some (inr e, g) => Some (inr e, g)
    | Some (inl (shuffledDeck, newRound), g) =>
        let requiredCards := numPlayers * 2 + 5 in
        if Z.of_nat (length shuffledDeck) <? requiredCards
        then Some (inr (ErrShortDeck requiredCards (Z.of_nat (length shuffledDeck))), g)
        else
          match dealHands (Z.to_nat numPlayers) 0 0 shuffledDeck ∅ with
          | None => None
          | Some (hands, cardIndex) =>
              match cards shuffledDeck cardIndex (cardIndex + 5) with
              | None => None
              | Some community =>
                  Some (inl {| PlayerHands := hands;
                               CommunityCards := community;
                               Round := newRound;
                               GameSessionID := gameSessionID |}, g)
              end
          end
    end.

(** The cards on the table of a game: the hands of the players in order,
    then the community cards. *)
Definition dealt (numPlayers : nat) (game : TexasHoldemGame) : list Card :=
  flat_map (fun player => default [] (PlayerHands game !! Z.of_nat player))
           (seq 0 numPlayers)
  ++ CommunityCards game.

End Holdem.

(** ** tests/standalone/deck_test.go

    The test package has its own [ShuffleDeck], which draws each index from
    one byte of the randomness. *)
Module Standalone.

(** [j := int(randomness[i%len(randomness)]) % (i + 1)]: the remainder by
    an empty length and the index out of range panic. *)
Definition randomIndex (i : Z) (randomness : list byte) : option Z :=
  let n := Z.of_nat (length randomness) in
  if n =? 0 then None
  else
    let k := Z.rem i n in
    if 0 <=? k then
      match randomness !! Z.to_nat k with
      | Some b => Some (Z.rem (byte_to_Z b) (i + 1))
      | None => None
      end
    else None.

Fixpoint shuffleLoop (n : nat) (shuffled : list Card) (randomness : list byte)
  : option (list Card) :=
  match n with
  | O => Some shuffled
  | S n' =>
      let i := Z.of_nat n in
      match randomIndex i randomness with
      | None => None
      | Some j =>
          match swap shuffled i j with
          | None => None
          | Some shuffled' => shuffleLoop n' shuffled' randomness
          end
      end
  end.

Definition ShuffleDeck (deck : list Card) (randomness : list byte)
  : option (list Card) :=
  let shuffled := copy (make (length deck)) deck in
  let randomness := enoughRandomness randomness in
  shuffleLoop (Z.to_nat (Z.of_nat (length shuffled) - 1)) shuffled randomness.

End Standalone.

(** ** More observations *)

(** The beacons that a sequence of ticks stores: each one whose round is
    greater than the round of the latest beacon before it. *)
Fixpoint accepted (latest : option Result) (resps : list response) : list Result :=
  match resps with
  | [] => []
  | inr _ :: rest => accepted latest rest
  | inl beacon :: rest =>
      match latest with
      | Some lb =>
          if (GetRound beacon <=? GetRound lb)%N then accepted latest rest
          else beacon :: accepted (Some beacon) rest
      | None => beacon :: accepted (Some beacon) rest
      end
  end.

(** The last [n] elements of a list. *)
Definition lastn {A} (n : nat) (l : list A) : list A := skipn (length l - n) l.

(** The cache that holds the given beacons, each under its round. *)
Definition cacheOf (beacons : list Result) : gmap N Result :=
  list_to_map (map (fun b => (GetRound b, b)) beacons).

(** A sequence of events in which no turn of the loop brings a beacon. *)
Definition quiet (trace : list event) : Prop :=
  Forall (fun e => delivers e = false) trace.

(** Two calls of [GetRandomnessByRound] for one round that overlap: both
    lookups miss before either call stores. *)
Definition overlapping (round : N) (first second : Result) : list event :=
  [Lookup round; Lookup round; Fetched round (inl first); Fetched round (inl second)].

(** The globals of a process whose manager is [dm]. *)
Definition running (dm : DrandManager) : Globals :=
  {| instance := Some dm; once := true |}.

(** The latest beacon, when there is one, is cached under its round. *)
Definition latestIsCached (dm : DrandManager) : Prop :=
  ∀ lb, latestBeacon dm = Some lb → beaconCache dm !! GetRound lb = Some lb.

(** The manager after a tick has delivered round 5 and a request has fetched
    round 10: the cache holds a round above the latest beacon. *)
Definition unordered : DrandManager :=
  {| client := Some {| closed := false |};
     latestBeacon := Some (sampleBeacon 5);
     beaconCache := <[10%N := sampleBeacon 10]> {[ 5%N := sampleBeacon 5 ]};
     isRunning := false |}.

(** Beacons in strictly increasing order of their rounds. *)
Definition increasing (beacons : list Result) : Prop :=
  StronglySorted (fun a b => (GetRound a < GetRound b)%N) beacons.

(** A manager whose cache holds the 100 rounds of [requests 100] and which
    has no latest beacon yet. *)
Definition crowded : DrandManager := default connected (run connected (requests 100)).

(** ** The standalone texas_holdem.go

    The standalone example has no manager: each call creates a client, asks
    for one beacon and closes the client.  Its [initializeDeck], [shuffleDeck]
    and [max] are those of the package, word for word. *)
Module Single.

Inductive fetch_error : Type :=
| ErrNewClient (cause : string)              (* 無法創建drand客戶端: %v *)
| ErrLatestBeacon (cause : string)           (* 無法獲取最新隨機信標 (超時或網絡錯誤): %v *)
| ErrRoundBeacon (round : N) (cause : string) (* 無法獲取輪次 %d 的隨機信標 (超時或網絡錯誤): %v *)
| ErrLatestRandomness (cause : fetch_error)  (* 無法獲取最新隨機性: %v *)
| ErrRoundRandomness (round : N) (cause : fetch_error). (* 無法獲取輪次 %d 的隨機性: %v *)

(** [getDrandRandomness(round)], on the outcome [new] of [client.New] and the
    answer [resp] of [drandClient.Get(getCtx, round)]. *)
Definition getDrandRandomness (new : Client + string) (resp : response) (round : N)
  : (list byte * N) + fetch_error :=
  match new with
  | inr cause => inr (ErrNewClient cause)
  | inl _ =>
      match resp with
      | inr cause =>
          if (round =? 0)%N then inr (ErrLatestBeacon cause)
          else inr (ErrRoundBeacon round cause)
      | inl beacon => inl (GetRandomness beacon, GetRound beacon)
      end
  end.

Definition getDrandRandomnessByRound (new : Client + string) (resp : response) (round : N)
  : list byte + fetch_error :=
  match getDrandRandomness new resp round with
  | inl (randomness, _) => inl randomness
  | inr err => inr err
  end.

Definition GetShuffledDeck (new : Client + string) (resp : response)
    (gameSessionID : string) : option ((list Card * N) + fetch_error) :=
  match getDrandRandomness new resp 0 with
  | inr err => Some (inr (ErrLatestRandomness err))
  | inl (randomness, round) =>
      let deck := initializeDeck in
      match shuffleDeck deck (extendedRandomness randomness gameSessionID) with
      | None => None
      | Some shuffledDeck => Some (inl (shuffledDeck, round))
      end
  end.

Definition GetShuffledDeckByRound (new : Client + string) (resp : response)
    (round : N) (gameSessionID : string) : option (list Card + fetch_error) :=
  match getDrandRandomnessByRound new resp round with
  | inr err => Some (inr (ErrRoundRandomness round err))
  | inl randomness =>
      let deck := initializeDeck in
      match shuffleDeck deck (extendedRandomness randomness gameSessionID) with
      | None => None
      | Some shuffledDeck => Some (inl shuffledDeck)
      end
  end.

End Single.

(** * Properties *)

(** ** The digest *)

(** The constants derived from the primes are those of the standard. *)
Example sha256_constants :
  nth 0 SHA256._K 0 = 0x428a2f98 ∧ nth 63 SHA256._K 0 = 0xc67178f2 ∧
  length SHA256._K = 64%nat ∧
  SHA256.h0 SHA256.init = 0x6a09e667 ∧ SHA256.h7 SHA256.init = 0x5be0cd19.
Proof. repeat split; reflexivity. Qed.

(** The model of SHA-256 on the test vectors of the standard. *)
Example sha256_empty :
  hex_of_bytes (SHA256.sum256 []) =
  [0xe3; 0xb0; 0xc4; 0x42; 0x98; 0xfc; 0x1c; 0x14; 0x9a; 0xfb; 0xf4; 0xc8;
   0x99; 0x6f; 0xb9; 0x24; 0x27; 0xae; 0x41; 0xe4; 0x64; 0x9b; 0x93; 0x4c;
   0xa4; 0x95; 0x99; 0x1b; 0x78; 0x52; 0xb8; 0x55].
Proof. vm_compute. reflexivity. Qed.

Example sha256_abc :
  hex_of_bytes (SHA256.sum256 (bytes_of_string "abc")) =
  [0xba; 0x78; 0x16; 0xbf; 0x8f; 0x01; 0xcf; 0xea; 0x41; 0x41; 0x40; 0xde;
   0x5d; 0xae; 0x22; 0x23; 0xb0; 0x03; 0x61; 0xa3; 0x96; 0x17; 0x7a; 0x9c;
   0xb4; 0x10; 0xff; 0x61; 0xf2; 0x00; 0x15; 0xad].
Proof. vm_compute. reflexivity. Qed.

(** A message of 56 bytes needs a second block for its padding. *)
Example sha256_two_blocks :
  hex_of_bytes (SHA256.sum256 (bytes_of_string
    "abcdbcdecdefdefgefghfghighijhijkijkljklmklmnlmnomnopnopq")) =
  [0x24; 0x8d; 0x6a; 0x61; 0xd2; 0x06; 0x38; 0xb8; 0xe5; 0xc0; 0x26; 0x93;
   0x0c; 0x3e; 0x60; 0x39; 0xa3; 0x3c; 0xe4; 0x59; 0x64; 0xff; 0x21; 0x67;
   0xf6; 0xec; 0xed; 0xd4; 0x19; 0xdb; 0x06; 0xc1].
Proof. vm_compute. reflexivity. Qed.

(** Whatever the message, the digest has the eight words of the chain, four
    bytes each. *)
Lemma sum256_length (data : list byte) : length (SHA256.sum256 data) = SHA256.Size.
Proof. reflexivity. Qed.

Lemma Sum_length (h : SHA256.Hash) (b : list byte) :
  length (SHA256.Sum h b) = (length b + SHA256.Size)%nat.
Proof. unfold SHA256.Sum. by rewrite length_app, sum256_length. Qed.

(** ** The shuffle on values *)

Lemma initializeDeck_length : length initializeDeck = 52%nat.
Proof. reflexivity. Qed.

Lemma copy_make (deck : list Card) : copy (make (length deck)) deck = deck.
Proof.
  unfold copy, make. rewrite repeat_length, Nat.min_id.
  rewrite firstn_all, skipn_all2 by (rewrite repeat_length; lia).
  apply app_nil_r.
Qed.

Lemma enoughRandomness_length (randomness : list byte) :
  (8 <= length (enoughRandomness randomness))%nat.
Proof.
  unfold enoughRandomness. destruct (Nat.ltb_spec (length randomness) 8) as [Hlt | Hge].
  - rewrite Sum_length. unfold SHA256.Size. simpl. lia.
  - exact Hge.
Qed.

Lemma enoughRandomness_short (randomness : list byte) :
  (length randomness < 8)%nat →
  enoughRandomness randomness = SHA256.sum256 randomness.
Proof.
  intros Hlt. unfold enoughRandomness.
  destruct (Nat.ltb_spec (length randomness) 8); [reflexivity | lia].
Qed.

Lemma max_spec (a b : Z) : max a b = Z.max a b.
Proof. unfold max. destruct (Z.gtb_spec a b); lia. Qed.

(** Every window [randomness[pos:pos+8]] of the loop lies within the slice. *)
Lemma position_bounds (i : Z) (randomness : list byte) :
  0 <= i → (8 <= length randomness)%nat →
  0 <= position i randomness ∧
  position i randomness + 8 <= Z.of_nat (length randomness).
Proof.
  intros Hi Hlen. unfold position. rewrite max_spec.
  set (m := Z.max 1 (Z.of_nat (length randomness) - 8)).
  assert (Hm : 0 < m) by (unfold m; lia).
  rewrite Z.rem_mod_nonneg by lia.
  pose proof (Z.mod_pos_bound i m Hm) as Hb.
  split; [lia |].
  destruct (Z.max_spec 1 (Z.of_nat (length randomness) - 8)) as [[_ Hmax] | [_ Hmax]];
    fold m in Hmax; lia.
Qed.

Lemma slice_Some (s : list byte) (lo hi : Z) :
  0 <= lo → lo <= hi → hi <= Z.of_nat (length s) →
  ∃ b, slice s lo hi = Some b ∧ length b = Z.to_nat (hi - lo).
Proof.
  intros H0 H1 H2. unfold slice.
  destruct (Z.leb_spec 0 lo); [| lia].
  destruct (Z.leb_spec lo hi); [| lia].
  destruct (Z.leb_spec hi (Z.of_nat (length s))); [| lia].
  simpl. eexists; split; [reflexivity |].
  rewrite length_firstn, length_skipn. lia.
Qed.

Lemma bigEndian_nonneg (bs : list byte) (acc : Z) :
  0 <= acc → 0 <= fold_left (fun acc x => acc * 256 + byte_to_Z x) bs acc.
Proof.
  revert acc. induction bs as [| b bs IH]; intros acc Hacc; simpl; [exact Hacc |].
  apply IH. unfold byte_to_Z. lia.
Qed.

Lemma Uint64_Some (b : list byte) :
  (8 <= length b)%nat → ∃ u, Uint64 b = Some u ∧ 0 <= u.
Proof.
  intros Hlen. unfold Uint64. destruct (Nat.ltb_spec (length b) 8); [lia |].
  eexists; split; [reflexivity |]. apply bigEndian_nonneg. lia.
Qed.

(** With at least eight bytes of randomness the index of an iteration is
    computed without a panic and lies in [[0, i]]. *)
Lemma randomIndex_Some (i : Z) (randomness : list byte) :
  0 <= i → (8 <= length randomness)%nat →
  ∃ j, randomIndex i randomness = Some j ∧ 0 <= j <= i.
Proof.
  intros Hi Hlen. unfold randomIndex.
  destruct (position_bounds i randomness Hi Hlen) as [Hp0 Hp8].
  destruct (slice_Some randomness (position i randomness) (position i randomness + 8))
    as (b & -> & Hb); [lia | lia | lia |].
  destruct (Uint64_Some b) as (u & -> & Hu); [lia |].
  eexists; split; [reflexivity |].
  pose proof (Z.mod_pos_bound u (i + 1)). lia.
Qed.

Lemma insert_Permutation {A} (l : list A) (i : nat) (x : A) :
  (i < length l)%nat → <[i := x]> l ≡ₚ x :: delete i l.
Proof.
  revert i. induction l as [| a l IH]; intros [| i] Hi; simpl in *; try lia.
  - reflexivity.
  - rewrite IH by lia. apply perm_swap.
Qed.

(** Exchanging two elements of a list permutes it. *)
Lemma exchange_Permutation {A} (l : list A) (i j : nat) (x y : A) :
  l !! i = Some x → l !! j = Some y →
  <[j := x]> (<[i := y]> l) ≡ₚ l.
Proof.
  revert i j. induction l as [| a l IH]; intros i j Hi Hj; [discriminate |].
  destruct i as [| i], j as [| j]; simpl in *.
  - by simplify_eq.
  - simplify_eq. rewrite insert_Permutation by (by eapply lookup_lt_Some).
    rewrite (delete_Permutation l j y Hj) at 2. apply perm_swap.
  - simplify_eq. rewrite insert_Permutation by (by eapply lookup_lt_Some).
    rewrite (delete_Permutation l i x Hi) at 2. apply perm_swap.
  - by rewrite IH.
Qed.

Lemma swap_Some (s : list Card) (i j : Z) :
  0 <= i < Z.of_nat (length s) → 0 <= j < Z.of_nat (length s) →
  ∃ s', swap s i j = Some s' ∧ s' ≡ₚ s ∧ length s' = length s.
Proof.
  intros Hi Hj. unfold swap.
  destruct (Z.leb_spec 0 i); [| lia]. destruct (Z.leb_spec 0 j); [| lia]. simpl.
  destruct (lookup_lt_is_Some_2 s (Z.to_nat j)) as [cj Hcj]; [lia |].
  destruct (lookup_lt_is_Some_2 s (Z.to_nat i)) as [ci Hci]; [lia |].
  rewrite Hcj, Hci. eexists; split; [reflexivity |]. split.
  - by apply exchange_Permutation.
  - by rewrite !length_insert.
Qed.

(** The loop never panics and only permutes, as long as its first index is
    within the deck. *)
Lemma shuffleLoop_Some (n : nat) (shuffled : list Card) (randomness : list byte) :
  (8 <= length randomness)%nat → (n < length shuffled)%nat ∨ n = 0%nat →
  ∃ out, shuffleLoop n shuffled randomness = Some out ∧ out ≡ₚ shuffled.
Proof.
  intros Hlen. revert shuffled.
  induction n as [| n IH]; intros shuffled Hn.
  - exists shuffled. split; reflexivity.
  - destruct Hn as [Hn | Hn]; [| lia].
    cbn [shuffleLoop].
    destruct (randomIndex_Some (Z.of_nat (S n)) randomness) as (j & -> & Hj); [lia | done |].
    destruct (swap_Some shuffled (Z.of_nat (S n)) j) as (s' & -> & Hperm & Hlen');
      [lia | lia |].
    destruct (IH s') as (out & Hout & Hp); [lia |].
    exists out. split; [exact Hout |]. by rewrite Hp.
Qed.

Lemma shuffleDeck_Some (deck : list Card) (randomness : list byte) :
  ∃ out, shuffleDeck deck randomness = Some out ∧ out ≡ₚ deck.
Proof.
  unfold shuffleDeck. rewrite copy_make.
  apply shuffleLoop_Some; [apply enoughRandomness_length | lia].
Qed.

(** C1. For every deck and every randomness, [shuffleDeck] returns a deck
    with exactly the cards of its input, each as many times as in the input:
    the result is a permutation of the input, of the same length; for a deck
    of 52 cards it is a permutation of those 52 cards. *)
Theorem shuffleDeck_permutation (deck : list Card) (randomness : list byte) :
  ∃ out, shuffleDeck deck randomness = Some out ∧
         Permutation deck out ∧
         length out = length deck ∧
         (∀ c : Card, count_occ Card_eq_dec out c = count_occ Card_eq_dec deck c).
Proof.
  destruct (shuffleDeck_Some deck randomness) as (out & Hout & Hperm).
  exists out. split; [exact Hout |]. split; [by symmetry |]. split.
  - by apply Permutation_length.
  - intros c. by apply Permutation_count_occ.
Qed.

(** C6. For a randomness shorter than the eight bytes a step of the shuffle
    reads (three bytes, none at all), [shuffleDeck] first replaces it by its
    SHA-256 digest of 32 bytes; then every window [randomness[pos:pos+8]] read
    by the loop over the 52 cards satisfies [pos + 8 <= len(randomness)], no
    access panics, and the result is a permutation of the 52 cards. *)
Theorem shuffleDeck_short_randomness (randomness : list byte) :
  (length randomness < 8)%nat →
  let extended := SHA256.sum256 randomness in
  enoughRandomness randomness = extended ∧
  length extended = 32%nat ∧
  (∀ i : Z, 1 <= i <= 51 →
     0 <= position i extended ∧
     position i extended + 8 <= Z.of_nat (length extended) ∧
     is_Some (slice extended (position i extended) (position i extended + 8)) ∧
     is_Some (randomIndex i extended)) ∧
  ∃ out, shuffleDeck initializeDeck randomness = Some out ∧
         Permutation initializeDeck out ∧ length out = 52%nat.
Proof.
  intros Hshort extended.
  assert (Hlen : length extended = 32%nat) by apply sum256_length.
  split; [by apply enoughRandomness_short |]. split; [exact Hlen |]. split.
  - intros i Hi.
    destruct (position_bounds i extended) as [Hp0 Hp8]; [lia | lia |].
    split; [exact Hp0 |]. split; [exact Hp8 |]. split.
    + destruct (slice_Some extended (position i extended) (position i extended + 8))
        as (b & Hb & _); [lia | lia | lia |]. by exists b.
    + destruct (randomIndex_Some i extended) as (j & Hj & _); [lia | lia |]. by exists j.
  - destruct (shuffleDeck_Some initializeDeck randomness) as (out & Hout & Hperm).
    exists out. split; [exact Hout |]. split; [exact (Permutation_sym Hperm) |].
    rewrite (Permutation_length Hperm). reflexivity.
Qed.

Lemma shuffleDeck_short_randomness_witness :
  let randomness := [Byte.x01; Byte.x02; Byte.x03] in
  (length randomness < 8)%nat ∧
  ∃ out, shuffleDeck initializeDeck randomness = Some out ∧
         Permutation initializeDeck out ∧ length out = 52%nat.
Proof.
  intros randomness.
  assert (Hshort : (length randomness < 8)%nat) by (simpl; lia).
  split; [exact Hshort |].
  exact (proj2 (proj2 (proj2 (shuffleDeck_short_randomness randomness Hshort)))).
Defined.

(** ** The randomness of a session *)

Lemma extendedRandomness_eq (randomness : list byte) (gameSessionID : string) :
  extendedRandomness randomness gameSessionID =
  randomness ++ SHA256.sum256 (randomness ++ bytes_of_string gameSessionID).
Proof. reflexivity. Qed.

(** What a successful [GetShuffledDeckByRound] has done. *)
Lemma GetShuffledDeckByRound_Ok (g g' : Globals) (net : InitNet) (resp : response)
    (round : N) (gameSessionID : string) (cards : list Card) :
  GetShuffledDeckByRound g net resp round gameSessionID = Some (Ok cards, g') →
  ∃ g1 dm dm' randomness,
    GetDrandManager g net = Some (None, g1) ∧ instance g1 = Some dm ∧
    GetRandomnessByRound dm round resp = Some (Ok randomness, dm') ∧
    g' = {| instance := Some dm'; once := once g1 |} ∧
    shuffleDeck initializeDeck (extendedRandomness randomness gameSessionID) = Some cards.
Proof.
  unfold GetShuffledDeckByRound. intros H.
  destruct (GetDrandManager g net) as [[[e |] g1] |] eqn:Hg; [done | | done].
  destruct (instance g1) as [dm |] eqn:Hdm; [| done].
  destruct (GetRandomnessByRound dm round resp) as [[[randomness | e] dm'] |] eqn:Hr;
    [| done | done].
  destruct (shuffleDeck _ _) as [out |] eqn:Hout; [| done].
  simplify_eq. by exists g1, dm, dm', randomness.
Qed.

Lemma GetShuffledDeck_Ok (g g' : Globals) (net : InitNet) (gameSessionID : string)
    (cards : list Card) (round : N) :
  GetShuffledDeck g net gameSessionID = Some (Ok (cards, round), g') →
  ∃ dm randomness,
    GetDrandManager g net = Some (None, g') ∧ instance g' = Some dm ∧
    GetLatestRandomness dm = Ok (randomness, round) ∧
    shuffleDeck initializeDeck (extendedRandomness randomness gameSessionID) = Some cards.
Proof.
  unfold GetShuffledDeck. intros H.
  destruct (GetDrandManager g net) as [[[e |] g1] |] eqn:Hg; [done | | done].
  destruct (instance g1) as [dm |] eqn:Hdm; [| done].
  destruct (GetLatestRandomness dm) as [[randomness r] | e] eqn:Hr; [| done].
  destruct (shuffleDeck _ _) as [out |] eqn:Hout; [| done].
  simplify_eq. by exists dm, randomness.
Qed.

(** C3. The randomness that shuffles a game is the beacon randomness followed
    by the SHA-256 digest of the beacon randomness followed by the bytes of
    the session identifier; it is 32 bytes longer than the beacon randomness.
    Both [GetShuffledDeckByRound] and [GetShuffledDeck] shuffle the canonical
    deck with it. *)
Theorem extendedRandomness_digest :
  (∀ (randomness : list byte) (gameSessionID : string),
     extendedRandomness randomness gameSessionID =
       randomness ++ SHA256.sum256 (randomness ++ bytes_of_string gameSessionID) ∧
     length (extendedRandomness randomness gameSessionID) =
       (length randomness + SHA256.Size)%nat ∧
     SHA256.Size = 32%nat) ∧
  (∀ g g' net resp round gameSessionID cards,
     GetShuffledDeckByRound g net resp round gameSessionID = Some (Ok cards, g') →
     ∃ g1 dm dm' randomness,
       GetDrandManager g net = Some (None, g1) ∧ instance g1 = Some dm ∧
       GetRandomnessByRound dm round resp = Some (Ok randomness, dm') ∧
       shuffleDeck initializeDeck
         (randomness ++ SHA256.sum256 (randomness ++ bytes_of_string gameSessionID))
       = Some cards) ∧
  (∀ g g' net gameSessionID cards round,
     GetShuffledDeck g net gameSessionID = Some (Ok (cards, round), g') →
     ∃ dm randomness,
       GetDrandManager g net = Some (None, g') ∧ instance g' = Some dm ∧
       GetLatestRandomness dm = Ok (randomness, round) ∧
       shuffleDeck initializeDeck
         (randomness ++ SHA256.sum256 (randomness ++ bytes_of_string gameSessionID))
       = Some cards).
Proof.
  split; [| split].
  - intros randomness gameSessionID. split; [apply extendedRandomness_eq |].
    split; [| reflexivity].
    rewrite extendedRandomness_eq, length_app. by rewrite sum256_length.
  - intros g g' net resp round sid cards H.
    destruct (GetShuffledDeckByRound_Ok _ _ _ _ _ _ _ H)
      as (g1 & dm & dm' & randomness & H1 & H2 & H3 & _ & H4).
    by exists g1, dm, dm', randomness.
  - intros g g' net sid cards round H.
    destruct (GetShuffledDeck_Ok _ _ _ _ _ _ H) as (dm & randomness & H1 & H2 & H3 & H4).
    by exists dm, randomness.
Qed.

Lemma extendedRandomness_digest_witness :
  ∃ cards g',
    GetShuffledDeckByRound sampleGlobals offline (inr "unused"%string) 7 "session_12345"
      = Some (Ok cards, g') ∧
    ∃ g1 dm dm' randomness,
      GetDrandManager sampleGlobals offline = Some (None, g1) ∧ instance g1 = Some dm ∧
      GetRandomnessByRound dm 7 (inr "unused"%string) = Some (Ok randomness, dm') ∧
      shuffleDeck initializeDeck
        (randomness ++ SHA256.sum256 (randomness ++ bytes_of_string "session_12345"))
      = Some cards.
Proof.
  assert (H : ∃ cards g',
    GetShuffledDeckByRound sampleGlobals offline (inr "unused"%string) 7 "session_12345"
      = Some (Ok cards, g')) by (eexists _, _; vm_compute; reflexivity).
  destruct H as (cards & g' & H). exists cards, g'. split; [exact H |].
  exact (proj1 (proj2 extendedRandomness_digest) _ _ _ _ _ _ _ H).
Defined.

(** ** The shuffle in memory *)

Lemma swap_length (s s' : list Card) (i j : Z) :
  swap s i j = Some s' → length s' = length s.
Proof.
  unfold swap. destruct ((0 <=? i) && (0 <=? j)); [| done].
  destruct (s !! Z.to_nat j), (s !! Z.to_nat i); intros H; simplify_eq.
  by rewrite !length_insert.
Qed.

(** Through a slice that shows a whole array, the exchange in the store is
    the exchange of the list, written back. *)
Lemma Mem_swap_whole (h : gmap Mem.loc (list Card)) (s : Mem.Slice) (a : list Card) (i j : Z) :
  h !! Mem.array s = Some a → Mem.offset s = 0%nat → Mem.len s = length a →
  Mem.swap h s i j = (a' ← swap a i j; Some (<[Mem.array s := a']> h)).
Proof.
  intros Ha Hoff Hlen. unfold Mem.swap, swap. rewrite Ha, Hoff, Hlen. simpl.
  destruct (Z.leb_spec 0 i) as [Hi | Hi]; simpl; [| done].
  destruct (Z.ltb_spec i (Z.of_nat (length a))) as [Hi' | Hi']; simpl.
  - destruct (Z.leb_spec 0 j) as [Hj | Hj]; simpl; [| done].
    destruct (Z.ltb_spec j (Z.of_nat (length a))) as [Hj' | Hj']; simpl.
    + destruct (a !! Z.to_nat j); simpl; [| done].
      by destruct (a !! Z.to_nat i).
    + rewrite (lookup_ge_None_2 a (Z.to_nat j)) by lia. done.
  - rewrite (lookup_ge_None_2 a (Z.to_nat i)) by lia.
    destruct (0 <=? j); simpl; [| done]. by destruct (a !! Z.to_nat j).
Qed.

Lemma Mem_shuffleLoop_whole (n : nat) (h : gmap Mem.loc (list Card)) (s : Mem.Slice)
    (a : list Card) (randomness : list byte) :
  h !! Mem.array s = Some a → Mem.offset s = 0%nat → Mem.len s = length a →
  Mem.shuffleLoop n h s randomness =
    (out ← shuffleLoop n a randomness; Some (<[Mem.array s := out]> h)).
Proof.
  revert h a. induction n as [| n IH]; intros h a Ha Hoff Hlen.
  - simpl. by rewrite insert_id.
  - cbn [Mem.shuffleLoop shuffleLoop].
    destruct (randomIndex (Z.of_nat (S n)) randomness) as [j |]; simpl; [| done].
    rewrite (Mem_swap_whole h s a) by done.
    destruct (swap a (Z.of_nat (S n)) j) as [a' |] eqn:Hswap; simpl; [| done].
    rewrite (IH _ a').
    + destruct (shuffleLoop n a' randomness); simpl; [| done].
      by rewrite insert_insert_eq.
    + by rewrite lookup_insert_eq.
    + done.
    + rewrite Hlen. symmetry. by eapply swap_length.
Qed.

Lemma Mem_load_Some (h : gmap Mem.loc (list Card)) (s : Mem.Slice) (cards : list Card) :
  Mem.load h s = Some cards →
  ∃ a, h !! Mem.array s = Some a ∧ (Mem.offset s + Mem.len s <= length a)%nat ∧
       cards = firstn (Mem.len s) (skipn (Mem.offset s) a) ∧
       length cards = Mem.len s.
Proof.
  unfold Mem.load. intros H.
  destruct (h !! Mem.array s) as [a |]; simpl in H; [| done].
  destruct (Nat.leb_spec (Mem.offset s + Mem.len s) (length a)); [| done].
  simplify_eq. exists a. repeat split; [done |].
  rewrite length_firstn, length_skipn. lia.
Qed.

(** [shuffleDeck] in the store allocates one array, fills it with the cards
    of the deck shuffled as [shuffleDeck] on values does, and writes nowhere
    else. *)
Lemma Mem_shuffleDeck_refines (h : gmap Mem.loc (list Card)) (deck : Mem.Slice)
    (cards : list Card) (randomness : list byte) :
  Mem.load h deck = Some cards →
  ∃ out, shuffleDeck cards randomness = Some out ∧
    Mem.shuffleDeck h deck randomness =
      Some ({| Mem.array := fresh (dom h); Mem.offset := 0; Mem.len := Mem.len deck |},
            <[fresh (dom h) := out]> h).
Proof.
  intros Hload.
  destruct (Mem_load_Some h deck cards Hload) as (a & Ha & Hin & Hcards & Hlen).
  destruct (shuffleDeck_Some cards randomness) as (out & Hout & _).
  exists out. split; [exact Hout |].
  unfold Mem.shuffleDeck, Mem.make. set (p := fresh (dom h)).
  assert (Hp : h !! p = None) by (apply not_elem_of_dom, is_fresh).
  assert (Hne : p ≠ Mem.array deck) by (intros ->; congruence).
  set (zeros := repeat {| Suit := EmptyString; Value := EmptyString |} (Mem.len deck)).
  assert (Hcopy : Mem.copy (<[p := zeros]> h)
                    {| Mem.array := p; Mem.offset := 0; Mem.len := Mem.len deck |} deck
                  = Some (<[p := cards]> h)).
  { unfold Mem.copy, Mem.load. cbn [Mem.array Mem.offset Mem.len].
    rewrite (lookup_insert_ne h p (Mem.array deck)) by done. rewrite Ha. simpl.
    destruct (Nat.leb_spec (Mem.offset deck + Mem.len deck) (length a)); [| lia].
    rewrite lookup_insert_eq. simpl.
    assert (Hz : length zeros = Mem.len deck) by apply repeat_length.
    destruct (Nat.leb_spec (Mem.len deck) (length zeros)); [| lia].
    rewrite insert_insert_eq. f_equal. f_equal.
    rewrite Nat.min_id, <- Hcards.
    rewrite firstn_all2 by lia. rewrite skipn_all2 by lia. apply app_nil_r. }
  rewrite Hcopy. simpl.
  rewrite (Mem_shuffleLoop_whole _ _ _ cards);
    [| by rewrite lookup_insert_eq | done | by cbn [Mem.len]; rewrite Hlen ].
  cbn [Mem.len Mem.array].
  unfold shuffleDeck in Hout. rewrite copy_make, Hlen in Hout. rewrite Hout. simpl.
  by rewrite insert_insert_eq.
Qed.

(** What a call of [shuffleDeck] does to the store. *)
Lemma Mem_shuffleDeck_effect (h : gmap Mem.loc (list Card)) (deck : Mem.Slice)
    (cards : list Card) (randomness : list byte) :
  Mem.load h deck = Some cards →
  ∃ shuffled h' out,
    Mem.shuffleDeck h deck randomness = Some (shuffled, h') ∧
    h !! Mem.array shuffled = None ∧
    (∀ p a, h !! p = Some a → h' !! p = Some a) ∧
    Mem.load h' deck = Some cards ∧
    shuffleDeck cards randomness = Some out ∧
    Mem.load h' shuffled = Some out.
Proof.
  intros Hload.
  destruct (Mem_shuffleDeck_refines h deck cards randomness Hload) as (out & Hout & Hmem).
  destruct (Mem_load_Some h deck cards Hload) as (a & Ha & Hin & Hcards & Hlen).
  assert (Hp : h !! fresh (dom h) = None) by (apply not_elem_of_dom, is_fresh).
  eexists _, _, out. split; [exact Hmem |]. cbn [Mem.array].
  split; [exact Hp |]. split; [| split; [| split; [exact Hout |]]].
  - intros p b Hb. rewrite lookup_insert_ne; [done | congruence].
  - unfold Mem.load. rewrite lookup_insert_ne by congruence.
    exact Hload.
  - unfold Mem.load. cbn [Mem.array Mem.offset Mem.len].
    rewrite lookup_insert_eq. simpl.
    destruct (shuffleDeck_Some cards randomness) as (out' & Hout' & Hperm).
    assert (out' = out) by congruence. subst out'.
    assert (Hl : length out = Mem.len deck)
      by (rewrite (Permutation_length Hperm); exact Hlen).
    destruct (Nat.leb_spec (Mem.len deck) (length out)); [| lia].
    f_equal. rewrite skipn_O. apply firstn_all2. lia.
Qed.

(** A call of [shuffleDeck] in any store returns a slice that shows the
    cards computed by [shuffleDeck] on values. *)
Lemma Mem_shuffleDeck_result (h : gmap Mem.loc (list Card)) (deck : Mem.Slice)
    (cards : list Card) (randomness : list byte) :
  Mem.load h deck = Some cards →
  ∃ shuffled h' out,
    Mem.shuffleDeck h deck randomness = Some (shuffled, h') ∧
    shuffleDeck cards randomness = Some out ∧
    Mem.load h' shuffled = Some out.
Proof.
  intros Hload.
  destruct (Mem_shuffleDeck_effect h deck cards randomness Hload)
    as (s & h' & out & H1 & _ & _ & _ & H2 & H3).
  by exists s, h', out.
Qed.

(** C9. [shuffleDeck] does not write to its input: the slice it returns
    views an array at an address that was not in use before the call, every
    array that existed before the call has the same cards after it, so the
    input deck reads card for card as before; the new array holds the
    shuffled cards. *)
Theorem shuffleDeck_input_unchanged (h : gmap Mem.loc (list Card)) (deck : Mem.Slice)
    (cards : list Card) (randomness : list byte) :
  Mem.load h deck = Some cards →
  ∃ shuffled h' out,
    Mem.shuffleDeck h deck randomness = Some (shuffled, h') ∧
    h !! Mem.array shuffled = None ∧
    (∀ p a, h !! p = Some a → h' !! p = Some a) ∧
    Mem.load h' deck = Some cards ∧
    shuffleDeck cards randomness = Some out ∧
    Mem.load h' shuffled = Some out.
Proof. apply Mem_shuffleDeck_effect. Qed.

Lemma shuffleDeck_input_unchanged_witness :
  Mem.load sampleStore sampleDeck = Some initializeDeck ∧
  ∃ shuffled h' out,
    Mem.shuffleDeck sampleStore sampleDeck [Byte.x01; Byte.x02; Byte.x03] = Some (shuffled, h') ∧
    sampleStore !! Mem.array shuffled = None ∧
    (∀ p a, sampleStore !! p = Some a → h' !! p = Some a) ∧
    Mem.load h' sampleDeck = Some initializeDeck ∧
    shuffleDeck initializeDeck [Byte.x01; Byte.x02; Byte.x03] = Some out ∧
    Mem.load h' shuffled = Some out.
Proof.
  assert (H : Mem.load sampleStore sampleDeck = Some initializeDeck)
    by (vm_compute; reflexivity).
  split; [exact H |].
  exact (shuffleDeck_input_unchanged sampleStore sampleDeck initializeDeck
           [Byte.x01; Byte.x02; Byte.x03] H).
Defined.

(** ** Determinism *)

Lemma GetRandomnessByRound_cached (dm dm' : DrandManager) (round : N) (resp : response)
    (randomness : list byte) :
  GetRandomnessByRound dm round resp = Some (Ok randomness, dm') →
  ∃ beacon, beaconCache dm' !! round = Some beacon ∧ GetRandomness beacon = randomness.
Proof.
  unfold GetRandomnessByRound. intros H.
  destruct (beaconCache dm !! round) as [beacon |] eqn:Hhit.
  - simplify_eq. by exists beacon.
  - destruct (client dm); [| done]. destruct resp as [result | cause]; [| done].
    simplify_eq. exists result. simpl. by rewrite lookup_insert_eq.
Qed.

Lemma GetRandomnessByRound_hit (dm : DrandManager) (round : N) (resp : response)
    (beacon : Result) :
  beaconCache dm !! round = Some beacon →
  GetRandomnessByRound dm round resp = Some (Ok (GetRandomness beacon), dm).
Proof. intros H. unfold GetRandomnessByRound. by rewrite H. Qed.

Lemma GetDrandManager_once (g g1 : Globals) (net : InitNet) (e : option error) :
  GetDrandManager g net = Some (e, g1) → once g1 = true.
Proof.
  unfold GetDrandManager. destruct (once g) eqn:Honce.
  - intros H. by simplify_eq.
  - destruct (initialize _ net) as [[initErr dm] |]; intros H; by simplify_eq.
Qed.

Lemma GetDrandManager_again (g : Globals) (net : InitNet) :
  once g = true → GetDrandManager g net = Some (None, g).
Proof. intros H. unfold GetDrandManager. by rewrite H. Qed.

(** C2. [shuffleDeck] is deterministic: on a deck and a randomness it returns
    one card sequence, and two invocations in any two states of the memory,
    on slices that show the same cards, return slices that show the same
    sequence.  Hence two requests [GetShuffledDeckByRound] for the same round
    and the same session identifier that find the same beacon randomness for
    the round return the same deck, whatever else the manager holds; and a
    request repeated after a successful one returns the same deck again. *)
Theorem shuffle_deterministic :
  (∀ deck randomness, ∃ out,
     shuffleDeck deck randomness = Some out ∧
     ∀ out', shuffleDeck deck randomness = Some out' → out' = out) ∧
  (∀ h1 h2 deck1 deck2 cards randomness,
     Mem.load h1 deck1 = Some cards → Mem.load h2 deck2 = Some cards →
     ∃ s1 h1' s2 h2' out,
       Mem.shuffleDeck h1 deck1 randomness = Some (s1, h1') ∧
       Mem.shuffleDeck h2 deck2 randomness = Some (s2, h2') ∧
       Mem.load h1' s1 = Some out ∧ Mem.load h2' s2 = Some out) ∧
  (∀ g1 g2 net1 net2 resp1 resp2 round gameSessionID cards1 cards2 g1' g2',
     GetShuffledDeckByRound g1 net1 resp1 round gameSessionID = Some (Ok cards1, g1') →
     GetShuffledDeckByRound g2 net2 resp2 round gameSessionID = Some (Ok cards2, g2') →
     cachedRandomness g1' round = cachedRandomness g2' round →
     cards1 = cards2) ∧
  (∀ g net resp round gameSessionID cards g',
     GetShuffledDeckByRound g net resp round gameSessionID = Some (Ok cards, g') →
     ∀ net' resp',
       GetShuffledDeckByRound g' net' resp' round gameSessionID = Some (Ok cards, g')).
Proof.
  split; [| split; [| split]].
  - intros deck randomness.
    destruct (shuffleDeck_Some deck randomness) as (out & Hout & _).
    exists out. split; [exact Hout |]. intros out' Hout'. congruence.
  - intros h1 h2 deck1 deck2 cards randomness H1 H2.
    destruct (Mem_shuffleDeck_result h1 deck1 cards randomness H1)
      as (s1 & h1' & out1 & E1 & O1 & L1).
    destruct (Mem_shuffleDeck_result h2 deck2 cards randomness H2)
      as (s2 & h2' & out2 & E2 & O2 & L2).
    assert (out2 = out1) by congruence. subst out2.
    by exists s1, h1', s2, h2', out1.
  - intros g1 g2 net1 net2 resp1 resp2 round sid cards1 cards2 g1' g2' H1 H2 Hsame.
    destruct (GetShuffledDeckByRound_Ok _ _ _ _ _ _ _ H1)
      as (ga & dma & dma' & rnd1 & _ & _ & Hr1 & -> & Hs1).
    destruct (GetShuffledDeckByRound_Ok _ _ _ _ _ _ _ H2)
      as (gb & dmb & dmb' & rnd2 & _ & _ & Hr2 & -> & Hs2).
    destruct (GetRandomnessByRound_cached _ _ _ _ _ Hr1) as (b1 & Hb1 & <-).
    destruct (GetRandomnessByRound_cached _ _ _ _ _ Hr2) as (b2 & Hb2 & <-).
    unfold cachedRandomness in Hsame. simpl in Hsame.
    rewrite Hb1, Hb2 in Hsame. simpl in Hsame.
    assert (GetRandomness b1 = GetRandomness b2) as Heq by congruence.
    rewrite Heq in Hs1. congruence.
  - intros g net resp round sid cards g' H net' resp'.
    destruct (GetShuffledDeckByRound_Ok _ _ _ _ _ _ _ H)
      as (g1 & dm & dm' & rnd & Hg & _ & Hr & -> & Hs).
    pose proof (GetDrandManager_once _ _ _ _ Hg) as Honce.
    destruct (GetRandomnessByRound_cached _ _ _ _ _ Hr) as (b & Hb & <-).
    unfold GetShuffledDeckByRound.
    rewrite GetDrandManager_again by done. cbn [instance once].
    rewrite (GetRandomnessByRound_hit dm' round resp' b Hb).
    by rewrite Hs.
Qed.

Lemma shuffle_deterministic_witness :
  ∃ cards g',
    GetShuffledDeckByRound sampleGlobals offline (inr "unused"%string) 7 "session_12345"
      = Some (Ok cards, g') ∧
    GetShuffledDeckByRound g' offline (inl (sampleBeacon 9)) 7 "session_12345"
      = Some (Ok cards, g').
Proof.
  assert (H : ∃ cards g',
    GetShuffledDeckByRound sampleGlobals offline (inr "unused"%string) 7 "session_12345"
      = Some (Ok cards, g')) by (eexists _, _; vm_compute; reflexivity).
  destruct H as (cards & g' & H). exists cards, g'. split; [exact H |].
  exact (proj2 (proj2 (proj2 shuffle_deterministic)) _ _ _ _ _ _ _ H
           offline (inl (sampleBeacon 9))).
Defined.

(** ** The card text codec *)

Lemma append_String (c : ascii) (a b : string) :
  (String c a ++ b)%string = String c (a ++ b).
Proof. reflexivity. Qed.

Lemma append_Empty (b : string) : (EmptyString ++ b)%string = b.
Proof. reflexivity. Qed.

Lemma prefix_app_iff (a s : string) :
  String.prefix a s = true ↔ ∃ rest, s = (a ++ rest)%string.
Proof.
  revert s. induction a as [| c a IH]; intros s.
  - split; [intros _; exists s; by rewrite append_Empty | by destruct s].
  - destruct s as [| d s]; cbn [String.prefix].
    + split; [discriminate | intros [rest H]; rewrite append_String in H; discriminate].
    + destruct (ascii_dec c d) as [-> | Hne].
      * rewrite IH. split; intros [rest H]; exists rest; rewrite append_String in *; congruence.
      * split; [discriminate | intros [rest H]; rewrite append_String in H; congruence].
Qed.

Lemma string_from_app (a rest : string) :
  string_from (String.length a) (a ++ rest) = rest.
Proof.
  induction a as [| c a IH].
  - rewrite append_Empty. by destruct rest.
  - rewrite append_String. exact IH.
Qed.

Lemma length_append (a b : string) :
  String.length (a ++ b) = (String.length a + String.length b)%nat.
Proof.
  induction a as [| c a IH]; [by rewrite append_Empty |].
  rewrite append_String. cbn [String.length]. by rewrite IH.
Qed.

(** Two prefixes of one string that have the same length are equal. *)
Lemma append_inj_length (a b r r' : string) :
  String.length a = String.length b → (a ++ r = b ++ r')%string → a = b ∧ r = r'.
Proof.
  revert b. induction a as [| c a IH]; intros [| d b] Hlen Heq;
    cbn [String.length] in Hlen; try discriminate.
  - by rewrite !append_Empty in Heq.
  - rewrite !append_String in Heq. injection Heq as -> Heq.
    destruct (IH b) as [-> ->]; [lia | done | done].
Qed.

Lemma suits_length (suit : string) : In suit suits → String.length suit = 6%nat.
Proof. intros H. repeat destruct H as [<- | H]; try reflexivity. destruct H. Qed.

Lemma validValues_spec (value : string) :
  default false (validValues !! value) = true ↔ In value values.
Proof.
  unfold validValues. rewrite <- list_elem_of_In.
  destruct (list_to_map _ !! value) as [b |] eqn:E; simpl.
  - apply elem_of_list_to_map_2 in E. apply list_elem_of_fmap in E as (v & Hv & Hin).
    simplify_eq. done.
  - split; [discriminate |]. intros Hin.
    apply not_elem_of_list_to_map_2 in E. exfalso. apply E. exact Hin.
Qed.

(** The loop over the suits finds nothing exactly when no suit is a prefix,
    and otherwise splits [s] after a suit. *)
Lemma matchSuit_none (l : list string) (s : string) :
  (∀ suit, In suit l → String.prefix suit s = false) →
  matchSuit l s = (EmptyString, EmptyString).
Proof.
  induction l as [| v l IH]; intros H; simpl; [reflexivity |].
  rewrite (H v) by (by left). apply IH. intros suit Hin. apply H. by right.
Qed.

Lemma matchSuit_some (l : list string) (s suit : string) :
  In suit l → String.prefix suit s = true →
  ∃ suit' value, matchSuit l s = (suit', value) ∧ In suit' l ∧
                 s = (suit' ++ value)%string.
Proof.
  induction l as [| v l IH]; intros Hin Hpre; [destruct Hin |].
  simpl. destruct (String.prefix v s) eqn:Hv.
  - exists v, (string_from (String.length v) s). split; [reflexivity |].
    split; [by left |].
    apply prefix_app_iff in Hv as [rest ->]. by rewrite string_from_app.
  - destruct Hin as [-> | Hin]; [congruence |].
    destruct (IH Hin Hpre) as (suit' & value & -> & Hin' & ->).
    exists suit', value. split; [reflexivity |]. split; [by right | reflexivity].
Qed.

(** What [StringToCard] returns, by cases on its input. *)
Lemma StringToCard_short (s : string) :
  (String.length s < 3)%nat → StringToCard s = Err (ErrInvalidCardString s).
Proof.
  intros H. unfold StringToCard.
  destruct (Nat.ltb_spec (String.length s) 3); [reflexivity | lia].
Qed.

Lemma StringToCard_no_suit (s : string) :
  (3 <= String.length s)%nat → noSuitMatches s →
  StringToCard s = Err (ErrInvalidSuit s).
Proof.
  intros H Hno. unfold StringToCard.
  destruct (Nat.ltb_spec (String.length s) 3); [lia |].
  by rewrite (matchSuit_none suits s Hno).
Qed.

Lemma StringToCard_suit (suit value : string) :
  In suit suits →
  StringToCard (suit ++ value) =
    if default false (validValues !! value)
    then Ok {| Suit := suit; Value := value |}
    else Err (ErrInvalidValue value).
Proof.
  intros Hin. unfold StringToCard.
  pose proof (suits_length suit Hin) as Hlen.
  destruct (Nat.ltb_spec (String.length (suit ++ value)) 3) as [Hlt | _].
  { rewrite length_append in Hlt. lia. }
  destruct (matchSuit_some suits (suit ++ value) suit Hin) as (suit' & value' & -> & Hin' & Heq).
  { apply prefix_app_iff. by exists value. }
  destruct (append_inj_length suit suit' value value') as [<- <-]; [| exact Heq |].
  { by rewrite Hlen, (suits_length suit' Hin'). }
  assert (Hne : String.eqb suit EmptyString = false).
  { destruct suit; [discriminate Hlen | reflexivity]. }
  rewrite Hne. by destruct (default false (validValues !! value)).
Qed.

Lemma suit_or_none (s : string) :
  noSuitMatches s ∨ ∃ suit value, In suit suits ∧ s = (suit ++ value)%string.
Proof.
  destruct (existsb (fun suit => String.prefix suit s) suits) eqn:E.
  - right. apply existsb_exists in E as (suit & Hin & Hp).
    apply prefix_app_iff in Hp as [rest ->]. by exists suit, rest.
  - left. intros suit Hin. destruct (String.prefix suit s) eqn:Hp; [| reflexivity].
    rewrite <- E. symmetry. apply existsb_exists. by exists suit.
Qed.

(** C8, as it is stated, fails on the empty string: no suit name is a prefix
    of it, yet the failure is the invalid card string of the length test,
    not the invalid suit. *)
Lemma StringToCard_empty_not_invalid_suit :
  noSuitMatches EmptyString ∧
  StringToCard EmptyString = Err (ErrInvalidCardString EmptyString) ∧
  ¬ (∃ s, StringToCard EmptyString = Err (ErrInvalidSuit s)).
Proof.
  split; [| split].
  - intros suit Hin. repeat destruct Hin as [<- | Hin]; try reflexivity. destruct Hin.
  - reflexivity.
  - intros [s H]. discriminate H.
Qed.

(** C8, amended.  A text shorter than three bytes fails with the invalid card
    string error.  A text of three bytes or more fails with the invalid suit
    error exactly when none of the four suit names is a prefix of it.  A text
    fails with the invalid value error exactly when it is a suit name followed
    by a text that is not one of the thirteen values.  It is parsed exactly
    when it is a suit name followed by a value, to the card of that suit and
    value: no failure is turned into a card. *)
Theorem StringToCard_failures (s : string) :
  (StringToCard s = Err (ErrInvalidCardString s) ↔ (String.length s < 3)%nat) ∧
  (StringToCard s = Err (ErrInvalidSuit s) ↔
     (3 <= String.length s)%nat ∧ noSuitMatches s) ∧
  (∀ value, StringToCard s = Err (ErrInvalidValue value) ↔
     ∃ suit, In suit suits ∧ s = (suit ++ value)%string ∧ ¬ In value values) ∧
  (∀ card, StringToCard s = Ok card ↔
     In (Suit card) suits ∧ In (Value card) values ∧
     s = (Suit card ++ Value card)%string) ∧
  (∀ e, StringToCard s = Err e →
     e = ErrInvalidCardString s ∨ e = ErrInvalidSuit s ∨
     ∃ value, e = ErrInvalidValue value).
Proof.
  assert (Hcases :
    ((String.length s < 3)%nat ∧ StringToCard s = Err (ErrInvalidCardString s)) ∨
    ((3 <= String.length s)%nat ∧ noSuitMatches s ∧
       StringToCard s = Err (ErrInvalidSuit s)) ∨
    (∃ suit value, In suit suits ∧ s = (suit ++ value)%string ∧
       (3 <= String.length s)%nat ∧ ∃ suit', In suit' suits ∧ String.prefix suit' s = true ∧
       StringToCard s = if default false (validValues !! value)
                        then Ok {| Suit := suit; Value := value |}
                        else Err (ErrInvalidValue value))).
  { destruct (suit_or_none s) as [Hno | (suit & value & Hin & ->)].
    - destruct (Nat.lt_ge_cases (String.length s) 3) as [Hlt | Hge].
      + left. split; [exact Hlt | by apply StringToCard_short].
      + right; left. split; [exact Hge |]. split; [exact Hno | by apply StringToCard_no_suit].
    - right; right. exists suit, value. split; [exact Hin |]. split; [reflexivity |].
      split; [rewrite length_append, (suits_length suit Hin); lia |].
      exists suit. split; [exact Hin |].
      split; [apply prefix_app_iff; by exists value | by apply StringToCard_suit]. }
  assert (Hsplit : ∀ suit value suit' value',
    In suit suits → In suit' suits →
    (suit ++ value)%string = (suit' ++ value')%string → suit = suit' ∧ value = value').
  { intros suit value suit' value' Hin Hin' Heq.
    apply append_inj_length; [| exact Heq].
    by rewrite (suits_length suit Hin), (suits_length suit' Hin'). }
  destruct Hcases as [[Hlt Hs] | [(Hge & Hno & Hs) | (suit & value & Hin & -> & Hge & suit' & Hin' & Hpre' & Hs)]].
  - rewrite Hs. split; [done |]. split; [| split; [| split]].
    + split; [intros H; simplify_eq | intros [H _]; lia].
    + intros value. split; [discriminate |].
      intros (suit & Hin & -> & _).
      rewrite length_append, (suits_length suit Hin) in Hlt. lia.
    + intros card. split; [discriminate |].
      intros (Hin & _ & Heq). rewrite Heq, length_append, (suits_length _ Hin) in Hlt. lia.
    + intros e He. left. by simplify_eq.
  - rewrite Hs. split; [| split; [done | split; [| split]]].
    + split; [discriminate | lia].
    + intros value. split; [discriminate |].
      intros (suit & Hin & -> & _). specialize (Hno suit Hin).
      assert (String.prefix suit (suit ++ value) = true) by (apply prefix_app_iff; by exists value).
      congruence.
    + intros card. split; [discriminate |].
      intros (Hin & _ & ->). specialize (Hno _ Hin).
      assert (String.prefix (Suit card) (Suit card ++ Value card) = true)
        by (apply prefix_app_iff; by eexists).
      congruence.
    + intros e He. right; left. by simplify_eq.
  - pose proof (validValues_spec value) as Hvalid.
    split; [| split; [| split; [| split]]].
    + rewrite Hs. split; [| lia].
      destruct (default false (validValues !! value)); discriminate.
    + rewrite Hs. split.
      * destruct (default false (validValues !! value)); discriminate.
      * intros [_ Hno]. specialize (Hno suit' Hin'). congruence.
    + intros value'. rewrite Hs. split.
      * destruct (default false (validValues !! value)) eqn:E; [discriminate |].
        intros H. simplify_eq. exists suit. split; [exact Hin |]. split; [reflexivity |].
        intros Hv. apply Hvalid in Hv. congruence.
      * intros (suit1 & Hin1 & Heq & Hnot).
        destruct (Hsplit _ _ _ _ Hin Hin1 Heq) as [<- <-].
        destruct (default false (validValues !! value)) eqn:E; [| reflexivity].
        exfalso. apply Hnot, Hvalid. reflexivity.
    + intros card. rewrite Hs. split.
      * destruct (default false (validValues !! value)) eqn:E; [| discriminate].
        intros H. simplify_eq. simpl. split; [exact Hin |]. split; [| reflexivity].
        by apply Hvalid.
      * intros (Hin1 & Hv & Heq).
        destruct (Hsplit _ _ _ _ Hin Hin1 Heq) as [Hs1 Hv1].
        destruct card as [csuit cvalue]. cbn [Suit Value] in *. subst csuit cvalue.
        apply Hvalid in Hv. by rewrite Hv.
    + intros e. rewrite Hs.
      destruct (default false (validValues !! value)); [discriminate |].
      intros H. simplify_eq. right; right. by exists value.
Qed.

(** C10. On each of the 52 cards of the canonical deck, [StringToCard]
    undoes [CardToString]: the text of the card is parsed without error to
    the card itself. *)
Theorem StringToCard_CardToString (card : Card) :
  In card initializeDeck → StringToCard (CardToString card) = Ok card.
Proof.
  intros Hin.
  assert (Hsuit : In (Suit card) suits ∧ In (Value card) values).
  { repeat destruct Hin as [<- | Hin]; try (split; simpl; tauto). }
  destruct Hsuit as [Hs Hv]. unfold CardToString.
  rewrite (StringToCard_suit _ _ Hs).
  apply validValues_spec in Hv. rewrite Hv. by destruct card.
Qed.

Lemma StringToCard_CardToString_witness :
  In {| Suit := "紅心"; Value := "10" |} initializeDeck ∧
  StringToCard (CardToString {| Suit := "紅心"; Value := "10" |})
    = Ok {| Suit := "紅心"; Value := "10" |}.
Proof.
  assert (H : In {| Suit := "紅心"; Value := "10" |} initializeDeck)
    by (vm_compute; tauto).
  split; [exact H |].
  exact (StringToCard_CardToString _ H).
Defined.

(** ** The cache of the manager *)

Section Rounds.

Context (cache : gmap N Result).

Let rounds : list N := merge_sort N.le (map fst (map_to_list cache)).

Lemma rounds_Permutation : rounds ≡ₚ (map_to_list cache).*1.
Proof. apply merge_sort_Permutation. Qed.

Lemma rounds_NoDup : NoDup rounds.
Proof. rewrite rounds_Permutation. apply NoDup_fst_map_to_list. Qed.

Lemma rounds_length : length rounds = size cache.
Proof.
  rewrite rounds_Permutation, length_fmap. apply length_map_to_list.
Qed.

Lemma elem_of_rounds (k : N) : k ∈ rounds ↔ is_Some (cache !! k).
Proof.
  rewrite rounds_Permutation, list_elem_of_fmap. split.
  - intros ([k' v] & -> & H). apply elem_of_map_to_list in H. by exists v.
  - intros [v H]. exists (k, v). split; [done |]. by apply elem_of_map_to_list.
Qed.

Lemma rounds_sorted : StronglySorted N.le rounds.
Proof.
  apply StronglySorted_merge_sort.
  - intros x y z. apply N.le_trans.
  - intros x y. apply N.le_ge_cases.
Qed.

Lemma evicted_rounds :
  rounds = evicted cache ++ skipn (size cache - maxCacheSize) rounds.
Proof. unfold evicted. fold rounds. by rewrite firstn_skipn. Qed.

Lemma evicted_length : length (evicted cache) = (size cache - maxCacheSize)%nat.
Proof.
  unfold evicted. fold rounds. rewrite length_firstn, rounds_length. lia.
Qed.

Lemma evicted_NoDup : NoDup (evicted cache).
Proof.
  pose proof rounds_NoDup as H. rewrite evicted_rounds in H.
  by apply NoDup_app in H as [H _].
Qed.

Lemma evicted_cached (k : N) : k ∈ evicted cache → is_Some (cache !! k).
Proof.
  intros H. apply elem_of_rounds. rewrite evicted_rounds. apply elem_of_app. by left.
Qed.

(** The rounds deleted are smaller than every round kept. *)
Lemma evicted_smallest (k k' : N) :
  k ∈ evicted cache → is_Some (cache !! k') → k' ∉ evicted cache → (k < k')%N.
Proof.
  intros Hk Hk' Hkept.
  apply elem_of_rounds in Hk'. rewrite evicted_rounds in Hk'.
  apply elem_of_app in Hk' as [Hk' | Hk']; [done |].
  pose proof rounds_sorted as Hs. rewrite evicted_rounds in Hs.
  pose proof (StronglySorted_app_1_elem_of _ _ _ _ _ Hs Hk Hk') as Hle.
  pose proof rounds_NoDup as Hnd. rewrite evicted_rounds in Hnd.
  apply NoDup_app in Hnd as (_ & Hdisj & _).
  assert (k ≠ k') by (intros ->; by apply (Hdisj k')).
  lia.
Qed.

End Rounds.

Lemma lookup_fold_delete (l : list N) (m : gmap N Result) (k : N) :
  fold_left (fun m r => delete r m) l m !! k =
    if decide (k ∈ l) then None else m !! k.
Proof.
  revert m. induction l as [| r l IH]; intros m; cbn [fold_left].
  - destruct (decide (k ∈ [])) as [H | _]; [by apply not_elem_of_nil in H | done].
  - rewrite IH.
    destruct (decide (k ∈ l)) as [Hin | Hnin], (decide (k ∈ r :: l)) as [Hin' | Hnin'].
    + reflexivity.
    + exfalso. apply Hnin'. by right.
    + apply elem_of_cons in Hin' as [-> | Hin']; [apply lookup_delete_eq | done].
    + apply lookup_delete_ne. intros ->. apply Hnin'. by left.
Qed.

Lemma size_fold_delete (l : list N) (m : gmap N Result) :
  NoDup l → (∀ k, k ∈ l → is_Some (m !! k)) →
  size (fold_left (fun m r => delete r m) l m) = (size m - length l)%nat.
Proof.
  revert m. induction l as [| r l IH]; intros m Hnd Hin; simpl; [lia |].
  apply NoDup_cons in Hnd as [Hr Hnd].
  destruct (Hin r) as [v Hv]; [by left |].
  rewrite IH; [| done |].
  - rewrite (map_size_delete_Some r m) by eauto.
    assert (size m ≠ 0%nat) by (intros H0; apply map_size_empty_iff in H0; by subst m).
    lia.
  - intros k Hk. rewrite lookup_delete_ne by (intros ->; done). apply Hin. by right.
Qed.

Lemma cleanCache_fold (cache : gmap N Result) :
  cleanCache cache = fold_left (fun m r => delete r m) (evicted cache) cache.
Proof.
  unfold cleanCache, evicted.
  destruct (Nat.ltb_spec maxCacheSize (size cache)) as [Hgt | Hle]; [reflexivity |].
  by replace (size cache - maxCacheSize)%nat with 0%nat by lia.
Qed.

Lemma cleanCache_lookup (cache : gmap N Result) (k : N) :
  cleanCache cache !! k = if decide (k ∈ evicted cache) then None else cache !! k.
Proof. rewrite cleanCache_fold. apply lookup_fold_delete. Qed.

(** After the cleaning the cache holds at most [maxCacheSize] records. *)
Lemma cleanCache_size (cache : gmap N Result) :
  size (cleanCache cache) = Nat.min (size cache) maxCacheSize.
Proof.
  rewrite cleanCache_fold, size_fold_delete.
  - rewrite evicted_length. lia.
  - apply evicted_NoDup.
  - apply evicted_cached.
Qed.

(** The greatest round of a cache survives the cleaning. *)
Lemma cleanCache_keeps_greatest (cache : gmap N Result) (k : N) (v : Result) :
  cache !! k = Some v →
  (∀ k' v', cache !! k' = Some v' → (k' <= k)%N) →
  cleanCache cache !! k = Some v.
Proof.
  intros Hk Hmax. rewrite cleanCache_lookup.
  destruct (decide (k ∈ evicted cache)) as [Hin | Hnin]; [| exact Hk].
  exfalso.
  (* some round is kept, and it would be greater than [k] *)
  assert (Hkept : ∃ k', is_Some (cache !! k') ∧ k' ∉ evicted cache).
  { pose proof (cleanCache_size cache) as Hsz.
    assert (Hpos : size (cleanCache cache) ≠ 0%nat).
    { rewrite Hsz. unfold maxCacheSize.
      assert (size cache ≠ 0%nat)
        by (intros H0; apply map_size_empty_iff in H0; by subst cache).
      lia. }
    destruct (map_choose (cleanCache cache)) as (k' & v' & Hk').
    { intros He. apply Hpos. by rewrite He, map_size_empty. }
    rewrite cleanCache_lookup in Hk'.
    destruct (decide (k' ∈ evicted cache)); [done |]. exists k'. eauto. }
  destruct Hkept as (k' & [v' Hv'] & Hk').
  pose proof (evicted_smallest cache k k' Hin (ltac:(eauto)) Hk') as Hlt.
  specialize (Hmax k' v' Hv'). lia.
Qed.

(** The refresh path keeps the bound: whatever beacon a tick delivers, a
    cache of at most [maxCacheSize] records stays so, and a tick that stores
    its beacon leaves at most [maxCacheSize] records whatever the size was;
    the records it removes are those of [evicted], the smallest rounds. *)
Lemma fetchLatestBeacon_bounded (dm dm' : DrandManager) (resp : response) (e : option error) :
  fetchLatestBeacon dm resp = Some (e, dm') →
  (size (beaconCache dm) <= maxCacheSize)%nat →
  (size (beaconCache dm') <= maxCacheSize)%nat.
Proof.
  unfold fetchLatestBeacon. intros H Hsz.
  destruct (client dm); [| done]. destruct resp as [result | cause]; [| by simplify_eq].
  destruct (match latestBeacon dm with
            | Some lb => (GetRound result <=? GetRound lb)%N
            | None => false
            end); simplify_eq; [done |].
  simpl. rewrite cleanCache_size. lia.
Qed.

Lemma fetchLatestBeacon_evicts (dm dm' : DrandManager) (result : Result) (e : option error) :
  fetchLatestBeacon dm (inl result) = Some (e, dm') →
  latestBeacon dm' ≠ latestBeacon dm →
  let cache := <[GetRound result := result]> (beaconCache dm) in
  (size (beaconCache dm') <= maxCacheSize)%nat ∧
  (∀ k, beaconCache dm' !! k = if decide (k ∈ evicted cache) then None else cache !! k) ∧
  (∀ k k', k ∈ evicted cache → is_Some (beaconCache dm' !! k') → (k < k')%N).
Proof.
  intros H Hnew cache. unfold fetchLatestBeacon in H.
  destruct (client dm); [| done].
  destruct (match latestBeacon dm with
            | Some lb => (GetRound result <=? GetRound lb)%N
            | None => false
            end); simplify_eq; try done.
  simpl. fold cache. split; [| split].
  - rewrite cleanCache_size. lia.
  - apply cleanCache_lookup.
  - intros k k' Hk Hk'. rewrite cleanCache_lookup in Hk'.
    destruct (decide (k' ∈ evicted cache)) as [| Hkept]; [by destruct Hk' |].
    by apply (evicted_smallest cache).
Qed.

(** A request by round that is answered by the network adds its record and
    removes none. *)
Lemma GetRandomnessByRound_grows (dm dm' : DrandManager) (round : N) (beacon : Result)
    (r : result (list byte)) :
  beaconCache dm !! round = None →
  GetRandomnessByRound dm round (inl beacon) = Some (r, dm') →
  size (beaconCache dm') = S (size (beaconCache dm)).
Proof.
  unfold GetRandomnessByRound. intros Hmiss H. rewrite Hmiss in H.
  destruct (client dm); [| done]. simplify_eq. simpl.
  by apply map_size_insert_None.
Qed.

(** Requests by round for rounds that are not cached, each answered by the
    network, add one record each. *)
Lemma run_requests (n start : nat) (dm : DrandManager) :
  client dm ≠ None →
  (∀ k, (start <= k)%nat → beaconCache dm !! N.of_nat k = None) →
  ∃ dm', run dm (map (fun k => ByRound (N.of_nat k) (inl (sampleBeacon (N.of_nat k))))
                      (seq start n)) = Some dm' ∧
         size (beaconCache dm') = (size (beaconCache dm) + n)%nat.
Proof.
  revert start dm. induction n as [| n IH]; intros start dm Hclient Hfree.
  - exists dm. split; [reflexivity | simpl; lia].
  - cbn [seq map run step]. unfold GetRandomnessByRound.
    rewrite (Hfree start) by lia.
    destruct (client dm) as [c |] eqn:Hc; [| done]. cbn [fmap option_fmap option_map snd].
    edestruct (IH (S start)) as (dm' & Hrun & Hsize); [| | exists dm'; split; [exact Hrun |]].
    + done.
    + intros k Hk. simpl. rewrite lookup_insert_ne by lia. apply Hfree. lia.
    + rewrite Hsize. simpl. rewrite map_size_insert_None by (apply Hfree; lia). lia.
Qed.

(** C4, on the code: [n] requests by round, for the rounds 1 to [n] and each
    answered by the network, leave [n] records in the cache, since
    [GetRandomnessByRound] stores without cleaning; 101 requests leave 101
    records, one more than [maxCacheSize]. *)
Theorem requests_exceed_maxCacheSize :
  (∀ n, ∃ dm, run connected (requests n) = Some dm ∧ size (beaconCache dm) = n) ∧
  ∃ dm, run connected (requests 101) = Some dm ∧
        size (beaconCache dm) = 101%nat ∧
        (maxCacheSize < size (beaconCache dm))%nat.
Proof.
  assert (H : ∀ n, ∃ dm, run connected (requests n) = Some dm ∧ size (beaconCache dm) = n).
  { intros n. destruct (run_requests n 1 connected) as (dm & Hrun & Hsize).
    - done.
    - intros k _. apply lookup_empty.
    - exists dm. split; [exact Hrun |]. rewrite Hsize. simpl. by rewrite map_size_empty. }
  split; [exact H |].
  destruct (H 101%nat) as (dm & Hrun & Hsize).
  exists dm. split; [exact Hrun |]. split; [exact Hsize |]. rewrite Hsize. unfold maxCacheSize. lia.
Qed.

(** ** The latest beacon *)

Lemma fetchLatestBeacon_refreshed (dm dm' : DrandManager) (resp : response)
    (e : option error) :
  refreshed dm → fetchLatestBeacon dm resp = Some (e, dm') → refreshed dm'.
Proof.
  intros (Hclient & Hgreatest & Hnone). unfold fetchLatestBeacon.
  destruct (client dm) as [c |] eqn:Hc; [| done].
  destruct resp as [beacon | cause]; [| intros H; simplify_eq; by rewrite <- Hc in * ].
  destruct (latestBeacon dm) as [lb |] eqn:Hlb.
  - destruct (N.leb_spec (GetRound beacon) (GetRound lb)) as [Hstale | Hnew];
      intros H; simplify_eq.
    { unfold refreshed. by rewrite Hc, Hlb. }
    destruct (Hgreatest lb Hlb) as [_ Hmax].
    assert (Hle : ∀ k v, <[GetRound beacon := beacon]> (beaconCache dm) !! k = Some v →
                         (k <= GetRound beacon)%N).
    { intros k v Hk. destruct (decide (GetRound beacon = k)) as [<- | Hne]; [lia |].
      rewrite lookup_insert_ne in Hk by done. specialize (Hmax k v Hk). lia. }
    split; [done |]. split; [| done].
    intros lb' Hlb'. simpl in Hlb'. simplify_eq. simpl. split.
    + apply cleanCache_keeps_greatest; [apply lookup_insert_eq | exact Hle].
    + intros k v Hk. rewrite cleanCache_lookup in Hk.
      destruct (decide (k ∈ evicted _)); [done |]. by eapply Hle.
  - intros H; simplify_eq. rewrite (Hnone eq_refl).
    assert (Hle : ∀ k v, <[GetRound beacon := beacon]> (∅ : gmap N Result) !! k = Some v →
                         (k <= GetRound beacon)%N).
    { intros k v Hk. destruct (decide (GetRound beacon = k)) as [<- | Hne]; [lia |].
      by rewrite lookup_insert_ne, lookup_empty in Hk. }
    split; [done |]. split; [| done].
    intros lb' Hlb'. simpl in Hlb'. simplify_eq. simpl. split.
    + apply cleanCache_keeps_greatest; [apply lookup_insert_eq | exact Hle].
    + intros k v Hk. rewrite cleanCache_lookup in Hk.
      destruct (decide (k ∈ evicted _)); [done |]. by eapply Hle.
Qed.

Lemma run_ticks_refreshed (resps : list response) (dm : DrandManager) :
  refreshed dm → ∃ dm', run dm (map Tick resps) = Some dm' ∧ refreshed dm'.
Proof.
  revert dm. induction resps as [| resp resps IH]; intros dm Hdm.
  - by exists dm.
  - cbn [map run step].
    destruct (fetchLatestBeacon dm resp) as [[e dm1] |] eqn:Hfetch.
    + simpl. apply IH. by eapply fetchLatestBeacon_refreshed.
    + exfalso. destruct Hdm as (Hclient & _). unfold fetchLatestBeacon in Hfetch.
      destruct (client dm); [| done]. destruct resp; [| done].
      by destruct (match latestBeacon dm with Some _ => _ | None => _ end).
Qed.

(** Every operation of a manager with a client runs, keeps the client, and
    moves [latestBeacon] only by a tick that delivers a beacon. *)
Lemma step_latest (dm : DrandManager) (o : op) :
  client dm ≠ None →
  ∃ dm', step dm o = Some dm' ∧ client dm' ≠ None ∧
         latestBeacon dm' = fold_left newer (delivered [o]) (latestBeacon dm).
Proof.
  intros Hclient. destruct (client dm) as [c |] eqn:Hc; [| done].
  destruct o as [resp | round resp | | | |]; cbn [step delivered fold_left].
  - unfold fetchLatestBeacon. rewrite Hc. destruct resp as [beacon | cause]; simpl.
    + unfold newer. destruct (latestBeacon dm) as [lb |] eqn:Hlb.
      * destruct (GetRound beacon <=? GetRound lb)%N; simpl;
          eexists; (split; [reflexivity |]); simpl; by rewrite ?Hc, ?Hlb.
      * eexists; (split; [reflexivity |]); simpl; by rewrite ?Hc.
    + exists dm. by rewrite Hc.
  - unfold GetRandomnessByRound. rewrite Hc.
    destruct (beaconCache dm !! round); simpl; [exists dm; by rewrite Hc |].
    destruct resp; simpl; eexists; (split; [reflexivity |]); simpl; by rewrite ?Hc.
  - exists dm. by rewrite Hc.
  - eexists; split; [reflexivity |]. unfold StartBackgroundFetching.
    destruct (isRunning dm); simpl; by rewrite ?Hc.
  - unfold StopBackgroundFetching.
    destruct (isRunning dm); simpl; eexists; (split; [reflexivity |]); simpl;
      by rewrite ?Hc.
  - unfold Close, StopBackgroundFetching.
    destruct (isRunning dm); simpl; rewrite Hc; simpl;
      eexists; (split; [reflexivity |]); simpl; done.
Qed.

Lemma delivered_cons (o : op) (ops : list op) :
  delivered (o :: ops) = delivered [o] ++ delivered ops.
Proof. destruct o as [[beacon | cause] | | | | |]; reflexivity. Qed.

Lemma run_latest (ops : list op) (dm : DrandManager) :
  client dm ≠ None →
  ∃ dm', run dm ops = Some dm' ∧ client dm' ≠ None ∧
         latestBeacon dm' = fold_left newer (delivered ops) (latestBeacon dm).
Proof.
  revert dm. induction ops as [| o ops IH]; intros dm Hclient.
  - by exists dm.
  - destruct (step_latest dm o Hclient) as (dm1 & Hstep & Hc1 & Hl1).
    destruct (IH dm1 Hc1) as (dm' & Hrun & Hc' & Hl').
    exists dm'. cbn [run]. rewrite Hstep. split; [exact Hrun |]. split; [exact Hc' |].
    by rewrite Hl', Hl1, (delivered_cons o ops), fold_left_app.
Qed.

(** The beacon that a sequence of deliveries leaves as the latest has the
    greatest round of all, and is one of them (or the one before them). *)
Lemma fold_newer_greatest (l : list Result) (start : option Result) :
  match fold_left newer l start with
  | None => start = None ∧ l = []
  | Some lb =>
      (start = Some lb ∨ In lb l) ∧
      (∀ b, In b l → (GetRound b <= GetRound lb)%N) ∧
      (∀ s, start = Some s → (GetRound s <= GetRound lb)%N)
  end.
Proof.
  revert start. induction l as [| b l IH]; intros start.
  - simpl. destruct start as [s |]; [| done].
    split; [by left |]. split; [intros b [] |]. intros s' H. simplify_eq. lia.
  - cbn [fold_left]. specialize (IH (newer start b)).
    destruct (fold_left newer l (newer start b)) as [lb |].
    + destruct IH as (Hin & Hall & Hstart). unfold newer in Hin, Hstart.
      destruct start as [s |].
      * destruct (N.leb_spec (GetRound b) (GetRound s)) as [Hle | Hgt].
        -- specialize (Hstart s eq_refl). split; [| split].
           ++ destruct Hin as [Hin | Hin]; [by left | right; by right].
           ++ intros b' [<- | Hb']; [lia | by apply Hall].
           ++ intros s' H. by simplify_eq.
        -- specialize (Hstart b eq_refl). split; [| split].
           ++ right. destruct Hin as [Hin | Hin]; [left; congruence | by right].
           ++ intros b' [<- | Hb']; [lia | by apply Hall].
           ++ intros s' H. simplify_eq. lia.
      * specialize (Hstart b eq_refl). split; [| split].
        -- right. destruct Hin as [Hin | Hin]; [left; congruence | by right].
        -- intros b' [<- | Hb']; [lia | by apply Hall].
        -- intros s' H. discriminate.
    + destruct IH as [Hnone _]. unfold newer in Hnone.
      destruct start as [s |]; [destruct (GetRound b <=? GetRound s)%N |]; discriminate.
Qed.

Lemma connected_refreshed : refreshed connected.
Proof.
  split; [done |]. split; [| done]. intros lb H. discriminate H.
Qed.

(** C5, as it is stated, fails: after a tick that delivers round 5 and a
    request that fetches round 10, the cache holds round 10 while the latest
    beacon is still the one of round 5. *)
Lemma latest_not_greatest_after_request :
  ∃ dm, run connected outOfOrder = Some dm ∧
        latestBeacon dm = Some (sampleBeacon 5) ∧
        beaconCache dm !! 10%N = Some (sampleBeacon 10) ∧
        GetLatestRandomness dm = Ok (GetRandomness (sampleBeacon 5), 5%N) ∧
        ¬ latestIsGreatest dm.
Proof.
  eexists. split; [vm_compute; reflexivity |].
  split; [vm_compute; reflexivity |]. split; [vm_compute; reflexivity |].
  split; [vm_compute; reflexivity |].
  intros H. destruct (H (sampleBeacon 5)) as [_ Hmax]; [vm_compute; reflexivity |].
  specialize (Hmax 10%N (sampleBeacon 10)).
  assert (Hle : (10 <= GetRound (sampleBeacon 5))%N)
    by (apply Hmax; vm_compute; reflexivity).
  simpl in Hle. lia.
Qed.

(** C5, amended.  After any sequence of ticks of the refresh path alone, the
    latest beacon, when there is one, is the record of the cache with the
    greatest round, and [GetLatestRandomness] returns it.  After any sequence
    of operations, requests by round included, the latest beacon is a beacon
    that a tick delivered, its round is the greatest of the rounds that ticks
    delivered, and [GetLatestRandomness] returns it; there is none exactly
    when no tick delivered one.  A request by round never changes the latest
    beacon, and a tick that delivers a round smaller than or equal to the
    round of the latest beacon changes nothing. *)
Theorem latestBeacon_greatest_delivered :
  (∀ resps : list response, ∃ dm,
     run connected (map Tick resps) = Some dm ∧ latestIsGreatest dm ∧
     ∀ lb, latestBeacon dm = Some lb →
           GetLatestRandomness dm = Ok (GetRandomness lb, GetRound lb)) ∧
  (∀ ops : list op, ∃ dm,
     run connected ops = Some dm ∧
     match latestBeacon dm with
     | None => delivered ops = [] ∧ GetLatestRandomness dm = Err ErrNoBeacon
     | Some lb =>
         In lb (delivered ops) ∧
         (∀ b, In b (delivered ops) → (GetRound b <= GetRound lb)%N) ∧
         GetLatestRandomness dm = Ok (GetRandomness lb, GetRound lb)
     end) ∧
  (∀ dm round resp r dm',
     GetRandomnessByRound dm round resp = Some (r, dm') →
     latestBeacon dm' = latestBeacon dm) ∧
  (∀ dm lb beacon,
     client dm ≠ None → latestBeacon dm = Some lb →
     (GetRound beacon <= GetRound lb)%N →
     fetchLatestBeacon dm (inl beacon) = Some (None, dm)).
Proof.
  split; [| split; [| split]].
  - intros resps.
    destruct (run_ticks_refreshed resps connected connected_refreshed)
      as (dm & Hrun & _ & Hgreatest & _).
    exists dm. split; [exact Hrun |]. split; [exact Hgreatest |].
    intros lb Hlb. unfold GetLatestRandomness. by rewrite Hlb.
  - intros ops. destruct (run_latest ops connected) as (dm & Hrun & _ & Hlatest); [done |].
    exists dm. split; [exact Hrun |].
    pose proof (fold_newer_greatest (delivered ops) (latestBeacon connected)) as Hfold.
    rewrite <- Hlatest in Hfold. unfold GetLatestRandomness.
    destruct (latestBeacon dm) as [lb |].
    + destruct Hfold as ([Hin | Hin] & Hall & _); [discriminate Hin |]. done.
    + destruct Hfold as [_ Hnil]. done.
  - intros dm round resp r dm'. unfold GetRandomnessByRound.
    destruct (beaconCache dm !! round); [intros H; by simplify_eq |].
    destruct (client dm); [| done].
    destruct resp; intros H; by simplify_eq.
  - intros dm lb beacon Hclient Hlb Hle. unfold fetchLatestBeacon.
    destruct (client dm); [| done]. rewrite Hlb.
    by destruct (N.leb_spec (GetRound beacon) (GetRound lb)); [| lia].
Qed.

Lemma latestBeacon_greatest_delivered_witness :
  client sampleManager ≠ None ∧
  latestBeacon sampleManager = Some (sampleBeacon 7) ∧
  (GetRound (sampleBeacon 3) <= GetRound (sampleBeacon 7))%N ∧
  fetchLatestBeacon sampleManager (inl (sampleBeacon 3)) = Some (None, sampleManager).
Proof.
  assert (H1 : client sampleManager ≠ None) by discriminate.
  assert (H2 : latestBeacon sampleManager = Some (sampleBeacon 7)) by reflexivity.
  assert (H3 : (GetRound (sampleBeacon 3) <= GetRound (sampleBeacon 7))%N) by (simpl; lia).
  split; [exact H1 |]. split; [exact H2 |]. split; [exact H3 |].
  exact (proj2 (proj2 (proj2 latestBeacon_greatest_delivered))
           sampleManager (sampleBeacon 7) (sampleBeacon 3) H1 H2 H3).
Defined.

(** ** Closing the manager *)

Lemma send_failed (c : Client) (pending : list response) :
  Forall failed pending → send (Some c) pending = Returns tt.
Proof.
  induction 1 as [| resp rest [cause ->] _ IH]; [reflexivity | exact IH].
Qed.

Lemma StopBackgroundFetching_Returns (dm dm' : DrandManager) (pending : list response) :
  StopBackgroundFetching dm pending = Returns dm' →
  client dm' = client dm ∧ latestBeacon dm' = latestBeacon dm ∧
  beaconCache dm' = beaconCache dm ∧ isRunning dm' = false.
Proof.
  unfold StopBackgroundFetching. destruct (isRunning dm) eqn:Hrun; simpl.
  - destruct (send (client dm) pending); intros H; by simplify_eq.
  - intros H. by simplify_eq.
Qed.

Lemma Close_Returns (dm dm' : DrandManager) (pending : list response) :
  Close dm pending = Returns dm' →
  client dm' = (fun _ => {| closed := true |}) <$> client dm ∧
  latestBeacon dm' = latestBeacon dm ∧
  beaconCache dm' = beaconCache dm ∧ isRunning dm' = false.
Proof.
  unfold Close. destruct (isRunning dm) eqn:Hrun.
  - destruct (StopBackgroundFetching dm pending) as [dm1 | |] eqn:Hstop; [| done | done].
    destruct (StopBackgroundFetching_Returns dm dm1 pending Hstop) as (Hc & Hl & Hb & Hr).
    intros H. simplify_eq. rewrite Hc.
    destruct (client dm); simpl; by rewrite ?Hc.
  - intros H. simplify_eq. destruct (client dm) eqn:Hc; simpl; by rewrite ?Hc.
Qed.

Lemma stopped_Next (p p' : Process) (o : outcome DrandManager) :
  stopped p o = Next p' →
  o = Returns (manager p') ∧ fetching p' = fetching p ∧
  goroutines p' = (if isRunning (manager p) then pred (goroutines p) else goroutines p).
Proof.
  unfold stopped.
  destruct (isRunning (manager p) && (goroutines p =? 0)%nat); [done |].
  destruct o as [dm | |]; intros H; by simplify_eq.
Qed.

Lemma finish_subseteq (round k : N) (rounds : list N) :
  k ∈ finish round rounds → k ∈ rounds.
Proof.
  induction rounds as [| r rest IH]; [done |]. cbn [finish].
  destruct (r =? round)%N.
  - intros H. by right.
  - intros [-> | H]%elem_of_cons; [left | right; by apply IH].
Qed.

(** An event that is no delivery of the loop leaves the latest beacon, the
    rounds of the cache, and the record of every round for which no call is
    in flight. *)
Lemma exec_quiet (p p' : Process) (e : event) :
  delivers e = false → exec p e = Next p' →
  latestBeacon (manager p') = latestBeacon (manager p) ∧
  (∀ k, is_Some (beaconCache (manager p) !! k) →
        is_Some (beaconCache (manager p') !! k)) ∧
  (∀ k v, beaconCache (manager p) !! k = Some v → k ∉ fetching p →
          beaconCache (manager p') !! k = Some v ∧ k ∉ fetching p').
Proof.
  intros Hq Hexec.
  destruct e as [[beacon | cause] | | round | round resp | | pending | pending];
    cbn [exec] in Hexec; try discriminate Hq.
  - destruct (goroutines p =? 0)%nat; [done |]. unfold fetchLatestBeacon in Hexec.
    destruct (client (manager p)); simpl in Hexec; by simplify_eq.
  - by simplify_eq.
  - destruct (beaconCache (manager p) !! round) as [hit |] eqn:Hhit; [by simplify_eq |].
    destruct (client (manager p)); [| done]. simplify_eq. simpl.
    split; [done |]. split; [done |]. intros k v Hk Hnot. split; [done |].
    intros [-> | Hin]%elem_of_cons; [congruence | done].
  - destruct (bool_decide (round ∈ fetching p)) eqn:Hin; [| done].
    apply bool_decide_eq_true in Hin. simplify_eq. simpl.
    assert (Hfin : ∀ k, k ∉ fetching p → k ∉ finish round (fetching p)).
    { intros k Hnot Hk. by apply Hnot, (finish_subseteq round). }
    destruct resp as [result | cause]; simpl.
    + split; [done |]. split.
      * intros k Hk. destruct (decide (round = k)) as [<- | Hne].
        -- rewrite lookup_insert_eq. by eexists.
        -- by rewrite lookup_insert_ne.
      * intros k v Hk Hnot. split; [| by apply Hfin].
        rewrite lookup_insert_ne; [done |]. intros <-. done.
    + split; [done |]. split; [done |]. intros k v Hk Hnot. split; [done | by apply Hfin].
  - simplify_eq. unfold StartBackgroundFetching. simpl.
    by destruct (isRunning (manager p)).
  - destruct (stopped_Next _ _ _ Hexec) as (Hret & Hf & _).
    destruct (StopBackgroundFetching_Returns _ _ _ Hret) as (_ & Hl & Hb & _).
    rewrite Hl, Hb, Hf. done.
  - destruct (stopped_Next _ _ _ Hexec) as (Hret & Hf & _).
    destruct (Close_Returns _ _ _ Hret) as (_ & Hl & Hb & _).
    rewrite Hl, Hb, Hf. done.
Qed.

(** Once no goroutine is left and the flag is down, no event but a new
    [StartBackgroundFetching] brings a goroutine back, and a closed client
    stays closed. *)
Lemma exec_no_goroutine (p p' : Process) (e : event) :
  goroutines p = 0%nat → isRunning (manager p) = false →
  (∀ c, client (manager p) = Some c → closed c = true) →
  starts e = false → exec p e = Next p' →
  goroutines p' = 0%nat ∧ isRunning (manager p') = false ∧
  client (manager p') = client (manager p) ∧ delivers e = false.
Proof.
  intros Hg Hrun Hclosed Hs Hexec.
  destruct e as [resp | | round | round resp | | pending | pending];
    cbn [exec] in Hexec; try discriminate Hs.
  - by rewrite Hg in Hexec.
  - by simplify_eq.
  - destruct (beaconCache (manager p) !! round); [by simplify_eq |].
    destruct (client (manager p)) eqn:Hc; [| done]. simplify_eq. simpl. by rewrite Hc.
  - destruct (bool_decide (round ∈ fetching p)); [| done]. simplify_eq. simpl.
    by destruct resp.
  - destruct (stopped_Next _ _ _ Hexec) as (Hret & _ & Hn).
    destruct (StopBackgroundFetching_Returns _ _ _ Hret) as (Hc & _ & _ & Hr).
    rewrite Hrun in Hn. by rewrite Hn, Hc.
  - destruct (stopped_Next _ _ _ Hexec) as (Hret & _ & Hn).
    destruct (Close_Returns _ _ _ Hret) as (Hc & _ & _ & Hr).
    rewrite Hrun in Hn. rewrite Hn, Hc. split; [done |]. split; [done |]. split; [| done].
    destruct (client (manager p)) as [[cl] |] eqn:E; [| done].
    simpl. specialize (Hclosed _ eq_refl). simpl in Hclosed. by subst cl.
Qed.

Lemma execs_no_goroutine (trace : list event) (p p' : Process) :
  goroutines p = 0%nat → isRunning (manager p) = false →
  (∀ c, client (manager p) = Some c → closed c = true) →
  Forall (fun e => starts e = false) trace → execs p trace = Next p' →
  goroutines p' = 0%nat ∧ client (manager p') = client (manager p) ∧
  latestBeacon (manager p') = latestBeacon (manager p) ∧
  (∀ k, is_Some (beaconCache (manager p) !! k) →
        is_Some (beaconCache (manager p') !! k)) ∧
  (∀ k v, beaconCache (manager p) !! k = Some v → k ∉ fetching p →
          beaconCache (manager p') !! k = Some v).
Proof.
  revert p. induction trace as [| e trace IH]; intros p Hg Hrun Hclosed Hs Hexec.
  - cbn [execs] in Hexec. by simplify_eq.
  - cbn [execs] in Hexec. destruct (exec p e) as [p1 | | |] eqn:He; try done.
    apply Forall_cons in Hs as [Hs1 Hs2].
    destruct (exec_no_goroutine p p1 e Hg Hrun Hclosed Hs1 He) as (Hg1 & Hrun1 & Hc1 & Hq).
    destruct (exec_quiet p p1 e Hq He) as (Hl1 & Hk1 & Hv1).
    assert (Hclosed1 : ∀ c, client (manager p1) = Some c → closed c = true).
    { intros c Hc. apply Hclosed. by rewrite <- Hc1. }
    destruct (IH p1 Hg1 Hrun1 Hclosed1 Hs2 Hexec) as (Hg' & Hc' & Hl' & Hk' & Hv').
    split; [done |]. split; [congruence |]. split; [congruence |]. split.
    + intros k Hk. by apply Hk', Hk1.
    + intros k v Hk Hnot. destruct (Hv1 k v Hk Hnot) as [Hk1' Hnot1]. by apply Hv'.
Qed.

(** The flag follows the goroutines through every event. *)
Lemma exec_steady (p p' : Process) (e : event) :
  steady p → exec p e = Next p' → steady p'.
Proof.
  unfold steady. intros Hp Hexec.
  destruct e as [resp | | round | round resp | | pending | pending]; cbn [exec] in Hexec.
  - destruct (goroutines p =? 0)%nat; [done |]. unfold fetchLatestBeacon in Hexec.
    destruct (client (manager p)); [| done].
    destruct resp as [beacon | cause]; [| simpl in Hexec; by simplify_eq].
    destruct (match latestBeacon (manager p) with Some _ => _ | None => _ end);
      simpl in Hexec; by simplify_eq.
  - by simplify_eq.
  - destruct (beaconCache (manager p) !! round); [by simplify_eq |].
    destruct (client (manager p)); by simplify_eq.
  - destruct (bool_decide (round ∈ fetching p)); [| done]. simplify_eq. simpl.
    by destruct resp.
  - simplify_eq. simpl. unfold StartBackgroundFetching.
    destruct (isRunning (manager p)) eqn:Hrun; simpl; [by rewrite Hrun | by rewrite Hp].
  - destruct (stopped_Next _ _ _ Hexec) as (Hret & _ & Hn).
    destruct (StopBackgroundFetching_Returns _ _ _ Hret) as (_ & _ & _ & Hr).
    rewrite Hr, Hn, Hp. by destruct (isRunning (manager p)).
  - destruct (stopped_Next _ _ _ Hexec) as (Hret & _ & Hn).
    destruct (Close_Returns _ _ _ Hret) as (_ & _ & _ & Hr).
    rewrite Hr, Hn, Hp. by destruct (isRunning (manager p)).
Qed.

Lemma execs_steady (trace : list event) (p p' : Process) :
  steady p → execs p trace = Next p' → steady p'.
Proof.
  revert p. induction trace as [| e trace IH]; intros p Hp Hexec.
  - cbn [execs] in Hexec. by simplify_eq.
  - cbn [execs] in Hexec. destruct (exec p e) as [p1 | | |] eqn:He; try done.
    eapply IH; [| exact Hexec]. by eapply exec_steady.
Qed.

Lemma boot_steady (dm : DrandManager) : isRunning dm = false → steady (boot dm).
Proof. intros H. unfold steady, boot. simpl. by rewrite H. Qed.

(** While a beacon that the loop has fetched waits for [dm.mutex], neither
    [StopBackgroundFetching] nor [Close] returns. *)
Lemma stop_waits_for_tick (p : Process) (errors rest : list response) (beacon : Result) :
  isRunning (manager p) = true → client (manager p) ≠ None → Forall failed errors →
  exec p (CallStop (errors ++ inl beacon :: rest)) = Hang ∧
  exec p (CallClose (errors ++ inl beacon :: rest)) = Hang.
Proof.
  intros Hrun Hclient Herr.
  assert (Hsend : send (client (manager p)) (errors ++ inl beacon :: rest) = Blocks).
  { destruct (client (manager p)) as [c |]; [| done].
    induction Herr as [| resp errors [cause ->] _ IH]; [reflexivity | exact IH]. }
  cbn [exec]. unfold stopped, Close, StopBackgroundFetching. rewrite Hrun. simpl.
  rewrite Hsend. by destruct (goroutines p =? 0)%nat.
Qed.

(** C7, as it is stated, fails.  The loop is started and brings the beacon
    of round 7; then [Close] is called while the loop waits at its [select],
    and returns.  After that the manager still answers [GetLatestRandomness]
    with its latest beacon and [GetRandomnessByRound] with the cached
    randomness of the round; neither call fails. *)
Lemma Close_then_reads_succeed :
  execs (boot connected) [CallStart; TickerC (inl (sampleBeacon 7))] = Next sampleProcess ∧
  ∃ p', exec sampleProcess (CallClose []) = Next p' ∧
        client (manager p') = Some {| closed := true |} ∧
        GetLatestRandomness (manager p') = Ok (GetRandomness (sampleBeacon 7), 7%N) ∧
        GetRandomnessByRound (manager p') 7 (inr "closed"%string)
          = Some (Ok (GetRandomness (sampleBeacon 7)), manager p') ∧
        ¬ (∃ e, GetLatestRandomness (manager p') = Err e) ∧
        ¬ (∃ e dm, GetRandomnessByRound (manager p') 7 (inr "closed"%string)
                   = Some (Err e, dm)).
Proof.
  split; [vm_compute; reflexivity |].
  eexists. split; [reflexivity |]. split; [reflexivity |].
  assert (H1 : ∀ dm, latestBeacon dm = Some (sampleBeacon 7) →
                     GetLatestRandomness dm = Ok (GetRandomness (sampleBeacon 7), 7%N)).
  { intros dm H. unfold GetLatestRandomness. by rewrite H. }
  assert (H2 : ∀ dm resp, beaconCache dm !! 7%N = Some (sampleBeacon 7) →
                 GetRandomnessByRound dm 7 resp
                 = Some (Ok (GetRandomness (sampleBeacon 7)), dm)).
  { intros dm resp. apply GetRandomnessByRound_hit. }
  split; [by apply H1 |]. split; [by apply H2 |]. split.
  - intros [e H]. rewrite H1 in H by reflexivity. discriminate H.
  - intros (e & dm & H). rewrite H2 in H by reflexivity. discriminate H.
Qed.

(** C7, amended.  [Close] returns when no loop is running and when the loop
    takes the signal.  When it has returned, no goroutine is left (no turn of
    the loop can follow), the client is closed, and the latest beacon and the
    cache are as they were.  [GetLatestRandomness] then returns what it
    returned before, and fails only for want of any beacon;
    [GetRandomnessByRound] returns the cached randomness of a cached round,
    and for another round it asks the closed client: it stores and returns a
    beacon that the client still gives, fails with the error of the fetch
    otherwise, and panics when the manager never had a client.  This stays so
    through every later event short of a new [StartBackgroundFetching]: the
    latest beacon never changes and every round that was cached is answered
    from the cache, with the record it had at [Close] unless a call for that
    round was in flight.  No error says that the manager is closed. *)
Theorem Close_keeps_cache (p : Process) (pending : list response) :
  steady p →
  ((isRunning (manager p) = false ∨ pending = [] ∨
    (client (manager p) ≠ None ∧ Forall failed pending)) →
   ∃ p', exec p (CallClose pending) = Next p') ∧
  ∀ p', exec p (CallClose pending) = Next p' →
    (goroutines p' = 0%nat ∧ isRunning (manager p') = false ∧
     ∀ resp, exec p' (TickerC resp) = Never) ∧
    (client (manager p') = (fun _ => {| closed := true |}) <$> client (manager p) ∧
     latestBeacon (manager p') = latestBeacon (manager p) ∧
     beaconCache (manager p') = beaconCache (manager p) ∧
     fetching p' = fetching p) ∧
    (GetLatestRandomness (manager p') = GetLatestRandomness (manager p) ∧
     ∀ e, GetLatestRandomness (manager p') = Err e →
          e = ErrNoBeacon ∧ latestBeacon (manager p) = None) ∧
    (∀ round resp,
       GetRandomnessByRound (manager p') round resp =
       match beaconCache (manager p) !! round with
       | Some beacon => Some (Ok (GetRandomness beacon), manager p')
       | None =>
           match client (manager p), resp with
           | None, _ => None
           | Some _, inr cause => Some (Err (ErrFetchRound round cause), manager p')
           | Some _, inl result =>
               Some (Ok (GetRandomness result), storeRound (manager p') round result)
           end
       end) ∧
    (∀ trace p'',
       Forall (fun e => starts e = false) trace → execs p' trace = Next p'' →
       goroutines p'' = 0%nat ∧
       client (manager p'') = client (manager p') ∧
       latestBeacon (manager p'') = latestBeacon (manager p) ∧
       GetLatestRandomness (manager p'') = GetLatestRandomness (manager p) ∧
       ∀ round beacon,
         beaconCache (manager p) !! round = Some beacon →
         ∃ kept, beaconCache (manager p'') !! round = Some kept ∧
                 (round ∉ fetching p → kept = beacon) ∧
                 ∀ resp, GetRandomnessByRound (manager p'') round resp
                         = Some (Ok (GetRandomness kept), manager p'')).
Proof.
  intros Hsteady. unfold steady in Hsteady. split.
  - intros Hreturns. cbn [exec]. unfold stopped, Close, StopBackgroundFetching.
    destruct (isRunning (manager p)) eqn:Hrun.
    + rewrite Hsteady. simpl.
      assert (Hsend : send (client (manager p)) pending = Returns tt).
      { destruct Hreturns as [H | [-> | [Hc Hf]]]; [done | reflexivity |].
        destruct (client (manager p)) as [c |]; [by apply send_failed | done]. }
      rewrite Hsend. by eexists.
    + simpl. by eexists.
  - intros p' Hexec. cbn [exec] in Hexec.
    destruct (stopped_Next _ _ _ Hexec) as (Hret & Hf & Hn).
    destruct (Close_Returns _ _ _ Hret) as (Hc & Hl & Hb & Hr).
    assert (Hg : goroutines p' = 0%nat).
    { rewrite Hn, Hsteady. by destruct (isRunning (manager p)). }
    assert (Hlatest : ∀ dm, latestBeacon dm = latestBeacon (manager p) →
                            GetLatestRandomness dm = GetLatestRandomness (manager p)).
    { intros dm H. unfold GetLatestRandomness. by rewrite H. }
    split; [| split; [| split; [| split]]].
    + split; [exact Hg |]. split; [exact Hr |]. intros resp. cbn [exec]. by rewrite Hg.
    + done.
    + split; [by apply Hlatest |]. intros e. unfold GetLatestRandomness. rewrite Hl.
      destruct (latestBeacon (manager p)); intros H; by simplify_eq.
    + intros round resp. unfold GetRandomnessByRound, storeRound. rewrite <- Hb.
      destruct (beaconCache (manager p') !! round); [done |]. rewrite Hc.
      destruct (client (manager p)); [| done]. simpl. by destruct resp.
    + intros trace p'' Hs Htrace.
      assert (Hclosed : ∀ c, client (manager p') = Some c → closed c = true).
      { intros c. rewrite Hc. destruct (client (manager p)); simpl; intros H; by simplify_eq. }
      destruct (execs_no_goroutine trace p' p'' Hg Hr Hclosed Hs Htrace)
        as (Hg' & Hc' & Hl' & Hk' & Hv').
      split; [exact Hg' |]. split; [exact Hc' |]. split; [congruence |].
      split; [apply Hlatest; congruence |].
      intros round beacon Hround. rewrite <- Hb in Hround.
      destruct (Hk' round) as [kept Hkept]; [by eexists |].
      exists kept. split; [exact Hkept |]. split.
      * intros Hnot. rewrite <- Hf in Hnot. specialize (Hv' round beacon Hround Hnot).
        congruence.
      * intros resp. by apply GetRandomnessByRound_hit.
Qed.

Lemma Close_keeps_cache_witness :
  steady sampleProcess ∧
  client (manager sampleProcess) ≠ None ∧
  Forall failed [inr "timeout"%string : response] ∧
  ∃ p' p'',
    exec sampleProcess (CallClose [inr "timeout"%string]) = Next p' ∧
    execs p' [Lookup 9; CallLatest; Fetched 9 (inl (sampleBeacon 9)); Lookup 7]
      = Next p'' ∧
    goroutines p'' = 0%nat ∧
    GetLatestRandomness (manager p'') = GetLatestRandomness (manager sampleProcess) ∧
    GetRandomnessByRound (manager p'') 7 (inr "closed"%string)
      = Some (Ok (GetRandomness (sampleBeacon 7)), manager p'').
Proof.
  assert (Hsteady : steady sampleProcess) by reflexivity.
  assert (Hclient : client (manager sampleProcess) ≠ None) by discriminate.
  assert (Hfailed : Forall failed [inr "timeout"%string : response]).
  { constructor; [by eexists | constructor]. }
  split; [exact Hsteady |]. split; [exact Hclient |]. split; [exact Hfailed |].
  destruct (Close_keeps_cache sampleProcess [inr "timeout"%string] Hsteady)
    as [Hreturns Hafter].
  destruct Hreturns as [p' Hclose]; [right; right; by split |].
  destruct (Hafter p' Hclose) as (_ & (_ & _ & Hcache & Hfetching) & _ & _ & Hlater).
  assert (Hs : Forall (fun e => starts e = false)
                 [Lookup 9; CallLatest; Fetched 9 (inl (sampleBeacon 9)); Lookup 7]).
  { repeat constructor. }
  assert (Htrace : ∃ p'', execs p'
            [Lookup 9; CallLatest; Fetched 9 (inl (sampleBeacon 9)); Lookup 7] = Next p'').
  { cbn [exec] in Hclose. vm_compute in Hclose. injection Hclose as <-.
    eexists. vm_compute. reflexivity. }
  destruct Htrace as [p'' Htrace].
  destruct (Hlater _ p'' Hs Htrace) as (Hg & _ & _ & Hlatest & Hhit).
  exists p', p''. split; [exact Hclose |]. split; [exact Htrace |].
  split; [exact Hg |]. split; [exact Hlatest |].
  destruct (Hhit 7%N (sampleBeacon 7) eq_refl) as (kept & _ & Hsame & Hanswer).
  rewrite <- (Hsame ltac:(cbn [fetching sampleProcess]; apply not_elem_of_nil)).
  apply Hanswer.
Defined.

(** * Further properties *)

(** ** What the shuffle reads of its randomness *)

Lemma slice_ext (r r' : list byte) (lo : Z) :
  0 <= lo → length r' = length r →
  (∀ k, (Z.to_nat lo <= k < Z.to_nat lo + 8)%nat → r !! k = r' !! k) →
  slice r lo (lo + 8) = slice r' lo (lo + 8).
Proof.
  intros Hlo Hlen Hagree. unfold slice. rewrite Hlen.
  destruct ((0 <=? lo) && (lo <=? lo + 8) && (lo + 8 <=? Z.of_nat (length r))); [| done].
  f_equal. replace (Z.to_nat (lo + 8 - lo)) with 8%nat by lia.
  apply list_eq. intros k.
  destruct (decide (k < 8)%nat) as [Hk | Hk].
  - rewrite !lookup_take_lt, !lookup_drop by lia. apply Hagree. lia.
  - by rewrite !lookup_take_ge by lia.
Qed.

Lemma randomIndex_ext (i : Z) (r r' : list byte) :
  0 <= i → (8 <= length r)%nat → length r' = length r →
  (∀ k, (Z.to_nat (position i r) <= k < Z.to_nat (position i r) + 8)%nat →
        r !! k = r' !! k) →
  randomIndex i r = randomIndex i r'.
Proof.
  intros Hi H8 Hlen Hagree. unfold randomIndex.
  assert (Hpos : position i r' = position i r) by (unfold position; by rewrite Hlen).
  rewrite Hpos.
  destruct (position_bounds i r Hi H8) as [Hp0 _].
  by rewrite (slice_ext r r' (position i r) Hp0 Hlen Hagree).
Qed.

Lemma shuffleLoop_ext (n : nat) (s : list Card) (r r' : list byte) :
  (∀ i, 1 <= i <= Z.of_nat n → randomIndex i r = randomIndex i r') →
  shuffleLoop n s r = shuffleLoop n s r'.
Proof.
  revert s. induction n as [| n IH]; intros s Hsame; [reflexivity |].
  cbn [shuffleLoop]. rewrite <- (Hsame (Z.of_nat (S n))) by lia.
  destruct (randomIndex (Z.of_nat (S n)) r) as [j |]; [| done].
  destruct (swap s (Z.of_nat (S n)) j) as [s' |]; [| done].
  apply IH. intros i Hi. apply Hsame. lia.
Qed.

Lemma enoughRandomness_long (r : list byte) :
  (8 <= length r)%nat → enoughRandomness r = r.
Proof.
  intros H. unfold enoughRandomness.
  destruct (Nat.ltb_spec (length r) 8); [lia | reflexivity].
Qed.

(** X1. With at least eight bytes of randomness, [shuffleDeck] reads only
    the windows [randomness[pos:pos+8]] of its iterations: two randomness
    values of the same length that agree on those windows shuffle a deck to
    the same result.  In particular the last byte of a randomness longer than
    eight bytes is never read. *)
Theorem shuffleDeck_reads_windows (deck : list Card) (r r' : list byte) :
  (8 <= length r)%nat → length r' = length r →
  (∀ i k, 1 <= i < Z.of_nat (length deck) →
          (Z.to_nat (position i r) <= k < Z.to_nat (position i r) + 8)%nat →
          r !! k = r' !! k) →
  shuffleDeck deck r = shuffleDeck deck r' ∧
  (∀ i, 1 <= i < Z.of_nat (length deck) →
        (Z.to_nat (position i r) + 8 < length r)%nat ∨ length r = 8%nat).
Proof.
  intros H8 Hlen Hagree. split.
  - unfold shuffleDeck. rewrite !enoughRandomness_long by lia. rewrite copy_make.
    apply shuffleLoop_ext. intros i Hi.
    apply randomIndex_ext; [lia | done | done |].
    intros k Hk. apply (Hagree i k); lia.
  - intros i Hi. unfold position. rewrite max_spec.
    destruct (decide (length r = 8%nat)) as [-> | Hne]; [by right | left].
    rewrite Z.max_r by lia. rewrite Z.rem_mod_nonneg by lia.
    pose proof (Z.mod_pos_bound i (Z.of_nat (length r) - 8)). lia.
Qed.

Lemma shuffleDeck_reads_windows_witness :
  let r := SHA256.sum256 [] ++ [Byte.x00] in
  let r' := SHA256.sum256 [] ++ [Byte.xff] in
  (8 <= length r)%nat ∧ length r' = length r ∧
  shuffleDeck initializeDeck r = shuffleDeck initializeDeck r'.
Proof.
  intros r r'.
  assert (H8 : (8 <= length r)%nat) by (vm_compute; lia).
  assert (Hlen : length r' = length r) by reflexivity.
  split; [exact H8 |]. split; [exact Hlen |].
  refine (proj1 (shuffleDeck_reads_windows initializeDeck r r' H8 Hlen _)).
  intros i k Hi Hk.
  assert (Hpos : (Z.to_nat (position i r) + 8 < length r)%nat).
  { unfold position. rewrite max_spec.
    change (length r) with 33%nat. rewrite Z.max_r by lia.
    rewrite Z.rem_mod_nonneg by lia.
    pose proof (Z.mod_pos_bound i (Z.of_nat 33 - 8)). lia. }
  unfold r, r'. rewrite !lookup_app_l; [reflexivity | |];
    rewrite sum256_length; change (length r) with 33%nat in Hpos;
    unfold SHA256.Size; lia.
Defined.

(** The extended randomness of a session begins with the beacon randomness. *)
Lemma extendedRandomness_lookup (randomness : list byte) (sid : string) (k : nat) :
  (k < length randomness)%nat →
  extendedRandomness randomness sid !! k = randomness !! k.
Proof. intros Hk. rewrite extendedRandomness_eq. by apply lookup_app_l. Qed.

Lemma extendedRandomness_length (randomness : list byte) (sid : string) :
  length (extendedRandomness randomness sid) = (length randomness + 32)%nat.
Proof. rewrite extendedRandomness_eq, length_app. by rewrite sum256_length. Qed.

Lemma position_small (i : Z) (r : list byte) :
  0 <= i < Z.of_nat (length r) - 8 → position i r = i.
Proof.
  intros Hi. unfold position. rewrite max_spec, Z.max_r by lia.
  rewrite Z.rem_mod_nonneg by lia. apply Z.mod_small. lia.
Qed.

(** X2. The session identifier does not reach every step of the shuffle:
    an iteration [i] whose window [i .. i+7] lies within the beacon
    randomness draws the same index for every session, and so the last
    [len(randomness) - 8] swaps of the shuffle (24 of them for a beacon of 32
    bytes) are the same for all sessions of a round. *)
Theorem early_windows_ignore_session (randomness : list byte) (sid sid' : string) :
  (∀ i, 0 <= i → i + 8 <= Z.of_nat (length randomness) →
        randomIndex i (extendedRandomness randomness sid) =
        randomIndex i (extendedRandomness randomness sid')) ∧
  (∀ (n : nat) (s : list Card),
     Z.of_nat n + 8 <= Z.of_nat (length randomness) →
     shuffleLoop n s (extendedRandomness randomness sid) =
     shuffleLoop n s (extendedRandomness randomness sid')).
Proof.
  assert (Hidx : ∀ i, 0 <= i → i + 8 <= Z.of_nat (length randomness) →
        randomIndex i (extendedRandomness randomness sid) =
        randomIndex i (extendedRandomness randomness sid')).
  { intros i Hi Hin.
    pose proof (extendedRandomness_length randomness sid) as Hl.
    pose proof (extendedRandomness_length randomness sid') as Hl'.
    apply randomIndex_ext; [lia | lia | lia |].
    rewrite position_small by lia.
    intros k Hk. rewrite !extendedRandomness_lookup by lia. reflexivity. }
  split; [exact Hidx |].
  intros n s Hn. apply shuffleLoop_ext. intros i Hi. apply Hidx; lia.
Qed.

Lemma early_windows_ignore_session_witness :
  let randomness := GetRandomness (sampleBeacon 7) in
  24 + 8 <= Z.of_nat (length randomness) ∧
  shuffleLoop 24 initializeDeck (extendedRandomness randomness "session_1") =
  shuffleLoop 24 initializeDeck (extendedRandomness randomness "session_2").
Proof.
  intros randomness.
  assert (H : Z.of_nat 24 + 8 <= Z.of_nat (length randomness)) by (vm_compute; discriminate).
  split; [exact H |].
  exact (proj2 (early_windows_ignore_session randomness "session_1" "session_2")
           24%nat initializeDeck H).
Defined.

(** X3. The extended randomness determines the beacon randomness: two
    sessions whose extended randomness is the same were derived from the same
    beacon randomness, so two rounds with different randomness never share
    an extended randomness, whatever the session identifiers. *)
Theorem extendedRandomness_injective (r r' : list byte) (sid sid' : string) :
  extendedRandomness r sid = extendedRandomness r' sid' →
  r = r' ∧
  SHA256.sum256 (r ++ bytes_of_string sid) = SHA256.sum256 (r' ++ bytes_of_string sid').
Proof.
  rewrite !extendedRandomness_eq. intros H.
  apply app_inj_2 in H; [exact H |]. by rewrite !sum256_length.
Qed.

Lemma extendedRandomness_injective_witness :
  extendedRandomness [Byte.x01] "a" = extendedRandomness [Byte.x01] "a" ∧
  [Byte.x01] = [Byte.x01].
Proof.
  assert (H : extendedRandomness [Byte.x01] "a" = extendedRandomness [Byte.x01] "a")
    by reflexivity.
  split; [exact H |].
  exact (proj1 (extendedRandomness_injective [Byte.x01] [Byte.x01] "a" "a" H)).
Defined.

(** ** The shuffle of the test package *)

Lemma Standalone_randomIndex_Some (i : Z) (randomness : list byte) :
  0 <= i → (8 <= length randomness)%nat →
  ∃ j, Standalone.randomIndex i randomness = Some j ∧ 0 <= j <= i.
Proof.
  intros Hi Hlen. unfold Standalone.randomIndex.
  destruct (Z.eqb_spec (Z.of_nat (length randomness)) 0) as [H0 | _]; [lia |].
  rewrite Z.rem_mod_nonneg by lia.
  pose proof (Z.mod_pos_bound i (Z.of_nat (length randomness))) as Hk.
  destruct (Z.leb_spec 0 (i mod Z.of_nat (length randomness))); [| lia].
  destruct (lookup_lt_is_Some_2 randomness (Z.to_nat (i mod Z.of_nat (length randomness))))
    as [b Hb]; [lia |].
  rewrite Hb. eexists; split; [reflexivity |].
  assert (0 <= byte_to_Z b) by (unfold byte_to_Z; lia).
  rewrite Z.rem_mod_nonneg by lia.
  pose proof (Z.mod_pos_bound (byte_to_Z b) (i + 1)). lia.
Qed.

Lemma Standalone_shuffleLoop_Some (n : nat) (shuffled : list Card) (randomness : list byte) :
  (8 <= length randomness)%nat → (n < length shuffled)%nat ∨ n = 0%nat →
  ∃ out, Standalone.shuffleLoop n shuffled randomness = Some out ∧ out ≡ₚ shuffled.
Proof.
  intros Hlen. revert shuffled.
  induction n as [| n IH]; intros shuffled Hn.
  - exists shuffled. split; reflexivity.
  - destruct Hn as [Hn | Hn]; [| lia].
    cbn [Standalone.shuffleLoop].
    destruct (Standalone_randomIndex_Some (Z.of_nat (S n)) randomness)
      as (j & -> & Hj); [lia | done |].
    destruct (swap_Some shuffled (Z.of_nat (S n)) j) as (s' & -> & Hperm & Hlen');
      [lia | lia |].
    destruct (IH s') as (out & Hout & Hp); [lia |].
    exists out. split; [exact Hout |]. by rewrite Hp.
Qed.

(** X4. The [ShuffleDeck] of the test package, which draws each index from
    a single byte, never panics (its remainder is never by zero and its
    indices stay in range) and returns a permutation of its input, for every
    deck and every randomness, short or empty included. *)
Theorem Standalone_ShuffleDeck_permutation (deck : list Card) (randomness : list byte) :
  ∃ out, Standalone.ShuffleDeck deck randomness = Some out ∧
         Permutation deck out ∧ length out = length deck.
Proof.
  unfold Standalone.ShuffleDeck. rewrite copy_make.
  destruct (Standalone_shuffleLoop_Some
              (Z.to_nat (Z.of_nat (length deck) - 1)) deck (enoughRandomness randomness))
    as (out & Hout & Hperm); [apply enoughRandomness_length | lia |].
  exists out. split; [exact Hout |]. split; [exact (Permutation_sym Hperm) |].
  by apply Permutation_length.
Qed.

(** ** The cleaning of the cache *)

Lemma cleanCache_small (cache : gmap N Result) :
  (size cache <= maxCacheSize)%nat → cleanCache cache = cache.
Proof.
  intros H. unfold cleanCache.
  destruct (Nat.ltb_spec maxCacheSize (size cache)); [lia | reflexivity].
Qed.

(** X5. The cleaning of [fetchLatestBeacon] leaves the [maxCacheSize]
    records with the greatest rounds: the cache keeps
    [min(size, maxCacheSize)] records, every record it keeps is a record it
    had, unchanged, every round it removes is smaller than every round it
    keeps, and a cache within the limit is left as it is. *)
Theorem cleanCache_keeps_newest (cache : gmap N Result) :
  size (cleanCache cache) = Nat.min (size cache) maxCacheSize ∧
  (∀ k v, cleanCache cache !! k = Some v → cache !! k = Some v) ∧
  (∀ k k', is_Some (cache !! k) → cleanCache cache !! k = None →
           is_Some (cleanCache cache !! k') → (k < k')%N) ∧
  ((size cache <= maxCacheSize)%nat → cleanCache cache = cache).
Proof.
  split; [apply cleanCache_size |]. split; [| split; [| apply cleanCache_small]].
  - intros k v. rewrite cleanCache_lookup. by destruct (decide (k ∈ evicted cache)).
  - intros k k' Hk Hgone Hkept. rewrite cleanCache_lookup in Hgone, Hkept.
    destruct (decide (k ∈ evicted cache)) as [Hin | Hnin];
      [| destruct Hk as [v Hv]; congruence].
    destruct (decide (k' ∈ evicted cache)) as [| Hnin']; [by destruct Hkept |].
    by apply (evicted_smallest cache).
Qed.

Lemma cleanCache_keeps_newest_witness :
  (size (∅ : gmap N Result) <= maxCacheSize)%nat ∧
  cleanCache (∅ : gmap N Result) = ∅.
Proof.
  assert (H : (size (∅ : gmap N Result) <= maxCacheSize)%nat)
    by (rewrite map_size_empty; unfold maxCacheSize; lia).
  split; [exact H |].
  exact (proj2 (proj2 (proj2 (cleanCache_keeps_newest ∅))) H).
Defined.

Lemma run_app (dm : DrandManager) (ops1 ops2 : list op) :
  run dm (ops1 ++ ops2) = (dm1 ← run dm ops1; run dm1 ops2).
Proof.
  revert dm. induction ops1 as [| o ops1 IH]; intros dm; [reflexivity |].
  cbn [app run]. destruct (step dm o) as [dm' |]; [apply IH | reflexivity].
Qed.

(** X6. However many records the requests by round have piled up, a tick
    that delivers a beacon newer than every beacon delivered before stores
    it as the latest beacon and leaves at most [maxCacheSize] records. *)
Theorem tick_restores_bound (ops : list op) (beacon : Result) :
  (∀ b, In b (delivered ops) → (GetRound b < GetRound beacon)%N) →
  ∃ dm, run connected (ops ++ [Tick (inl beacon)]) = Some dm ∧
        latestBeacon dm = Some beacon ∧
        (size (beaconCache dm) <= maxCacheSize)%nat.
Proof.
  intros Hnew.
  destruct (run_latest ops connected) as (dm0 & Hrun & Hclient & Hlatest); [done |].
  pose proof (fold_newer_greatest (delivered ops) (latestBeacon connected)) as Hfold.
  rewrite <- Hlatest in Hfold.
  assert (Hfresh : match latestBeacon dm0 with
                   | Some lb => (GetRound beacon <=? GetRound lb)%N
                   | None => false
                   end = false).
  { destruct (latestBeacon dm0) as [lb |]; [| reflexivity].
    destruct Hfold as ([Hin | Hin] & _); [discriminate Hin |].
    specialize (Hnew lb Hin). apply N.leb_gt. exact Hnew. }
  rewrite run_app, Hrun. cbn [mbind option_bind run step].
  unfold fetchLatestBeacon. destruct (client dm0); [| done]. rewrite Hfresh.
  eexists. split; [reflexivity |]. split; [reflexivity |].
  simpl. rewrite cleanCache_size. lia.
Qed.

Lemma tick_restores_bound_witness :
  (∀ b, In b (delivered (requests 101)) → (GetRound b < GetRound (sampleBeacon 200))%N) ∧
  ∃ dm, run connected (requests 101 ++ [Tick (inl (sampleBeacon 200))]) = Some dm ∧
        latestBeacon dm = Some (sampleBeacon 200) ∧
        (size (beaconCache dm) <= maxCacheSize)%nat.
Proof.
  assert (H : ∀ b, In b (delivered (requests 101)) →
                   (GetRound b < GetRound (sampleBeacon 200))%N).
  { assert (Hq : ∀ n s, delivered (map (fun k => ByRound (N.of_nat k)
                           (inl (sampleBeacon (N.of_nat k)))) (seq s n)) = []).
    { induction n as [| n IH]; intros s; [reflexivity | apply IH]. }
    unfold requests. rewrite Hq. intros b []. }
  split; [exact H |].
  exact (tick_restores_bound (requests 101) (sampleBeacon 200) H).
Defined.

(** ** Requests between two deliveries *)

Lemma execs_quiet (trace : list event) (p p' : Process) :
  quiet trace → execs p trace = Next p' →
  latestBeacon (manager p') = latestBeacon (manager p) ∧
  (∀ k, is_Some (beaconCache (manager p) !! k) →
        is_Some (beaconCache (manager p') !! k)) ∧
  (∀ k v, beaconCache (manager p) !! k = Some v → k ∉ fetching p →
          beaconCache (manager p') !! k = Some v ∧ k ∉ fetching p').
Proof.
  unfold quiet. revert p. induction trace as [| e trace IH]; intros p Hq Hexec.
  - cbn [execs] in Hexec. by simplify_eq.
  - cbn [execs] in Hexec. destruct (exec p e) as [p1 | | |] eqn:He; try done.
    apply Forall_cons in Hq as [Hq1 Hq2].
    destruct (exec_quiet p p1 e Hq1 He) as (Hl1 & Hk1 & Hv1).
    destruct (IH p1 Hq2 Hexec) as (Hl & Hk & Hv).
    split; [congruence |]. split; [intros k Hin; by apply Hk, Hk1 |].
    intros k v Hin Hnot. destruct (Hv1 k v Hin Hnot) as [Hin1 Hnot1]. by apply Hv.
Qed.

(** A call of [GetRandomnessByRound] during which no other call stores is
    its lookup followed, after a miss, by its store. *)
Lemma GetRandomnessByRound_alone (p : Process) (round : N) (resp : response) :
  match beaconCache (manager p) !! round with
  | Some beacon =>
      GetRandomnessByRound (manager p) round resp
        = Some (Ok (GetRandomness beacon), manager p) ∧
      exec p (Lookup round) = Next p
  | None =>
      match GetRandomnessByRound (manager p) round resp with
      | Some (_, dm) =>
          execs p [Lookup round; Fetched round resp]
            = Next {| manager := dm; goroutines := goroutines p; fetching := fetching p |}
      | None => exec p (Lookup round) = Crash
      end
  end.
Proof.
  unfold GetRandomnessByRound. cbn [execs exec].
  destruct (beaconCache (manager p) !! round) as [beacon |]; [done |].
  destruct (client (manager p)) eqn:Hc; [| done].
  cbn [exec fetching manager goroutines finish].
  rewrite bool_decide_eq_true_2 by left. rewrite N.eqb_refl.
  destruct resp; [| reflexivity]. unfold storeRound. by rewrite Hc.
Qed.

(** Two calls for round 0 that overlap: both lookups miss, the first call
    stores the beacon it was given, and the second replaces it, though no
    turn of the loop has brought a beacon. *)
Lemma overlapping_requests_replace :
  quiet (overlapping 0 (sampleBeacon 5) (sampleBeacon 6)) ∧
  ∃ p1 p2,
    execs (boot connected) [Lookup 0; Lookup 0; Fetched 0 (inl (sampleBeacon 5))]
      = Next p1 ∧
    beaconCache (manager p1) !! 0%N = Some (sampleBeacon 5) ∧
    fetching p1 = [0%N] ∧
    exec p1 (Fetched 0 (inl (sampleBeacon 6))) = Next p2 ∧
    beaconCache (manager p2) !! 0%N = Some (sampleBeacon 6) ∧
    execs (boot connected) (overlapping 0 (sampleBeacon 5) (sampleBeacon 6)) = Next p2.
Proof.
  split; [repeat constructor |].
  eexists _, _. split; [vm_compute; reflexivity |].
  split; [vm_compute; reflexivity |]. split; [reflexivity |].
  split; [vm_compute; reflexivity |]. split; vm_compute; reflexivity.
Qed.

(** X7. As long as no turn of the loop brings a beacon, nothing leaves the
    cache, also when calls overlap: after any interleaving of the lookups and
    the stores of requests by round, failed turns of the loop, and calls of
    [GetLatestRandomness], [StartBackgroundFetching], [StopBackgroundFetching]
    and [Close] that return, the latest beacon is the same and every round
    that was cached is still cached.  The record of a round for which no call
    was in flight is unchanged: that round is answered from the cache,
    whatever the network would answer and without a change of the manager.
    (The record of a round with a call in flight is replaced by the store of
    that call, see [overlapping_requests_replace].) *)
Theorem quiet_run_keeps_records (p p' : Process) (trace : list event) :
  quiet trace → execs p trace = Next p' →
  latestBeacon (manager p') = latestBeacon (manager p) ∧
  (∀ k, is_Some (beaconCache (manager p) !! k) →
        is_Some (beaconCache (manager p') !! k)) ∧
  (∀ round beacon,
     beaconCache (manager p) !! round = Some beacon → round ∉ fetching p →
     beaconCache (manager p') !! round = Some beacon ∧
     exec p' (Lookup round) = Next p' ∧
     ∀ resp, GetRandomnessByRound (manager p') round resp
             = Some (Ok (GetRandomness beacon), manager p')).
Proof.
  intros Hq Hexec. destruct (execs_quiet trace p p' Hq Hexec) as (Hl & Hk & Hv).
  split; [exact Hl |]. split; [exact Hk |].
  intros round beacon Hin Hnot. destruct (Hv round beacon Hin Hnot) as [Hin' _].
  split; [exact Hin' |]. split.
  - cbn [exec]. by rewrite Hin'.
  - intros resp. by apply GetRandomnessByRound_hit.
Qed.

Lemma quiet_run_keeps_records_witness :
  quiet (overlapping 0 (sampleBeacon 5) (sampleBeacon 6)
         ++ [TickerC (inr "timeout"%string); CallStop []; Lookup 7]) ∧
  (7%N ∉ fetching sampleProcess) ∧
  ∃ p',
    execs sampleProcess (overlapping 0 (sampleBeacon 5) (sampleBeacon 6)
                         ++ [TickerC (inr "timeout"%string); CallStop []; Lookup 7])
      = Next p' ∧
    beaconCache (manager p') !! 0%N = Some (sampleBeacon 6) ∧
    GetRandomnessByRound (manager p') 7 (inr "offline"%string)
      = Some (Ok (GetRandomness (sampleBeacon 7)), manager p').
Proof.
  assert (Hq : quiet (overlapping 0 (sampleBeacon 5) (sampleBeacon 6)
                      ++ [TickerC (inr "timeout"%string); CallStop []; Lookup 7]))
    by repeat constructor.
  assert (Hnot : 7%N ∉ fetching sampleProcess) by apply not_elem_of_nil.
  assert (Hrun : ∃ p',
    execs sampleProcess (overlapping 0 (sampleBeacon 5) (sampleBeacon 6)
                         ++ [TickerC (inr "timeout"%string); CallStop []; Lookup 7])
      = Next p' ∧
    beaconCache (manager p') !! 0%N = Some (sampleBeacon 6))
    by (eexists; split; vm_compute; reflexivity).
  split; [exact Hq |]. split; [exact Hnot |]. destruct Hrun as (p' & Hrun & Hzero).
  exists p'. split; [exact Hrun |]. split; [exact Hzero |].
  exact (proj2 (proj2 (proj2 (proj2 (quiet_run_keeps_records sampleProcess p' _ Hq Hrun))
                         7%N (sampleBeacon 7) eq_refl Hnot))
           (inr "offline"%string)).
Defined.

(** ** The singleton and its initialization *)

Lemma cleanCache_singleton (beacon : Result) :
  cleanCache (<[GetRound beacon := beacon]> ∅) = {[ GetRound beacon := beacon ]}.
Proof.
  rewrite insert_empty. apply cleanCache_small.
  rewrite map_size_singleton. unfold maxCacheSize. lia.
Qed.

(** X8. [GetDrandManager] never panics and initializes at most once.  The
    first call creates the instance and reports how the initialization went:
    the error of [client.New], the error of the first fetch, or no error with
    the first beacon as the latest beacon and as the only cached record.
    Every later call returns the same instance with no error and without
    using the network, also when the initialization had failed. *)
Theorem GetDrandManager_reports_once (g : Globals) (net : InitNet) :
  ∃ e g1,
    GetDrandManager g net = Some (e, g1) ∧ once g1 = true ∧
    (∀ net', GetDrandManager g1 net' = Some (None, g1)) ∧
    (once g = true → e = None ∧ g1 = g) ∧
    (once g = false →
       match net_New net, net_first net with
       | inr cause, _ =>
           e = Some (ErrNewClient cause) ∧
           instance g1 = Some {| client := None; latestBeacon := None;
                                 beaconCache := ∅; isRunning := false |}
       | inl c, inr cause =>
           e = Some (ErrInitialBeacon (ErrFetchLatest cause)) ∧
           instance g1 = Some {| client := Some c; latestBeacon := None;
                                 beaconCache := ∅; isRunning := false |}
       | inl c, inl beacon =>
           e = None ∧
           instance g1 = Some {| client := Some c; latestBeacon := Some beacon;
                                 beaconCache := {[ GetRound beacon := beacon ]};
                                 isRunning := false |}
       end).
Proof.
  destruct (once g) eqn:Honce.
  - exists None, g. unfold GetDrandManager. rewrite Honce.
    split; [reflexivity |]. split; [done |].
    split; [intros net'; reflexivity |].
    split; [done | discriminate].
  - unfold GetDrandManager. rewrite Honce. unfold initialize, fetchLatestBeacon.
    destruct (net_New net) as [c | cause]; cbn [client latestBeacon beaconCache isRunning].
    + destruct (net_first net) as [beacon | cause].
      * eexists _, _. split; [reflexivity |]. split; [reflexivity |].
        split; [reflexivity |]. split; [discriminate |]. intros _.
        split; [reflexivity |]. cbn [instance]. by rewrite cleanCache_singleton.
      * eexists _, _. split; [reflexivity |]. split; [reflexivity |].
        split; [reflexivity |]. split; [discriminate |]. intros _. by split.
    + eexists _, _. split; [reflexivity |]. split; [reflexivity |].
      split; [reflexivity |]. split; [discriminate |]. intros _. by split.
Qed.

Lemma GetDrandManager_reports_once_witness :
  once start = false ∧
  ∃ g1, GetDrandManager start offline = Some (Some (ErrNewClient "offline"), g1) ∧
        ∀ net', GetDrandManager g1 net' = Some (None, g1).
Proof.
  split; [reflexivity |].
  destruct (GetDrandManager_reports_once start offline)
    as (e & g1 & Hg & _ & Hlater & _ & Hfirst).
  destruct (Hfirst eq_refl) as [-> _].
  exists g1. split; [exact Hg | exact Hlater].
Defined.

(** ** The entry points on a running manager *)

Lemma initializeDeck_NoDup : NoDup initializeDeck.
Proof. refine (bool_decide_unpack (NoDup initializeDeck) _). vm_compute. exact I. Qed.

Lemma shuffleDeck_full (randomness : list byte) (cards : list Card) :
  shuffleDeck initializeDeck randomness = Some cards →
  Permutation initializeDeck cards ∧ NoDup cards ∧ length cards = 52%nat.
Proof.
  intros H. destruct (shuffleDeck_Some initializeDeck randomness) as (out & Hout & Hperm).
  assert (out = cards) by congruence. subst out.
  split; [exact (Permutation_sym Hperm) |]. split.
  - rewrite Hperm. apply initializeDeck_NoDup.
  - by rewrite (Permutation_length Hperm).
Qed.

Lemma running_GetShuffledDeck (dm : DrandManager) (net : InitNet) (sid : string) :
  match latestBeacon dm with
  | None =>
      GetShuffledDeck (running dm) net sid
        = Some (Err (ErrLatestRandomness ErrNoBeacon), running dm)
  | Some lb =>
      ∃ cards,
        GetShuffledDeck (running dm) net sid
          = Some (Ok (cards, GetRound lb), running dm) ∧
        shuffleDeck initializeDeck (extendedRandomness (GetRandomness lb) sid)
          = Some cards
  end.
Proof.
  unfold GetShuffledDeck, running, GetDrandManager, GetLatestRandomness.
  cbn [once instance].
  destruct (latestBeacon dm) as [lb |]; [| reflexivity].
  destruct (shuffleDeck_Some initializeDeck (extendedRandomness (GetRandomness lb) sid))
    as (cards & Hcards & Hperm).
  exists cards. rewrite Hcards. by split.
Qed.

(** X9. On a manager that is already initialized, [GetShuffledDeck] never
    panics, never uses the network and changes nothing: without a latest
    beacon it fails with the error of [GetLatestRandomness], and otherwise
    it returns the round of the latest beacon with the canonical deck
    shuffled by the extended randomness of the latest beacon, a permutation
    of the 52 cards. *)
Theorem GetShuffledDeck_running (dm : DrandManager) (net : InitNet) (sid : string) :
  match latestBeacon dm with
  | None =>
      GetShuffledDeck (running dm) net sid
        = Some (Err (ErrLatestRandomness ErrNoBeacon), running dm)
  | Some lb =>
      ∃ cards,
        GetShuffledDeck (running dm) net sid
          = Some (Ok (cards, GetRound lb), running dm) ∧
        shuffleDeck initializeDeck (extendedRandomness (GetRandomness lb) sid)
          = Some cards ∧
        Permutation initializeDeck cards
  end.
Proof.
  pose proof (running_GetShuffledDeck dm net sid) as H.
  destruct (latestBeacon dm) as [lb |]; [| exact H].
  destruct H as (cards & Hdeck & Hshuffle). exists cards.
  split; [exact Hdeck |]. split; [exact Hshuffle |].
  by destruct (shuffleDeck_full _ _ Hshuffle).
Qed.

(** X10. Every deck that [GetShuffledDeck] or [GetShuffledDeckByRound]
    returns is complete: it is a permutation of the canonical deck, 52 cards
    without a duplicate, and each of its cards has a suit among the four and
    a value among the thirteen. *)
Theorem returned_decks_are_complete :
  (∀ g g' net sid cards round,
     GetShuffledDeck g net sid = Some (Ok (cards, round), g') →
     Permutation initializeDeck cards ∧ NoDup cards ∧ length cards = 52%nat ∧
     ∀ card, In card cards → In (Suit card) suits ∧ In (Value card) values) ∧
  (∀ g g' net resp round sid cards,
     GetShuffledDeckByRound g net resp round sid = Some (Ok cards, g') →
     Permutation initializeDeck cards ∧ NoDup cards ∧ length cards = 52%nat ∧
     ∀ card, In card cards → In (Suit card) suits ∧ In (Value card) values).
Proof.
  assert (Hdeck : ∀ card, In card initializeDeck →
                          In (Suit card) suits ∧ In (Value card) values).
  { intros card Hin. repeat destruct Hin as [<- | Hin]; try (split; simpl; tauto). }
  assert (Hfull : ∀ randomness cards,
    shuffleDeck initializeDeck randomness = Some cards →
    Permutation initializeDeck cards ∧ NoDup cards ∧ length cards = 52%nat ∧
    ∀ card, In card cards → In (Suit card) suits ∧ In (Value card) values).
  { intros randomness cards H.
    destruct (shuffleDeck_full randomness cards H) as (Hperm & Hnd & Hlen).
    repeat split; try done; apply Hdeck; by eapply Permutation_in;
      [apply Permutation_sym |]. }
  split.
  - intros g g' net sid cards round H.
    destruct (GetShuffledDeck_Ok _ _ _ _ _ _ H) as (dm & randomness & _ & _ & _ & Hs).
    by eapply Hfull.
  - intros g g' net resp round sid cards H.
    destruct (GetShuffledDeckByRound_Ok _ _ _ _ _ _ _ H)
      as (g1 & dm & dm' & randomness & _ & _ & _ & _ & Hs).
    by eapply Hfull.
Qed.

Lemma returned_decks_are_complete_witness :
  ∃ cards round g',
    GetShuffledDeck sampleGlobals offline "session_12345" = Some (Ok (cards, round), g') ∧
    NoDup cards ∧ length cards = 52%nat.
Proof.
  assert (H : ∃ cards round g',
    GetShuffledDeck sampleGlobals offline "session_12345" = Some (Ok (cards, round), g'))
    by (eexists _, _, _; vm_compute; reflexivity).
  destruct H as (cards & round & g' & H). exists cards, round, g'. split; [exact H |].
  destruct (proj1 returned_decks_are_complete _ _ _ _ _ _ H) as (_ & Hnd & Hlen & _).
  split; [exact Hnd | exact Hlen].
Defined.

Lemma GetShuffledDeckByRound_running_hit (dm : DrandManager) (net : InitNet)
    (resp : response) (round : N) (sid : string) (beacon : Result) (cards : list Card) :
  beaconCache dm !! round = Some beacon →
  shuffleDeck initializeDeck (extendedRandomness (GetRandomness beacon) sid) = Some cards →
  GetShuffledDeckByRound (running dm) net resp round sid = Some (Ok cards, running dm).
Proof.
  intros Hhit Hcards. unfold GetShuffledDeckByRound, running, GetDrandManager.
  cbn [once instance]. rewrite (GetRandomnessByRound_hit dm round resp beacon Hhit).
  by rewrite Hcards.
Qed.

Lemma run_ticks_latest_Some (resps : list response) (dm dm' : DrandManager) :
  client dm ≠ None → is_Some (latestBeacon dm) →
  run dm (map Tick resps) = Some dm' → is_Some (latestBeacon dm').
Proof.
  intros Hclient [lb Hlb] Hrun.
  destruct (run_latest (map Tick resps) dm Hclient) as (dm'' & Hrun' & _ & Hlatest).
  assert (dm'' = dm') by congruence. subst dm''.
  pose proof (fold_newer_greatest (delivered (map Tick resps)) (latestBeacon dm)) as Hfold.
  rewrite <- Hlatest in Hfold.
  destruct (latestBeacon dm') as [lb' |]; [by exists lb' |].
  destruct Hfold as [Hnone _]. congruence.
Qed.

(** X11. A deck can be reproduced from its round.  After a successful
    initialization and any number of ticks of the background loop,
    [GetShuffledDeck] returns a deck and the round of the latest beacon, and
    [GetShuffledDeckByRound] for that round and the same session returns the
    same deck; neither call uses the network or changes the manager. *)
Theorem deck_reproducible_by_round (net : InitNet) (c : Client) (first : Result)
    (resps : list response) :
  net_New net = inl c → net_first net = inl first →
  ∃ g1 dm0 dm lb,
    GetDrandManager start net = Some (None, g1) ∧ instance g1 = Some dm0 ∧
    run dm0 (map Tick resps) = Some dm ∧ latestBeacon dm = Some lb ∧
    ∀ sid net' resp, ∃ cards,
      GetShuffledDeck (running dm) net' sid
        = Some (Ok (cards, GetRound lb), running dm) ∧
      GetShuffledDeckByRound (running dm) net' resp (GetRound lb) sid
        = Some (Ok cards, running dm).
Proof.
  intros Hnew Hfirst.
  set (dm0 := {| client := Some c; latestBeacon := Some first;
                 beaconCache := {[ GetRound first := first ]}; isRunning := false |}).
  assert (Hinit : GetDrandManager start net
                  = Some (None, {| instance := Some dm0; once := true |})).
  { unfold GetDrandManager, initialize, fetchLatestBeacon. cbn [once start].
    rewrite Hnew, Hfirst. cbn [client latestBeacon beaconCache isRunning].
    by rewrite cleanCache_singleton. }
  assert (Hdm0 : refreshed dm0).
  { split; [done |]. split; [| done]. intros lb Hlb. cbn [latestBeacon dm0] in Hlb.
    simplify_eq. cbn [beaconCache dm0]. split; [apply lookup_singleton_eq |].
    intros k v Hk. apply lookup_singleton_Some in Hk as [<- _]. lia. }
  destruct (run_ticks_refreshed resps dm0 Hdm0) as (dm & Hrun & _ & Hgreatest & _).
  destruct (run_ticks_latest_Some resps dm0 dm) as [lb Hlb]; [done | by eexists | done |].
  exists (running dm0), dm0, dm, lb. split; [exact Hinit |]. split; [reflexivity |].
  split; [exact Hrun |]. split; [exact Hlb |].
  intros sid net' resp.
  pose proof (running_GetShuffledDeck dm net' sid) as Hlatest.
  rewrite Hlb in Hlatest. destruct Hlatest as (cards & Hdeck & Hshuffle).
  exists cards. split; [exact Hdeck |].
  destruct (Hgreatest lb Hlb) as [Hcached _].
  by apply (GetShuffledDeckByRound_running_hit dm net' resp (GetRound lb) sid lb).
Qed.

Lemma deck_reproducible_by_round_witness :
  let net := {| net_New := inl {| closed := false |}; net_first := inl (sampleBeacon 7) |} in
  net_New net = inl {| closed := false |} ∧ net_first net = inl (sampleBeacon 7) ∧
  ∃ g1 dm0 dm lb,
    GetDrandManager start net = Some (None, g1) ∧ instance g1 = Some dm0 ∧
    run dm0 (map Tick [inl (sampleBeacon 9); inr "timeout"%string; inl (sampleBeacon 8)])
      = Some dm ∧
    latestBeacon dm = Some lb ∧
    ∀ sid net' resp, ∃ cards,
      GetShuffledDeck (running dm) net' sid
        = Some (Ok (cards, GetRound lb), running dm) ∧
      GetShuffledDeckByRound (running dm) net' resp (GetRound lb) sid
        = Some (Ok cards, running dm).
Proof.
  intros net. split; [reflexivity |]. split; [reflexivity |].
  exact (deck_reproducible_by_round net {| closed := false |} (sampleBeacon 7)
           [inl (sampleBeacon 9); inr "timeout"%string; inl (sampleBeacon 8)]
           eq_refl eq_refl).
Defined.

(** X12. A failure of the first fetch is reported once only.  When the
    client is created and the first beacon cannot be fetched, the first
    [GetDrandManager] returns the initialization error; on the instance it
    leaves behind, [GetShuffledDeck] fails with the error of a manager without
    a beacon, and [GetShuffledDeckByRound] asks the network: it returns a deck
    and caches the beacon when the fetch succeeds, and fails with the error of
    the fetch otherwise. *)
Theorem after_failed_first_fetch (net : InitNet) (c : Client) (cause : string) :
  net_New net = inl c → net_first net = inr cause →
  ∃ g1,
    GetDrandManager start net
      = Some (Some (ErrInitialBeacon (ErrFetchLatest cause)), g1) ∧
    (∀ net' sid,
       GetShuffledDeck g1 net' sid
         = Some (Err (ErrLatestRandomness ErrNoBeacon), g1)) ∧
    (∀ net' round beacon sid, ∃ cards g2,
       GetShuffledDeckByRound g1 net' (inl beacon) round sid = Some (Ok cards, g2) ∧
       cachedRandomness g2 round = Some (GetRandomness beacon)) ∧
    (∀ net' round cause' sid,
       GetShuffledDeckByRound g1 net' (inr cause') round sid
         = Some (Err (ErrRoundRandomness round (ErrFetchRound round cause')), g1)).
Proof.
  intros Hnew Hfirst.
  set (dm0 := {| client := Some c; latestBeacon := None;
                 beaconCache := ∅; isRunning := false |}).
  exists (running dm0).
  split; [| split; [| split]].
  - unfold GetDrandManager, initialize, fetchLatestBeacon. cbn [once start].
    by rewrite Hnew, Hfirst.
  - intros net' sid. exact (running_GetShuffledDeck dm0 net' sid).
  - intros net' round beacon sid.
    destruct (shuffleDeck_Some initializeDeck
                (extendedRandomness (GetRandomness beacon) sid)) as (cards & Hcards & _).
    exists cards. eexists.
    unfold GetShuffledDeckByRound, running, GetDrandManager, GetRandomnessByRound.
    cbn [once instance beaconCache client dm0]. rewrite lookup_empty, Hcards.
    split; [reflexivity |].
    unfold cachedRandomness. cbn [instance mbind option_bind beaconCache].
    by rewrite lookup_insert_eq.
  - intros net' round cause' sid.
    unfold GetShuffledDeckByRound, running, GetDrandManager, GetRandomnessByRound.
    cbn [once instance beaconCache client dm0]. by rewrite lookup_empty.
Qed.

Lemma after_failed_first_fetch_witness :
  let net := {| net_New := inl {| closed := false |};
                net_first := inr "timeout"%string |} in
  net_New net = inl {| closed := false |} ∧ net_first net = inr "timeout"%string ∧
  ∃ g1,
    GetDrandManager start net
      = Some (Some (ErrInitialBeacon (ErrFetchLatest "timeout")), g1) ∧
    ∀ net' sid,
      GetShuffledDeck g1 net' sid = Some (Err (ErrLatestRandomness ErrNoBeacon), g1).
Proof.
  intros net. split; [reflexivity |]. split; [reflexivity |].
  destruct (after_failed_first_fetch net {| closed := false |} "timeout" eq_refl eq_refl)
    as (g1 & H1 & H2 & _).
  exists g1. split; [exact H1 | exact H2].
Defined.

(** X13. When [client.New] fails, the instance is left without a client,
    and the failure is reported to the first caller only: afterwards
    [GetShuffledDeck] fails with the error of a manager without a beacon, and
    [GetShuffledDeckByRound], like a tick of the background loop, calls [Get]
    on the [nil] client and panics. *)
Theorem after_failed_client (net : InitNet) (cause : string) :
  net_New net = inr cause →
  ∃ g1 dm,
    GetDrandManager start net = Some (Some (ErrNewClient cause), g1) ∧
    instance g1 = Some dm ∧ client dm = None ∧
    (∀ net', GetDrandManager g1 net' = Some (None, g1)) ∧
    (∀ net' sid,
       GetShuffledDeck g1 net' sid
         = Some (Err (ErrLatestRandomness ErrNoBeacon), g1)) ∧
    (∀ net' resp round sid, GetShuffledDeckByRound g1 net' resp round sid = None) ∧
    (∀ resp, fetchLatestBeacon dm resp = None).
Proof.
  intros Hnew.
  set (dm0 := {| client := None; latestBeacon := None;
                 beaconCache := ∅; isRunning := false |}).
  exists (running dm0), dm0.
  split; [| split; [reflexivity | split; [reflexivity | split; [| split; [| split]]]]].
  - unfold GetDrandManager, initialize. cbn [once start]. by rewrite Hnew.
  - reflexivity.
  - intros net' sid. exact (running_GetShuffledDeck dm0 net' sid).
  - intros net' resp round sid.
    unfold GetShuffledDeckByRound, running, GetDrandManager, GetRandomnessByRound.
    cbn [once instance beaconCache client dm0]. by rewrite lookup_empty.
  - reflexivity.
Qed.

Lemma after_failed_client_witness :
  net_New offline = inr "offline"%string ∧
  ∃ g1, GetDrandManager start offline = Some (Some (ErrNewClient "offline"), g1) ∧
        ∀ net' resp round sid, GetShuffledDeckByRound g1 net' resp round sid = None.
Proof.
  split; [reflexivity |].
  destruct (after_failed_client offline "offline" eq_refl)
    as (g1 & dm & H1 & _ & _ & _ & _ & H2 & _).
  exists g1. split; [exact H1 | exact H2].
Defined.

(** ** The codec and the canonical deck *)

Lemma initializeDeck_product :
  initializeDeck =
  flat_map (fun suit => map (fun value => {| Suit := suit; Value := value |}) values) suits.
Proof. reflexivity. Qed.

Lemma initializeDeck_In (card : Card) :
  In card initializeDeck ↔ In (Suit card) suits ∧ In (Value card) values.
Proof.
  rewrite initializeDeck_product, in_flat_map. split.
  - intros (suit & Hs & Hc). apply in_map_iff in Hc as (value & <- & Hv). by split.
  - intros [Hs Hv]. exists (Suit card). split; [exact Hs |].
    apply in_map_iff. exists (Value card). split; [by destruct card | exact Hv].
Qed.

Lemma StringToCard_Ok_inv (s : string) (card : Card) :
  StringToCard s = Ok card →
  In (Suit card) suits ∧ In (Value card) values ∧ s = (Suit card ++ Value card)%string.
Proof.
  intros H. destruct (suit_or_none s) as [Hno | (suit & value & Hin & ->)].
  - destruct (Nat.lt_ge_cases (String.length s) 3) as [Hlt | Hge].
    + rewrite StringToCard_short in H by done. discriminate H.
    + rewrite StringToCard_no_suit in H by done. discriminate H.
  - rewrite (StringToCard_suit suit value Hin) in H.
    destruct (default false (validValues !! value)) eqn:Hvalid; [| discriminate H].
    simplify_eq. cbn [Suit Value]. split; [exact Hin |]. split; [| reflexivity].
    by apply validValues_spec.
Qed.

Lemma StringToCard_deck_card (card : Card) :
  In card initializeDeck → StringToCard (CardToString card) = Ok card.
Proof.
  intros Hin. apply initializeDeck_In in Hin as [Hs Hv]. unfold CardToString.
  rewrite (StringToCard_suit _ _ Hs).
  apply validValues_spec in Hv. rewrite Hv. by destruct card.
Qed.

(** X14. The codec is a bijection between the texts that parse and the 52
    cards of the canonical deck: a text parses to a card exactly when the
    card is in the deck and the text is the text of the card.  Hence no text
    parses to a card outside the deck, the text of a card is recovered from
    its parsing, and two cards of the deck never share a text, although two
    arbitrary cards can. *)
Theorem codec_bijection :
  (∀ s card, StringToCard s = Ok card ↔
             In card initializeDeck ∧ CardToString card = s) ∧
  (∀ c1 c2, In c1 initializeDeck → In c2 initializeDeck →
            CardToString c1 = CardToString c2 → c1 = c2) ∧
  (∃ c1 c2, c1 ≠ c2 ∧ CardToString c1 = CardToString c2).
Proof.
  split; [| split].
  - intros s card. split.
    + intros H. destruct (StringToCard_Ok_inv s card H) as (Hs & Hv & ->).
      split; [by apply initializeDeck_In | reflexivity].
    + intros [Hin <-]. by apply StringToCard_deck_card.
  - intros c1 c2 H1 H2 Heq.
    pose proof (StringToCard_deck_card c1 H1) as E1.
    pose proof (StringToCard_deck_card c2 H2) as E2.
    rewrite Heq in E1. congruence.
  - exists {| Suit := "A"; Value := "BC" |}, {| Suit := "AB"; Value := "C" |}.
    split; [discriminate | reflexivity].
Qed.

Lemma codec_bijection_witness :
  StringToCard "梅花Q" = Ok {| Suit := "梅花"; Value := "Q" |} ∧
  In {| Suit := "梅花"; Value := "Q" |} initializeDeck ∧
  CardToString {| Suit := "梅花"; Value := "Q" |} = "梅花Q"%string.
Proof.
  assert (H : StringToCard "梅花Q" = Ok {| Suit := "梅花"; Value := "Q" |})
    by (vm_compute; reflexivity).
  split; [exact H |].
  exact (proj1 (proj1 codec_bijection "梅花Q"%string {| Suit := "梅花"; Value := "Q" |}) H).
Defined.

(** X21. [initializeDeck] builds the deck suit by suit: for every suit
    index [s] and value index [v], the card at position [13 * s + v] has the
    suit number [s] of the four suits and the value number [v] of the
    thirteen values; the deck has 52 cards and no card twice. *)
Theorem initializeDeck_order :
  length initializeDeck = 52%nat ∧ NoDup initializeDeck ∧
  ∀ (s v : nat) (suit value : string),
    suits !! s = Some suit → values !! v = Some value →
    initializeDeck !! (13 * s + v)%nat = Some {| Suit := suit; Value := value |}.
Proof.
  split; [reflexivity |]. split; [apply initializeDeck_NoDup |].
  intros s v suit value Hs Hv.
  do 4 (destruct s as [| s]; [
    do 13 (destruct v as [| v]; [cbn in Hs, Hv; simplify_eq; reflexivity |]);
    discriminate Hv |]).
  discriminate Hs.
Qed.

Lemma initializeDeck_order_witness :
  suits !! 2%nat = Some "方塊"%string ∧ values !! 9%nat = Some "10"%string ∧
  initializeDeck !! 35%nat = Some {| Suit := "方塊"; Value := "10" |}.
Proof.
  split; [reflexivity |]. split; [reflexivity |].
  exact (proj2 (proj2 initializeDeck_order) 2%nat 9%nat "方塊"%string "10"%string
           eq_refl eq_refl).
Defined.

(** ** The example game *)

Lemma cards_Some (s : list Card) (lo hi : Z) :
  0 <= lo → lo <= hi → hi <= Z.of_nat (length s) →
  Holdem.cards s lo hi = Some (firstn (Z.to_nat (hi - lo)) (skipn (Z.to_nat lo) s)).
Proof.
  intros H0 H1 H2. unfold Holdem.cards.
  destruct (Z.leb_spec 0 lo); [| lia]. destruct (Z.leb_spec lo hi); [| lia].
  by destruct (Z.leb_spec hi (Z.of_nat (length s))); [| lia].
Qed.

(** The loop deals two cards to each player, from [cardIndex] on. *)
Lemma dealHands_Some (n : nat) (deck : list Card) :
  ∀ (player cardIndex : Z) (hands : gmap Z (list Card)),
    0 <= cardIndex → cardIndex + 2 * Z.of_nat n <= Z.of_nat (length deck) →
    ∃ hands',
      Holdem.dealHands n player cardIndex deck hands
        = Some (hands', cardIndex + 2 * Z.of_nat n) ∧
      ∀ q, hands' !! q =
           if decide (player <= q < player + Z.of_nat n)
           then Some (firstn 2 (skipn (Z.to_nat (cardIndex + 2 * (q - player))) deck))
           else hands !! q.
Proof.
  induction n as [| n IH]; intros player cardIndex hands H0 Hlen.
  - exists hands. split; [simpl; f_equal; f_equal; lia |].
    intros q. destruct (decide _); [lia | reflexivity].
  - cbn [Holdem.dealHands]. rewrite cards_Some by lia.
    replace (Z.to_nat (cardIndex + 2 - cardIndex)) with 2%nat by lia.
    destruct (IH (player + 1) (cardIndex + 2)
                 (<[player := firstn 2 (skipn (Z.to_nat cardIndex) deck)]> hands))
      as (hands' & Hdeal & Hlookup); [lia | lia |].
    exists hands'. split.
    + rewrite Hdeal. f_equal. f_equal. lia.
    + intros q. rewrite Hlookup.
      destruct (decide (player + 1 <= q < player + 1 + Z.of_nat n)) as [Hin | Hout].
      * rewrite decide_True by lia. do 3 f_equal. lia.
      * destruct (decide (q = player)) as [-> | Hne].
        -- rewrite lookup_insert_eq, decide_True by lia. do 3 f_equal. lia.
        -- rewrite lookup_insert_ne by done. by rewrite decide_False by lia.
Qed.

Lemma flat_map_pairs (deck : list Card) (n : nat) (f : nat → list Card) :
  (2 * n <= length deck)%nat →
  (∀ p, (p < n)%nat → f p = firstn 2 (skipn (2 * p) deck)) →
  flat_map f (seq 0 n) = firstn (2 * n) deck.
Proof.
  intros Hlen Hf. induction n as [| n IH]; [reflexivity |].
  rewrite seq_S, flat_map_app, IH by (intros; try apply Hf; lia).
  cbn [flat_map Nat.add]. rewrite app_nil_r, Hf by lia.
  rewrite take_take_drop. f_equal. lia.
Qed.

(** What [NewTexasHoldemGame] does once the deck is there. *)
Lemma NewTexasHoldemGame_dealt (g g1 : Globals) (net : InitNet) (resp : response)
    (numPlayers : Z) (round newRound : N) (sid : string) (deck : list Card) :
  2 <= numPlayers <= 10 → length deck = 52%nat →
  Holdem.shuffledFor g net resp round sid = Some (inl (deck, newRound), g1) →
  ∃ game,
    Holdem.NewTexasHoldemGame g net resp numPlayers round sid = Some (inl game, g1) ∧
    Holdem.Round game = newRound ∧ Holdem.GameSessionID game = sid ∧
    (∀ p, Holdem.PlayerHands game !! p =
          if decide (0 <= p < numPlayers)
          then Some (firstn 2 (skipn (Z.to_nat (2 * p)) deck))
          else None) ∧
    Holdem.CommunityCards game = firstn 5 (skipn (Z.to_nat (2 * numPlayers)) deck) ∧
    Holdem.dealt (Z.to_nat numPlayers) game = firstn (Z.to_nat (2 * numPlayers + 5)) deck.
Proof.
  intros Hn Hlen Hdeck. unfold Holdem.NewTexasHoldemGame.
  destruct (Z.ltb_spec numPlayers 2); [lia |].
  destruct (Z.gtb_spec numPlayers 10); [lia |]. cbn [orb].
  rewrite Hdeck, Hlen.
  destruct (Z.ltb_spec (Z.of_nat 52) (numPlayers * 2 + 5)); [lia |].
  destruct (dealHands_Some (Z.to_nat numPlayers) deck 0 0 ∅) as (hands & Hdeal & Hhands);
    [lia | lia |].
  rewrite Hdeal. rewrite cards_Some by lia.
  eexists. split; [reflexivity |]. cbn [Holdem.Round Holdem.GameSessionID
    Holdem.PlayerHands Holdem.CommunityCards].
  split; [reflexivity |]. split; [reflexivity |].
  assert (Hplayers : ∀ p, hands !! p =
            if decide (0 <= p < numPlayers)
            then Some (firstn 2 (skipn (Z.to_nat (2 * p)) deck)) else None).
  { intros p. rewrite Hhands.
    destruct (decide (0 <= p < 0 + Z.of_nat (Z.to_nat numPlayers))) as [Hin | Hout].
    - rewrite decide_True by lia. do 3 f_equal. lia.
    - rewrite decide_False by lia. apply lookup_empty. }
  split; [exact Hplayers |]. split.
  - f_equal; [lia | f_equal; lia].
  - unfold Holdem.dealt. cbn [Holdem.PlayerHands Holdem.CommunityCards].
    rewrite (flat_map_pairs deck (Z.to_nat numPlayers)); [| lia |].
    + replace (Z.to_nat (0 + 2 * Z.of_nat (Z.to_nat numPlayers) + 5
                          - (0 + 2 * Z.of_nat (Z.to_nat numPlayers)))) with 5%nat by lia.
      replace (Z.to_nat (0 + 2 * Z.of_nat (Z.to_nat numPlayers)))
        with (2 * Z.to_nat numPlayers)%nat by lia.
      rewrite take_take_drop. f_equal. lia.
    + intros p Hp. rewrite Hplayers, decide_True by lia. unfold default, id.
      do 2 f_equal. lia.
Qed.

Lemma shuffledFor_deck (g g1 : Globals) (net : InitNet) (resp : response)
    (round newRound : N) (sid : string) (deck : list Card) :
  Holdem.shuffledFor g net resp round sid = Some (inl (deck, newRound), g1) →
  Permutation initializeDeck deck ∧ NoDup deck ∧ length deck = 52%nat ∧
  ((0 < round)%N → newRound = round).
Proof.
  unfold Holdem.shuffledFor. destruct (N.ltb_spec 0 round) as [Hpos | Hzero].
  - destruct (GetShuffledDeckByRound g net resp round sid) as [[[cards | e] g2] |] eqn:Hby;
      intros H; simplify_eq.
    destruct (GetShuffledDeckByRound_Ok _ _ _ _ _ _ _ Hby)
      as (ga & dm & dm' & randomness & _ & _ & _ & _ & Hs).
    destruct (shuffleDeck_full _ _ Hs) as (Hperm & Hnd & Hlen). done.
  - destruct (GetShuffledDeck g net sid) as [[[[cards r] | e] g2] |] eqn:Hlatest;
      intros H; simplify_eq.
    destruct (GetShuffledDeck_Ok _ _ _ _ _ _ Hlatest) as (dm & randomness & _ & _ & _ & Hs).
    destruct (shuffleDeck_full _ _ Hs) as (Hperm & Hnd & Hlen).
    repeat split; try done. lia.
Qed.

Lemma NewTexasHoldemGame_inv (g g1 : Globals) (net : InitNet) (resp : response)
    (numPlayers : Z) (round : N) (sid : string) (game : Holdem.TexasHoldemGame) :
  Holdem.NewTexasHoldemGame g net resp numPlayers round sid = Some (inl game, g1) →
  2 <= numPlayers <= 10 ∧
  ∃ deck, Holdem.shuffledFor g net resp round sid
          = Some (inl (deck, Holdem.Round game), g1).
Proof.
  unfold Holdem.NewTexasHoldemGame.
  destruct (Z.ltb_spec numPlayers 2); [done |].
  destruct (Z.gtb_spec numPlayers 10); [done |]. cbn [orb].
  destruct (Holdem.shuffledFor g net resp round sid)
    as [[[[deck newRound] | e] g2] |]; [| done | done].
  destruct (Z.of_nat (length deck) <? numPlayers * 2 + 5); [done |].
  destruct (Holdem.dealHands _ _ _ _ _) as [[hands cardIndex] |]; [| done].
  destruct (Holdem.cards deck cardIndex (cardIndex + 5)); [| done].
  intros Hgame. simplify_eq. split; [lia |]. by exists deck.
Qed.



(** X16. The failures of [NewTexasHoldemGame]: a number of players outside
    2 to 10 is refused before anything else happens, the manager untouched;
    otherwise the only failure is that of the shuffled deck, wrapped; the
    test of the length of the deck never fails, and the dealing never reads
    the deck out of its bounds, since a shuffled deck has 52 cards and at
    most 25 are dealt. *)
Theorem NewTexasHoldemGame_failures (g : Globals) (net : InitNet) (resp : response)
    (numPlayers : Z) (round : N) (sid : string) :
  ((numPlayers < 2 ∨ 10 < numPlayers) →
     Holdem.NewTexasHoldemGame g net resp numPlayers round sid
       = Some (inr Holdem.ErrPlayers, g)) ∧
  (2 <= numPlayers <= 10 →
     match Holdem.shuffledFor g net resp round sid with
     | None => Holdem.NewTexasHoldemGame g net resp numPlayers round sid = None
     | Some (inr e, g1) =>
         Holdem.NewTexasHoldemGame g net resp numPlayers round sid = Some (inr e, g1) ∧
         ∃ cause, e = Holdem.ErrShuffledDeck cause
     | Some (inl (deck, newRound), g1) =>
         ∃ game, Holdem.NewTexasHoldemGame g net resp numPlayers round sid
                 = Some (inl game, g1)
     end) ∧
  (∀ required have g1,
     Holdem.NewTexasHoldemGame g net resp numPlayers round sid
       ≠ Some (inr (Holdem.ErrShortDeck required have), g1)).
Proof.
  assert (Hbad : (numPlayers < 2 ∨ 10 < numPlayers) →
     Holdem.NewTexasHoldemGame g net resp numPlayers round sid
       = Some (inr Holdem.ErrPlayers, g)).
  { intros Hn. unfold Holdem.NewTexasHoldemGame.
    destruct (Z.ltb_spec numPlayers 2); [reflexivity |].
    destruct (Z.gtb_spec numPlayers 10); [reflexivity | lia]. }
  assert (Hgood : 2 <= numPlayers <= 10 →
     match Holdem.shuffledFor g net resp round sid with
     | None => Holdem.NewTexasHoldemGame g net resp numPlayers round sid = None
     | Some (inr e, g1) =>
         Holdem.NewTexasHoldemGame g net resp numPlayers round sid = Some (inr e, g1) ∧
         ∃ cause, e = Holdem.ErrShuffledDeck cause
     | Some (inl (deck, newRound), g1) =>
         ∃ game, Holdem.NewTexasHoldemGame g net resp numPlayers round sid
                 = Some (inl game, g1)
     end).
  { intros Hn.
    destruct (Holdem.shuffledFor g net resp round sid)
      as [[[[deck newRound] | e] g1] |] eqn:Hdeck.
    - destruct (shuffledFor_deck _ _ _ _ _ _ _ _ Hdeck) as (_ & _ & Hlen & _).
      destruct (NewTexasHoldemGame_dealt _ _ _ _ numPlayers _ _ _ _ Hn Hlen Hdeck)
        as (game & Hgame & _). by exists game.
    - split.
      + unfold Holdem.NewTexasHoldemGame.
        destruct (Z.ltb_spec numPlayers 2); [lia |].
        destruct (Z.gtb_spec numPlayers 10); [lia |]. cbn [orb]. by rewrite Hdeck.
      + unfold Holdem.shuffledFor in Hdeck.
        destruct (0 <? round)%N.
        * destruct (GetShuffledDeckByRound g net resp round sid) as [[[c | e'] g2] |];
            simplify_eq. by eexists.
        * destruct (GetShuffledDeck g net sid) as [[[[c r] | e'] g2] |];
            simplify_eq. by eexists.
    - unfold Holdem.NewTexasHoldemGame.
      destruct (Z.ltb_spec numPlayers 2); [lia |].
      destruct (Z.gtb_spec numPlayers 10); [lia |]. cbn [orb]. by rewrite Hdeck. }
  split; [exact Hbad |]. split; [exact Hgood |].
  intros required have g1 H.
  destruct (decide (2 <= numPlayers <= 10)) as [Hn | Hn].
  - specialize (Hgood Hn).
    destruct (Holdem.shuffledFor g net resp round sid) as [[[[deck newRound] | e] g2] |].
    + destruct Hgood as [game Hgame]. congruence.
    + destruct Hgood as [Hgame [cause ->]]. congruence.
    + congruence.
  - rewrite Hbad in H by lia. discriminate H.
Qed.

Lemma NewTexasHoldemGame_failures_witness :
  (11 < 2 ∨ 10 < 11) ∧
  Holdem.NewTexasHoldemGame start offline (inr "unused"%string) 11 0 "s"
    = Some (inr Holdem.ErrPlayers, start).
Proof.
  assert (H : 11 < 2 ∨ 10 < 11) by (right; lia).
  split; [exact H |].
  exact (proj1 (NewTexasHoldemGame_failures start offline (inr "unused"%string) 11 0 "s") H).
Defined.

(** X17. A game can be verified from the round it reports.  On a manager
    whose latest beacon is cached under its round (whatever else the cache
    holds, rounds above the latest included), a game created from the
    latest beacon (round 0) is created again, with the same hands and the
    same community cards, when it is asked for with the round it recorded and
    the same session and number of players; the second call neither uses the
    network nor changes the manager. *)
Theorem NewTexasHoldemGame_verifiable (dm : DrandManager) (net net' : InitNet)
    (resp resp' : response) (numPlayers : Z) (sid : string)
    (game : Holdem.TexasHoldemGame) (g1 : Globals) :
  latestIsCached dm →
  Holdem.NewTexasHoldemGame (running dm) net resp numPlayers 0 sid = Some (inl game, g1) →
  g1 = running dm ∧
  Holdem.NewTexasHoldemGame (running dm) net' resp' numPlayers (Holdem.Round game) sid
    = Some (inl game, running dm).
Proof.
  intros Hcache H.
  destruct (NewTexasHoldemGame_inv _ _ _ _ _ _ _ _ H) as (Hn & deck & Hdeck).
  pose proof (running_GetShuffledDeck dm net sid) as Hlatest.
  unfold Holdem.shuffledFor in Hdeck. cbn [N.ltb N.compare] in Hdeck.
  destruct (latestBeacon dm) as [lb |] eqn:Hlb.
  - destruct Hlatest as (cards & Hget & Hshuffle). rewrite Hget in Hdeck.
    injection Hdeck as -> HR <-. split; [reflexivity |]. rewrite <- HR.
    assert (Hsame : Holdem.shuffledFor (running dm) net' resp' (GetRound lb) sid
                    = Holdem.shuffledFor (running dm) net resp 0 sid).
    { unfold Holdem.shuffledFor at 2. cbn [N.ltb N.compare]. rewrite Hget.
      unfold Holdem.shuffledFor. destruct (N.ltb_spec 0 (GetRound lb)) as [Hpos | Hzero].
      - pose proof (Hcache lb Hlb) as Hcached.
        by rewrite (GetShuffledDeckByRound_running_hit dm net' resp' (GetRound lb) sid
                      lb deck Hcached Hshuffle).
      - pose proof (running_GetShuffledDeck dm net' sid) as Hlatest'.
        rewrite Hlb in Hlatest'. destruct Hlatest' as (cards' & Hget' & Hshuffle').
        rewrite Hget'. assert (cards' = deck) by congruence. by subst cards'. }
    rewrite <- H. unfold Holdem.NewTexasHoldemGame. by rewrite Hsame.
  - rewrite Hlatest in Hdeck. discriminate Hdeck.
Qed.

Lemma NewTexasHoldemGame_verifiable_witness :
  run connected outOfOrder = Some unordered ∧
  latestIsCached unordered ∧ ¬ latestIsGreatest unordered ∧
  ∃ game,
    Holdem.NewTexasHoldemGame (running unordered) offline (inr "unused"%string)
      4 0 "session_12345" = Some (inl game, running unordered) ∧
    Holdem.Round game = 5%N ∧
    Holdem.NewTexasHoldemGame (running unordered) offline (inr "offline"%string)
      4 (Holdem.Round game) "session_12345" = Some (inl game, running unordered).
Proof.
  assert (Hc : latestIsCached unordered).
  { intros lb Hlb. cbn [latestBeacon unordered] in Hlb. simplify_eq. reflexivity. }
  assert (Hg : ¬ latestIsGreatest unordered).
  { intros Hg. destruct (Hg (sampleBeacon 5) eq_refl) as [_ Hmax].
    assert (Hle : (10 <= GetRound (sampleBeacon 5))%N)
      by (apply (Hmax 10%N (sampleBeacon 10)); reflexivity).
    simpl in Hle. lia. }
  assert (H : ∃ game g1,
    Holdem.NewTexasHoldemGame (running unordered) offline (inr "unused"%string)
      4 0 "session_12345" = Some (inl game, g1) ∧ Holdem.Round game = 5%N)
    by (eexists _, _; vm_compute; split; reflexivity).
  split; [vm_compute; reflexivity |].
  split; [exact Hc |]. split; [exact Hg |]. destruct H as (game & g1 & H & Hround).
  destruct (NewTexasHoldemGame_verifiable unordered offline offline
              (inr "unused"%string) (inr "offline"%string) 4 "session_12345" game g1 Hc H)
    as [-> H2].
  exists game. split; [exact H |]. split; [exact Hround | exact H2].
Defined.

(** ** What the refresh loop leaves in the cache *)

Lemma increasing_keys (l : list Result) (k : N) :
  increasing l → (∀ a, a ∈ l → (GetRound a < k)%N) →
  k ∉ (map (fun b => (GetRound b, b)) l).*1.
Proof.
  intros _ Hlt Hin. apply list_elem_of_fmap in Hin as ([k' v] & -> & Hin).
  apply list_elem_of_fmap in Hin as (a & Heq & Ha). simplify_eq.
  specialize (Hlt a Ha). simpl in Hlt. lia.
Qed.

Lemma increasing_NoDup (l : list Result) :
  increasing l → NoDup (map (fun b => (GetRound b, b)) l).*1.
Proof.
  induction l as [| a l IH]; intros Hs; [constructor |].
  apply StronglySorted_cons in Hs as [Hall Hs]. cbn [map fmap list_fmap fst].
  constructor; [| by apply IH].
  intros Hin. apply list_elem_of_fmap in Hin as ([k' v] & Hk & Hin).
  apply list_elem_of_fmap in Hin as (b & Heq & Hb). simplify_eq.
  rewrite Forall_forall in Hall. specialize (Hall b Hb). simpl in Hk. lia.
Qed.

Lemma cacheOf_snoc (l : list Result) (b : Result) :
  increasing l → (∀ a, a ∈ l → (GetRound a < GetRound b)%N) →
  cacheOf (l ++ [b]) = <[GetRound b := b]> (cacheOf l).
Proof.
  intros Hs Hlt. unfold cacheOf. rewrite map_app. cbn [map].
  apply list_to_map_snoc. by apply increasing_keys.
Qed.

Lemma cacheOf_size (l : list Result) : increasing l → size (cacheOf l) = length l.
Proof.
  intros Hs. unfold cacheOf. rewrite map_size_list_to_map by (by apply increasing_NoDup).
  apply length_map.
Qed.

Lemma cacheOf_lookup (l : list Result) (k : N) (v : Result) :
  increasing l → cacheOf l !! k = Some v → v ∈ l ∧ GetRound v = k.
Proof.
  intros Hs Hk. unfold cacheOf in Hk.
  apply elem_of_list_to_map in Hk; [| by apply increasing_NoDup].
  apply list_elem_of_fmap in Hk as (a & Heq & Ha). by simplify_eq.
Qed.

Lemma cacheOf_head_fresh (a : Result) (l : list Result) :
  increasing (a :: l) → cacheOf l !! GetRound a = None.
Proof.
  intros Hs. apply StronglySorted_cons in Hs as [Hall Hs].
  destruct (cacheOf l !! GetRound a) as [v |] eqn:Hv; [| reflexivity].
  apply cacheOf_lookup in Hv as [Hin Hround]; [| done].
  rewrite Forall_forall in Hall. specialize (Hall v Hin). simpl in Hall. lia.
Qed.

Lemma lastn_short {A} (n : nat) (l : list A) : (length l <= n)%nat → lastn n l = l.
Proof. intros H. unfold lastn. by replace (length l - n)%nat with 0%nat by lia. Qed.

Lemma lastn_length {A} (n : nat) (l : list A) : (length (lastn n l) <= n)%nat.
Proof. unfold lastn. rewrite length_skipn. lia. Qed.

Lemma lastn_snoc {A} (n : nat) (l : list A) (x : A) :
  (1 <= n)%nat → lastn n (l ++ [x]) = lastn n (lastn n l ++ [x]).
Proof.
  intros Hn. destruct (decide (length l <= n)%nat) as [Hle | Hgt].
  - by rewrite (lastn_short n l).
  - unfold lastn. rewrite !length_app, length_skipn. cbn [length].
    replace (length l - (length l - n) + 1 - n)%nat with 1%nat by lia.
    rewrite !drop_app_le by (rewrite ?length_skipn; lia).
    rewrite drop_drop. do 2 f_equal. lia.
Qed.

Lemma increasing_lastn (n : nat) (l : list Result) : increasing l → increasing (lastn n l).
Proof.
  intros Hs. unfold lastn, increasing in *.
  rewrite <- (firstn_skipn (length l - n) l) in Hs.
  by apply StronglySorted_app_1_r in Hs.
Qed.

Lemma elem_of_lastn {A} (n : nat) (l : list A) (x : A) : x ∈ lastn n l → x ∈ l.
Proof.
  unfold lastn. intros H. rewrite <- (firstn_skipn (length l - n) l).
  apply elem_of_app. by right.
Qed.

Lemma increasing_last (l : list Result) (lb a : Result) :
  increasing l → last l = Some lb → a ∈ l → (GetRound a <= GetRound lb)%N.
Proof.
  intros Hs Hlast Ha. apply last_Some in Hlast as [l' ->].
  apply elem_of_app in Ha as [Ha | Ha].
  - pose proof (StronglySorted_app_1_elem_of _ _ _ a lb Hs Ha) as Hlt.
    simpl in Hlt. specialize (Hlt ltac:(by left)). lia.
  - apply list_elem_of_singleton in Ha as ->. lia.
Qed.

(** Storing a beacon newer than all of a full cache pushes the oldest out. *)
Lemma cleanCache_push (l : list Result) (b : Result) :
  increasing l → (length l <= maxCacheSize)%nat →
  (∀ a, a ∈ l → (GetRound a < GetRound b)%N) →
  cleanCache (<[GetRound b := b]> (cacheOf l)) = cacheOf (lastn maxCacheSize (l ++ [b])).
Proof.
  intros Hs Hlen Hlt.
  assert (Hfresh : cacheOf l !! GetRound b = None).
  { apply not_elem_of_list_to_map_1. by apply increasing_keys. }
  destruct (decide (length l < maxCacheSize)%nat) as [Hless | Hfull].
  - rewrite cleanCache_small.
    + rewrite lastn_short by (rewrite length_app; simpl; lia).
      by rewrite cacheOf_snoc.
    + rewrite map_size_insert_None, cacheOf_size by done. lia.
  - assert (Hl : length l = maxCacheSize) by lia.
    destruct l as [| a0 l']; [discriminate Hl |].
    set (M := <[GetRound b := b]> (cacheOf (a0 :: l'))).
    assert (Hsize : size M = S maxCacheSize).
    { unfold M. rewrite map_size_insert_None, cacheOf_size by done. by rewrite Hl. }
    assert (Hlast : lastn maxCacheSize ((a0 :: l') ++ [b]) = l' ++ [b]).
    { unfold lastn. rewrite length_app, Hl. cbn [length].
      by replace (maxCacheSize + 1 - maxCacheSize)%nat with 1%nat by lia. }
    rewrite Hlast.
    pose proof (evicted_length M) as Hev. rewrite Hsize in Hev.
    replace (S maxCacheSize - maxCacheSize)%nat with 1%nat in Hev by lia.
    destruct (evicted M) as [| k0 [| k1 rest]] eqn:Hevicted; try discriminate Hev.
    assert (Hk0 : k0 = GetRound a0).
    { destruct (decide (k0 = GetRound a0)) as [| Hne]; [done | exfalso].
      assert (Hin0 : k0 ∈ evicted M) by (rewrite Hevicted; by left).
      assert (Ha0 : is_Some (M !! GetRound a0)).
      { exists a0. unfold M. rewrite lookup_insert_ne.
        - unfold cacheOf. cbn [map]. apply lookup_insert_eq.
        - specialize (Hlt a0 ltac:(by left)). lia. }
      assert (Hkept : GetRound a0 ∉ evicted M).
      { rewrite Hevicted. intros Hin. apply list_elem_of_singleton in Hin. congruence. }
      pose proof (evicted_smallest M k0 (GetRound a0) Hin0 Ha0 Hkept) as Hsmall.
      destruct (evicted_cached M k0 Hin0) as [v Hv]. unfold M in Hv.
      destruct (decide (GetRound b = k0)) as [<- | Hnb].
      - specialize (Hlt a0 ltac:(by left)). lia.
      - rewrite lookup_insert_ne in Hv by done.
        apply cacheOf_lookup in Hv as [Hin Hround]; [| done].
        apply elem_of_cons in Hin as [-> | Hin]; [congruence |].
        apply StronglySorted_cons in Hs as [Hall _]. rewrite Forall_forall in Hall.
        specialize (Hall v Hin). simpl in Hall. lia. }
    subst k0.
    rewrite cleanCache_fold, Hevicted. cbn [fold_left]. unfold M.
    rewrite delete_insert_ne by (specialize (Hlt a0 ltac:(by left)); lia).
    unfold cacheOf at 1. cbn [map]. rewrite list_to_map_cons.
    rewrite delete_insert_id by (by apply cacheOf_head_fresh).
    fold (cacheOf l'). symmetry. apply cacheOf_snoc.
    + by apply StronglySorted_cons in Hs as [_ Hs].
    + intros a Ha. apply Hlt. by right.
Qed.

(** The invariant of the refresh loop, for the beacons [acc] it has stored. *)
Lemma ticks_store_accepted (resps : list response) :
  ∀ (dm : DrandManager) (acc : list Result),
    client dm ≠ None → latestBeacon dm = last acc → increasing acc →
    beaconCache dm = cacheOf (lastn maxCacheSize acc) →
    ∃ dm', run dm (map Tick resps) = Some dm' ∧
           client dm' ≠ None ∧
           latestBeacon dm' = last (acc ++ accepted (last acc) resps) ∧
           increasing (acc ++ accepted (last acc) resps) ∧
           beaconCache dm' = cacheOf (lastn maxCacheSize (acc ++ accepted (last acc) resps)).
Proof.
  induction resps as [| resp resps IH]; intros dm acc Hclient Hlatest Hs Hcache.
  - exists dm. cbn [map run accepted]. by rewrite app_nil_r.
  - cbn [map run step]. unfold fetchLatestBeacon.
    destruct (client dm) as [c |] eqn:Hc; [| done].
    destruct resp as [b | cause]; cbn [accepted].
    + rewrite Hlatest.
      assert (Hstore : ∀ dm1,
        dm1 = {| client := Some c; latestBeacon := Some b;
                 beaconCache := cleanCache (<[GetRound b := b]> (beaconCache dm));
                 isRunning := isRunning dm |} →
        (∀ a, a ∈ acc → (GetRound a < GetRound b)%N) →
        ∃ dm', run dm1 (map Tick resps) = Some dm' ∧ client dm' ≠ None ∧
          latestBeacon dm' = last (acc ++ b :: accepted (Some b) resps) ∧
          increasing (acc ++ b :: accepted (Some b) resps) ∧
          beaconCache dm' = cacheOf (lastn maxCacheSize (acc ++ b :: accepted (Some b) resps))).
      { intros dm1 -> Hlt.
        assert (Hs' : increasing (acc ++ [b])).
        { apply StronglySorted_app_2; [| done | repeat constructor].
          intros x1 x2 H1 H2. apply list_elem_of_singleton in H2 as ->. by apply Hlt. }
        destruct (IH {| client := Some c; latestBeacon := Some b;
                        beaconCache := cleanCache (<[GetRound b := b]> (beaconCache dm));
                        isRunning := isRunning dm |} (acc ++ [b]))
          as (dm' & Hrun & Hc' & Hl' & Hs'' & Hcache'); try done.
        - cbn [latestBeacon]. by rewrite last_snoc.
        - cbn [beaconCache]. rewrite Hcache, lastn_snoc by (unfold maxCacheSize; lia).
          apply cleanCache_push.
          + by apply increasing_lastn.
          + apply lastn_length.
          + intros a Ha. apply Hlt. by eapply elem_of_lastn.
        - rewrite last_snoc in Hl', Hs'', Hcache'.
          rewrite <- app_assoc in Hl', Hs'', Hcache'. by exists dm'. }
      destruct (last acc) as [lb |] eqn:Hlast.
      * destruct (N.leb_spec (GetRound b) (GetRound lb)) as [Hstale | Hnew].
        -- cbn [fmap option_fmap option_map snd]. rewrite <- Hlast.
           apply IH; try done; [by rewrite Hc | congruence].
        -- cbn [fmap option_fmap option_map snd]. apply (Hstore _ eq_refl).
           intros a Ha. pose proof (increasing_last acc lb a Hs Hlast Ha). lia.
      * cbn [fmap option_fmap option_map snd]. apply (Hstore _ eq_refl).
        apply last_None in Hlast as ->. intros a Ha. by apply elem_of_nil in Ha.
    + cbn [fmap option_fmap option_map snd]. apply IH; try done. by rewrite Hc.
Qed.

(** X18. The refresh loop alone keeps in the cache exactly the last
    [maxCacheSize] beacons it has stored, each under its round: after any
    sequence of ticks, the beacons stored are those whose round exceeded the
    round of every beacon delivered before, their rounds increase strictly,
    the latest beacon is the last of them, and the cache holds the last 100
    of them and nothing else. *)
Theorem ticks_cache_contents (resps : list response) :
  ∃ dm, run connected (map Tick resps) = Some dm ∧
        increasing (accepted None resps) ∧
        latestBeacon dm = last (accepted None resps) ∧
        beaconCache dm = cacheOf (lastn maxCacheSize (accepted None resps)) ∧
        size (beaconCache dm) = Nat.min (length (accepted None resps)) maxCacheSize ∧
        (∀ round beacon, beaconCache dm !! round = Some beacon →
                         GetRound beacon = round ∧ In beacon (accepted None resps)).
Proof.
  destruct (ticks_store_accepted resps connected []) as (dm & Hrun & _ & Hl & Hs & Hc);
    [done | done | constructor | done |].
  cbn [app last] in Hl, Hs, Hc.
  exists dm. split; [exact Hrun |]. split; [exact Hs |]. split; [exact Hl |].
  split; [exact Hc |]. split.
  - rewrite Hc, cacheOf_size by (by apply increasing_lastn).
    unfold lastn. rewrite length_skipn. lia.
  - intros round beacon Hk. rewrite Hc in Hk.
    apply cacheOf_lookup in Hk as [Hin Hround]; [| by apply increasing_lastn].
    split; [exact Hround |]. apply list_elem_of_In. by eapply elem_of_lastn.
Qed.

Lemma ticks_cache_contents_witness :
  let resps := [inl (sampleBeacon 5); inr "timeout"%string; inl (sampleBeacon 3);
                inl (sampleBeacon 9)] in
  accepted None resps = [sampleBeacon 5; sampleBeacon 9] ∧
  ∃ dm, run connected (map Tick resps) = Some dm ∧
        latestBeacon dm = Some (sampleBeacon 9) ∧
        beaconCache dm !! 3%N = None ∧
        ∀ round beacon, beaconCache dm !! round = Some beacon →
                        GetRound beacon = round.
Proof.
  intros resps.
  assert (Hacc : accepted None resps = [sampleBeacon 5; sampleBeacon 9]) by reflexivity.
  split; [exact Hacc |].
  destruct (ticks_cache_contents resps) as (dm & Hrun & _ & Hl & Hc & _ & Hkeys).
  exists dm. split; [exact Hrun |]. rewrite Hacc in Hl, Hc.
  split; [exact Hl |]. split.
  - rewrite Hc. reflexivity.
  - intros round beacon Hk. exact (proj1 (Hkeys round beacon Hk)).
Defined.

(** ** A tick into a crowded cache *)

(** X19. The cleaning can remove the beacon that the tick has just stored.
    When the cache is full of rounds greater than the round of a delivered
    beacon (requests by round can put them there), the tick makes the beacon
    the latest beacon and the cleaning deletes it at once: the latest beacon
    is then not in the cache, although [GetLatestRandomness] returns it. *)
Theorem tick_evicts_its_beacon (dm : DrandManager) (beacon : Result) :
  client dm ≠ None →
  (∀ lb, latestBeacon dm = Some lb → (GetRound lb < GetRound beacon)%N) →
  (maxCacheSize <= size (beaconCache dm))%nat →
  (∀ k v, beaconCache dm !! k = Some v → (GetRound beacon < k)%N) →
  ∃ dm', fetchLatestBeacon dm (inl beacon) = Some (None, dm') ∧
         latestBeacon dm' = Some beacon ∧
         GetLatestRandomness dm' = Ok (GetRandomness beacon, GetRound beacon) ∧
         beaconCache dm' !! GetRound beacon = None ∧
         size (beaconCache dm') = maxCacheSize ∧
         ¬ latestIsGreatest dm'.
Proof.
  intros Hclient Hnew Hfull Hgreater. unfold fetchLatestBeacon.
  destruct (client dm) as [c |]; [| done].
  assert (Hfresh : match latestBeacon dm with
                   | Some lb => (GetRound beacon <=? GetRound lb)%N
                   | None => false
                   end = false).
  { destruct (latestBeacon dm) as [lb |]; [| reflexivity].
    apply N.leb_gt. by apply Hnew. }
  rewrite Hfresh. eexists. split; [reflexivity |]. cbn [latestBeacon beaconCache].
  set (M := <[GetRound beacon := beacon]> (beaconCache dm)).
  assert (Hmiss : beaconCache dm !! GetRound beacon = None).
  { destruct (beaconCache dm !! GetRound beacon) as [v |] eqn:Hv; [| reflexivity].
    specialize (Hgreater _ _ Hv). lia. }
  assert (Hsize : size M = S (size (beaconCache dm)))
    by (by apply map_size_insert_None).
  assert (Hgone : cleanCache M !! GetRound beacon = None).
  { rewrite cleanCache_lookup.
    destruct (decide (GetRound beacon ∈ evicted M)) as [| Hkept]; [reflexivity | exfalso].
    pose proof (evicted_length M) as Hlen. rewrite Hsize in Hlen.
    destruct (evicted M) as [| k0 rest] eqn:Hev; [cbn [length] in Hlen; lia |].
    assert (Hin0 : k0 ∈ evicted M) by (rewrite Hev; by left).
    assert (Hb : is_Some (M !! GetRound beacon))
      by (exists beacon; apply lookup_insert_eq).
    rewrite <- Hev in Hkept.
    pose proof (evicted_smallest M k0 (GetRound beacon) Hin0 Hb Hkept) as Hsmall.
    destruct (evicted_cached M k0 Hin0) as [v Hv]. unfold M in Hv.
    rewrite lookup_insert_ne in Hv by lia.
    specialize (Hgreater _ _ Hv). lia. }
  split; [reflexivity |]. split; [reflexivity |]. split; [exact Hgone |]. split.
  - rewrite cleanCache_size, Hsize. lia.
  - intros Hg. destruct (Hg beacon eq_refl) as [Hcached _].
    cbn [beaconCache] in Hcached. fold M in Hcached. congruence.
Qed.

Lemma tick_evicts_its_beacon_witness :
  client crowded ≠ None ∧
  (∀ lb, latestBeacon crowded = Some lb → (GetRound lb < GetRound (sampleBeacon 0))%N) ∧
  (maxCacheSize <= size (beaconCache crowded))%nat ∧
  (∀ k v, beaconCache crowded !! k = Some v → (GetRound (sampleBeacon 0) < k)%N) ∧
  ∃ dm', fetchLatestBeacon crowded (inl (sampleBeacon 0)) = Some (None, dm') ∧
         latestBeacon dm' = Some (sampleBeacon 0) ∧
         beaconCache dm' !! 0%N = None.
Proof.
  assert (H1 : client crowded ≠ None) by (vm_compute; discriminate).
  assert (H2 : ∀ lb, latestBeacon crowded = Some lb →
                     (GetRound lb < GetRound (sampleBeacon 0))%N).
  { intros lb Hlb. vm_compute in Hlb. discriminate Hlb. }
  assert (H3 : (maxCacheSize <= size (beaconCache crowded))%nat).
  { apply Nat.leb_le. vm_compute. reflexivity. }
  assert (H4 : ∀ k v, beaconCache crowded !! k = Some v →
                      (GetRound (sampleBeacon 0) < k)%N).
  { assert (Hall : map_Forall (fun k _ => (0 < k)%N) (beaconCache crowded)).
    { refine (bool_decide_unpack _ _). vm_compute. exact I. }
    intros k v Hk. exact (Hall k v Hk). }
  split; [exact H1 |]. split; [exact H2 |]. split; [exact H3 |]. split; [exact H4 |].
  destruct (tick_evicts_its_beacon crowded (sampleBeacon 0) H1 H2 H3 H4)
    as (dm' & Hf & Hl & _ & Hgone & _).
  exists dm'. split; [exact Hf |]. split; [exact Hl | exact Hgone].
Defined.

(** ** The two implementations *)

(** X20. The standalone example and the package shuffle alike.  When the
    network answers a request with a beacon, the standalone
    [GetShuffledDeckByRound] returns the canonical deck shuffled by the
    extended randomness of that beacon, which is the deck that the
    [GetShuffledDeckByRound] of the package returns from a manager that has
    cached the same randomness for the round; the standalone [GetShuffledDeck]
    returns that deck with the round of the beacon.  The standalone calls
    fail only when the client cannot be created or the fetch fails, with the
    message for the latest beacon when the round is 0. *)
Theorem implementations_agree (dm : DrandManager) (c : Client) (beacon cached : Result)
    (round : N) (sid : string) (net : InitNet) (resp : response) :
  beaconCache dm !! round = Some cached →
  GetRandomness cached = GetRandomness beacon →
  (∃ cards,
     Single.GetShuffledDeckByRound (inl c) (inl beacon) round sid = Some (inl cards) ∧
     Single.GetShuffledDeck (inl c) (inl beacon) sid = Some (inl (cards, GetRound beacon)) ∧
     GetShuffledDeckByRound (running dm) net resp round sid = Some (Ok cards, running dm) ∧
     Permutation initializeDeck cards) ∧
  (∀ cause,
     Single.GetShuffledDeckByRound (inl c) (inr cause) round sid
       = Some (inr (Single.ErrRoundRandomness round
                      (if (round =? 0)%N then Single.ErrLatestBeacon cause
                       else Single.ErrRoundBeacon round cause))) ∧
     Single.GetShuffledDeck (inl c) (inr cause) sid
       = Some (inr (Single.ErrLatestRandomness (Single.ErrLatestBeacon cause)))) ∧
  (∀ cause resp',
     Single.GetShuffledDeckByRound (inr cause) resp' round sid
       = Some (inr (Single.ErrRoundRandomness round (Single.ErrNewClient cause))) ∧
     Single.GetShuffledDeck (inr cause) resp' sid
       = Some (inr (Single.ErrLatestRandomness (Single.ErrNewClient cause)))).
Proof.
  intros Hhit Hsame. split; [| split].
  - destruct (shuffleDeck_Some initializeDeck
                (extendedRandomness (GetRandomness beacon) sid)) as (cards & Hcards & Hperm).
    exists cards.
    unfold Single.GetShuffledDeckByRound, Single.GetShuffledDeck,
      Single.getDrandRandomnessByRound, Single.getDrandRandomness.
    rewrite Hcards. split; [reflexivity |]. split; [reflexivity |]. split.
    + apply (GetShuffledDeckByRound_running_hit dm net resp round sid cached);
        [exact Hhit | by rewrite Hsame].
    + exact (Permutation_sym Hperm).
  - intros cause.
    unfold Single.GetShuffledDeckByRound, Single.GetShuffledDeck,
      Single.getDrandRandomnessByRound, Single.getDrandRandomness.
    split; [by destruct (round =? 0)%N | reflexivity].
  - intros cause resp'. split; reflexivity.
Qed.

Lemma implementations_agree_witness :
  beaconCache sampleManager !! 7%N = Some (sampleBeacon 7) ∧
  ∃ cards,
    Single.GetShuffledDeckByRound (inl {| closed := false |}) (inl (sampleBeacon 7)) 7 "s"
      = Some (inl cards) ∧
    GetShuffledDeckByRound (running sampleManager) offline (inr "offline"%string) 7 "s"
      = Some (Ok cards, running sampleManager).
Proof.
  assert (H : beaconCache sampleManager !! 7%N = Some (sampleBeacon 7)) by reflexivity.
  split; [exact H |].
  destruct (proj1 (implementations_agree sampleManager {| closed := false |}
                     (sampleBeacon 7) (sampleBeacon 7) 7 "s" offline
                     (inr "offline"%string) H eq_refl))
    as (cards & H1 & _ & H3 & _).
  exists cards. split; [exact H1 | exact H3].
Defined.
